(** * appledeepdoc-mcp: the local documentation index and its search

    A shallow embedding of [appledeepdoc_mcp/config.py] (class [Config]) and
    [appledeepdoc_mcp/docs/local_docs.py] (class [LocalDocsManager]), and the
    properties of root resolution, index construction, search, document
    retrieval and listing.

    Conventions of the embedding:
    - a Python [str] is a list of Unicode code points ([N]); indices and
      lengths are counted in code points, as Python does;
    - a Python [dict] is an association list in insertion order: assigning
      to a key that is present replaces the value in place, assigning to a new
      key appends it ([dict_set]); [items()] is the list itself;
    - the file system and the process environment are explicit arguments;
    - an operation that may raise returns a [result]; so does every call of
      the file system. *)

From stdpp Require Import base numbers list sets gmap sorting strings.

Local Open Scope Z_scope.

(** ** Python strings *)

Abbreviation char := N.
Abbreviation str := (list N).

(** A literal of the source, written as a Rocq string (ASCII only). *)
Definition lit (s : string) : str :=
  map Ascii.N_of_ascii (String.list_ascii_of_string s).

(** [len(s)] *)
Definition len {A} (l : list A) : Z := Z.of_nat (length l).

(** [s[lo:hi]] for indices that are not negative (the only slices the
    source takes); an empty slice when [hi <= lo]. *)
Definition slice {A} (s : list A) (lo hi : Z) : list A :=
  take (Z.to_nat (hi - lo)) (drop (Z.to_nat lo) s).

(** [Py_UNICODE_ISSPACE]: the characters [str.strip()] removes and the class
    [\s] of a [str] pattern. *)
Definition isspace (c : char) : bool :=
  ((9 <=? c) && (c <=? 13) || (28 <=? c) && (c <=? 32)
   || (c =? 133) || (c =? 160) || (c =? 5760)
   || (8192 <=? c) && (c <=? 8202)
   || (c =? 8232) || (c =? 8233) || (c =? 8239) || (c =? 8287)
   || (c =? 12288))%N.

Fixpoint lstrip (s : str) : str :=
  match s with
  | c :: s' => if isspace c then lstrip s' else s
  | [] => []
  end.

Definition rstrip (s : str) : str := reverse (lstrip (reverse s)).

(** [s.strip()] *)
Definition strip (s : str) : str := rstrip (lstrip s).

(** [re.sub(r'\s+', ' ', s)]: every maximal run of white space becomes one
    space. [in_run] tells that the previous character was white space. *)
Fixpoint collapse_ws (in_run : bool) (s : str) : str :=
  match s with
  | [] => []
  | c :: s' =>
      if isspace c
      then (if in_run then collapse_ws true s' else 32%N :: collapse_ws true s')
      else c :: collapse_ws false s'
  end.

Definition sub_whitespace (s : str) : str := collapse_ws false s.

(** Character comparison of a compiled literal pattern: exact without flags;
    with [re.IGNORECASE] the comparison of the [re] module, which rests on
    the Unicode case tables and is an argument of the model ([ieq]). *)
Definition chr_eq (ieq : char -> char -> bool) (case_sensitive : bool)
    (p c : char) : bool :=
  if case_sensitive then (p =? c)%N else ieq p c.

(** The case-insensitive comparison restricted to ASCII letters; it is what
    the [re] module does on ASCII text and is used for concrete runs. *)
Definition ascii_lower (c : char) : char :=
  if ((65 <=? c) && (c <=? 90))%N then (c + 32)%N else c.
Definition ascii_ieq (p c : char) : bool :=
  (ascii_lower p =? ascii_lower c)%N.

Section Pattern.
Variable eqc : char -> char -> bool.

(** The literal pattern [pat] matches at the start of [text]. *)
Fixpoint match_here (pat text : str) : bool :=
  match pat, text with
  | [], _ => true
  | _ :: _, [] => false
  | p :: pat', c :: text' => eqc p c && match_here pat' text'
  end.

(** [pattern.search(text)] as a truth value. *)
Fixpoint re_search (pat text : str) : bool :=
  match_here pat text ||
  match text with
  | [] => false
  | _ :: text' => re_search pat text'
  end.

(** [pattern.finditer(text)]: the spans [(start, end)] of the successive
    matches, left to right and not overlapping. [pos] is the index of the
    head of [text]; [skip] counts the characters still covered by the last
    match. An empty pattern matches at every index, the end included. *)
Fixpoint finditer_from (pat text : str) (pos : Z) (skip : nat)
    : list (Z * Z) :=
  match text with
  | [] =>
      match skip with
      | O => if match_here pat [] then [(pos, pos)] else []
      | S _ => []
      end
  | _ :: text' =>
      match skip with
      | S k => finditer_from pat text' (pos + 1) k
      | O =>
          if match_here pat text
          then (pos, pos + len pat)
                 :: finditer_from pat text' (pos + 1) (pred (length pat))
          else finditer_from pat text' (pos + 1) O
      end
  end.

Definition finditer (pat text : str) : list (Z * Z) :=
  finditer_from pat text 0 O.
End Pattern.

(** [sep in s] and [s.split(sep, 1)[1]] for a separator of two equal
    characters [c c], as used on composite keys. *)
Fixpoint after_sep (c : char) (s : str) : option str :=
  match s with
  | a :: ((b :: rest) as s') =>
      if ((a =? c) && (b =? c))%N then Some rest else after_sep c s'
  | _ => None
  end.

(** [sub in s] for strings. *)
Definition contains (sub s : str) : bool := re_search N.eqb sub s.

(** Comparison of strings as Python orders them: lexicographic on code
    points. *)
Fixpoint str_leb (a b : str) : bool :=
  match a, b with
  | [], _ => true
  | _ :: _, [] => false
  | x :: a', y :: b' => (x <? y)%N || ((x =? y)%N && str_leb a' b')
  end.

(** ** Patterns with anchors, classes and a group

    The pattern that [initialize] gives to [re.findall] is a sequence of
    anchors, greedy repetitions of one character class, and the brackets of
    one group. Such a pattern is matched the way the [re] module does it:
    a repetition first takes as many characters as it can, and gives them
    back one by one as long as the rest of the pattern fails. *)
Module re.
Inductive item :=
  | bol                                  (* ^ under re.MULTILINE *)
  | eol                                  (* $ under re.MULTILINE *)
  | rep (cls : char -> bool) (lo : nat) (hi : option nat)
                                         (* c{lo,hi}; c+ is c{1,} *)
  | group_open                           (* ( *)
  | group_close.                         (* ) *)

(** [^]: at the start of the text or just after a line feed. *)
Definition at_bol (text : str) (pos : nat) : bool :=
  match pos with
  | O => true
  | S i => bool_decide (text !! i = Some 10%N)
  end.

(** [$]: at the end of the text or just before a line feed. *)
Definition at_eol (text : str) (pos : nat) : bool :=
  match text !! pos with
  | None => true
  | Some c => (c =? 10)%N
  end.

(** The number of characters of the class at the start of a string. *)
Fixpoint run_length (cls : char -> bool) (s : str) : nat :=
  match s with
  | c :: s' => if cls c then S (run_length cls s') else O
  | [] => O
  end.

(** The repetition counts [n], [n - 1], ..., [lo] are tried in this order
    until the rest of the pattern, [rest_matches], succeeds. *)
Fixpoint backtrack {A} (rest_matches : nat -> option A) (lo n : nat)
    : option A :=
  if (n <? lo)%nat then None
  else
    match rest_matches n with
    | Some r => Some r
    | None =>
        match n with
        | O => None
        | S n' => backtrack rest_matches lo n'
        end
    end.

(** The match of a pattern at the index [pos] of [text]: the index of its
    end and the span of the group. [gs] and [ge] are the start and the end
    of the group as far as they are known. *)
Fixpoint match_items (items : list item) (text : str) (pos gs ge : nat)
    : option (nat * (nat * nat)) :=
  match items with
  | [] => Some (pos, (gs, ge))
  | bol :: items' =>
      if at_bol text pos then match_items items' text pos gs ge else None
  | eol :: items' =>
      if at_eol text pos then match_items items' text pos gs ge else None
  | rep cls lo hi :: items' =>
      let n := run_length cls (drop pos text) in
      let n := match hi with
               | Some h => Nat.min n h
               | None => n
               end in
      backtrack (fun k => match_items items' text (pos + k) gs ge) lo n
  | group_open :: items' => match_items items' text pos pos ge
  | group_close :: items' => match_items items' text pos gs pos
  end.

(** [re.findall(pattern, text)] for a pattern with one group that matches
    no empty string: the group of every match, the matches being looked for
    from left to right, each from the end of the one before. [rest] is the
    text from [pos] on; [skip] counts the characters still covered by the
    last match. *)
Fixpoint findall_from (items : list item) (text rest : str) (pos skip : nat)
    : list str :=
  match rest with
  | [] => []
  | _ :: rest' =>
      match skip with
      | S k => findall_from items text rest' (S pos) k
      | O =>
          match match_items items text pos 0 0 with
          | Some (e, (gs, ge)) =>
              take (ge - gs) (drop gs text)
                :: findall_from items text rest' (S pos) (e - pos - 1)
          | None => findall_from items text rest' (S pos) O
          end
      end
  end.

Definition findall (items : list item) (text : str) : list str :=
  findall_from items text text 0 0.
End re.

(** [r'^#{1,3}\s+(.+)$']: [\s] is the white space of [isspace], and [.] is
    any character but the line feed. *)
Definition header_pattern : list re.item :=
  [re.bol;
   re.rep (N.eqb 35) 1 (Some 3%nat);
   re.rep isspace 1 None;
   re.group_open;
   re.rep (fun c => negb (c =? 10)%N) 1 None;
   re.group_close;
   re.eol].

(** [re.findall(r'^#{1,3}\s+(.+)$', text, re.MULTILINE)] *)
Definition markdown_headers (text : str) : list str :=
  re.findall header_pattern text.

(** ** [list.sort(key=...)] and [sorted]: a stable sort

    Python's sort is stable and ascending in the key; it is modelled by a
    stable insertion sort. An element is inserted in front of the first
    element whose key is not smaller, so that it stays in front of the later
    elements of equal key. *)
Section Sort.
Context {A K : Type} (key : A -> K) (leb : K -> K -> bool).

Fixpoint insert_by (x : A) (l : list A) : list A :=
  match l with
  | [] => [x]
  | y :: l' =>
      if leb (key x) (key y) then x :: l else y :: insert_by x l'
  end.

Definition sort_by (l : list A) : list A := foldr insert_by [] l.
End Sort.

(** ** Python dictionaries, in insertion order *)
Section Dict.
Context {V : Type}.

(** [d[k] = v] *)
Fixpoint dict_set (k : str) (v : V) (d : list (str * V)) : list (str * V) :=
  match d with
  | [] => [(k, v)]
  | (k', v') :: d' =>
      if decide (k = k') then (k', v) :: d' else (k', v') :: dict_set k v d'
  end.

(** [d.get(k)] *)
Fixpoint dict_get (k : str) (d : list (str * V)) : option V :=
  match d with
  | [] => None
  | (k', v') :: d' => if decide (k = k') then Some v' else dict_get k d'
  end.

(** [d.keys()] *)
Definition dict_keys (d : list (str * V)) : list str := d.*1.
End Dict.

(** ** Exceptions *)
Inductive exn :=
  | ValueError (msg : str)
  | OSError (msg : str)
  | UnicodeDecodeError (msg : str).

Inductive result (A : Type) :=
  | Ok (a : A)
  | Raise (e : exn).
Arguments Ok {A} a.
Arguments Raise {A} e.

(** The error monad: [x ← r; k] runs [k] unless [r] raised. *)
Global Instance result_bind : MBind result := fun A B k r =>
  match r with
  | Ok a => k a
  | Raise e => Raise e
  end.

(** ** [pathlib]: a path is its tuple of [parts]; an absolute path starts
    with its anchor, ["/"] or ["//"], the only parts that hold a slash. *)
Abbreviation Path := (list str).

Module pathlib.
(** A part is an anchor when it starts with a slash. *)
Definition is_anchor (part : str) : bool :=
  match part with
  | c :: _ => (c =? 47)%N
  | [] => false
  end.

Fixpoint split_slash (cur : str) (s : str) : list str :=
  match s with
  | [] => [cur]
  | c :: s' =>
      if (c =? 47)%N then cur :: split_slash [] s' else split_slash (cur ++ [c]) s'
  end.

(** The number of slashes at the start of a string. *)
Fixpoint leading_slashes (s : str) : nat :=
  match s with
  | c :: s' => if (c =? 47)%N then S (leading_slashes s') else O
  | [] => O
  end.

(** [Path(s)] for a POSIX path: empty and ["."] components are dropped;
    exactly two slashes at the start are kept as the anchor ["//"], any
    other number of them gives the anchor ["/"]. *)
Definition Path_of_str (s : str) : Path :=
  let comps :=
    filter (fun c => c <> [] /\ c <> lit ".") (split_slash [] s) in
  match leading_slashes s with
  | O => comps
  | 2%nat => lit "//" :: comps
  | _ => lit "/" :: comps
  end.

Definition is_absolute (p : Path) : bool :=
  match p with
  | a :: _ => is_anchor a
  | [] => false
  end.

(** [str(p)] *)
Fixpoint join_slash (comps : list str) : str :=
  match comps with
  | [] => []
  | [c] => c
  | c :: comps' => c ++ (47%N :: join_slash comps')
  end.

Definition to_str (p : Path) : str :=
  match p with
  | [] => lit "."
  | a :: comps => if is_anchor a then a ++ join_slash comps
                  else join_slash p
  end.

(** [p / sub] for a relative [sub] *)
Definition joinpath (p : Path) (sub : str) : Path := p ++ Path_of_str sub.

(** [p.name]: the last component, empty for a bare anchor. *)
Definition name (p : Path) : str :=
  match reverse p with
  | [] => []
  | [a] => if is_anchor a then [] else a
  | a :: _ => a
  end.

(** Index of the last ['.'] of a name, when the name has a suffix:
    [0 < i < len(name) - 1]. *)
Definition suffix_index (n : str) : option nat :=
  match list_find (fun c => c = 46%N) (reverse n) with
  | Some (j, _) =>
      let i := (length n - 1 - j)%nat in
      if bool_decide (0 < i < length n - 1)%nat then Some i else None
  | None => None
  end.

(** [p.suffix] *)
Definition suffix (p : Path) : str :=
  match suffix_index (name p) with
  | Some i => drop i (name p)
  | None => []
  end.

(** [p.stem] *)
Definition stem (p : Path) : str :=
  match suffix_index (name p) with
  | Some i => take i (name p)
  | None => name p
  end.

(** [p.parents]: the proper ancestors, the nearest first, down to the
    anchor (or to the empty relative path). *)
Definition parents (p : Path) : list Path :=
  let lowest := if is_absolute p then 1%nat else 0%nat in
  map (fun k => take k p) (reverse (seq lowest (length p - lowest))).
End pathlib.

(** The file system, as the program observes it. Every call can raise: an
    [OSError] when the system call under it fails for another reason than a
    missing file ([exists] and [is_dir] turn a missing file into [False]),
    and for [read_text] also a [UnicodeDecodeError]. [glob] is consumed
    whole by the loops of the source, and is given as the list of its
    results. *)
Record FileSystem := {
  fs_exists : Path -> result bool;            (* Path.exists() *)
  fs_is_dir : Path -> result bool;            (* Path.is_dir() *)
  fs_glob : Path -> str -> result (list Path);  (* Path.glob(pattern) *)
  fs_read_text : Path -> result str;          (* Path.read_text('utf-8') *)
  fs_stat_size : Path -> result Z;            (* Path.stat().st_size *)
}.

(** ** [config.py]: class [Config] *)
Module Config.
Definition XCODE_PATTERNS : list str := [lit "Xcode*.app"; lit "Xcode.app"].
Definition APPLICATIONS_DIR : Path := pathlib.Path_of_str (lit "/Applications").
Definition DOC_SUBPATH : str :=
  lit "Contents/PlugIns/IDEIntelligenceChat.framework/Versions/A/Resources/AdditionalDocumentation".

(** The test of the inner loop: the candidate's documentation folder
    exists, is a directory and holds a markdown file. [is_dir] is called only
    when [exists] returned true, and the folder is listed only when both
    did. *)
Definition qualifies (fs : FileSystem) (doc_path : Path) : result bool :=
  e ← fs_exists fs doc_path;
  if (e : bool) then
    d ← fs_is_dir fs doc_path;
    if (d : bool) then
      md_files ← fs_glob fs doc_path (lit "*.md");
      Ok (bool_decide (md_files <> []))
    else Ok false
  else Ok false.

(** The loop over the applications that one pattern finds. *)
Fixpoint apps_loop (fs : FileSystem) (apps : list Path)
    (doc_paths : list Path) : result (list Path) :=
  match apps with
  | [] => Ok doc_paths
  | xcode_app :: apps' =>
      let doc_path := pathlib.joinpath xcode_app DOC_SUBPATH in
      q ← qualifies fs doc_path;
      apps_loop fs apps' (if (q : bool) then doc_paths ++ [doc_path]
                          else doc_paths)
  end.

(** The loop over the patterns. *)
Fixpoint patterns_loop (fs : FileSystem) (patterns : list str)
    (doc_paths : list Path) : result (list Path) :=
  match patterns with
  | [] => Ok doc_paths
  | pattern :: patterns' =>
      apps ← fs_glob fs APPLICATIONS_DIR pattern;
      doc_paths ← apps_loop fs apps doc_paths;
      patterns_loop fs patterns' doc_paths
  end.

Definition find_xcode_documentation_paths (fs : FileSystem)
    : result (list Path) :=
  patterns_loop fs XCODE_PATTERNS [].

Definition no_xcode_message : str :=
  lit "No Xcode installations with additional documentation found. "
  ++ lit "Searched in /Applications for Xcode*.app. "
  ++ lit "You can set XCODE_DOC_PATH environment variable to specify a custom path.".

(** [environ] is [os.environ.get("XCODE_DOC_PATH")]; an empty value is
    false in [if custom_path:] and counts as no override. *)
Definition get_documentation_paths (fs : FileSystem) (environ : option str)
    : result (list Path) :=
  match environ with
  | Some ((_ :: _) as custom_path) =>
      let custom_path := pathlib.Path_of_str custom_path in
      e ← fs_exists fs custom_path;
      if negb e
      then Raise (ValueError (lit "Custom documentation path does not exist: "
                              ++ pathlib.to_str custom_path))
      else Ok [custom_path]
  | _ =>
      doc_paths ← find_xcode_documentation_paths fs;
      match doc_paths with
      | [] => Raise (ValueError no_xcode_message)
      | _ => Ok doc_paths
      end
  end.

Definition get_xcode_name_from_path (path : Path) : str :=
  match list_find (fun parent => pathlib.suffix parent = lit ".app")
                  (pathlib.parents path) with
  | Some (_, parent) => pathlib.name parent
  | None =>
      if 2 <? len path then default [] (path !! 2%nat) else lit "Xcode"
  end.
End Config.

(** ** [local_docs.py]: class [LocalDocsManager] *)

(** The metadata dictionary stored per document in [docs_cache]. *)
Record DocInfo := {
  info_path : str;
  info_name : str;
  info_size : Z;
  info_xcode_source : str;
  info_topics : list str;
}.

Record LocalDocsManager := {
  content_cache : list (str * str);
  docs_cache : list (str * DocInfo);
  doc_paths : list Path;
}.

(** A match dictionary: ["type"], ["context"] and, for content matches,
    ["position"]. *)
Inductive match_type := type_filename | type_content.

Record Match := {
  m_type : match_type;
  m_context : str;
  m_position : option Z;
}.

(** An element of ["results"]. *)
Record DocResult := {
  document : str;
  xcode_version : str;
  matches : list Match;
  total_matches : Z;
}.

(** The dictionary [search] returns. *)
Record Response := {
  query : str;
  total_results : Z;
  results : list DocResult;
}.

(** An element of the list [list_documents] returns. *)
Record Summary := {
  sum_name : str;
  sum_topics : list str;
  sum_size : Z;
  xcode_versions : list str;
}.

Global Instance match_type_eq_dec : EqDecision match_type.
Proof. solve_decision. Defined.

(** The separator of composite keys. *)
Definition key_sep : str := lit "::".

(** [f"{xcode_name}::{stem}"] *)
Definition composite_key (xcode_name stem : str) : str :=
  xcode_name ++ key_sep ++ stem.

(** [composite_key.split("::", 1)[1] if "::" in composite_key else
    composite_key] *)
Definition doc_name_of_key (composite_key : str) : str :=
  default composite_key (after_sep 58%N composite_key).

(** The sort key of [search]: [(no filename match, -total_matches)]. *)
Definition has_filename (r : DocResult) : bool :=
  existsb (fun m => bool_decide (m_type m = type_filename)) (matches r).

Definition relevance_key (r : DocResult) : bool * Z :=
  (negb (has_filename r), - total_matches r).

(** Order of Python tuples [(bool, int)], with [False < True]. *)
Definition bool_lt (a b : bool) : bool := negb a && b.
Definition relevance_leb (k1 k2 : bool * Z) : bool :=
  bool_lt k1.1 k2.1 || (bool_decide (k1.1 = k2.1) && (k1.2 <=? k2.2)).

Section Manager.
(** The comparison of characters under [re.IGNORECASE] and [str.lower()]
    rest on the Unicode tables of the interpreter and are arguments of the
    model. So is the search for headings,
    [re.findall(r'^#{1,3}\s+(.+)$', text, re.MULTILINE)], of which
    [markdown_headers] is the instance that the source uses. *)
Variable ieq : char -> char -> bool.
Variable findall_headers : str -> list str.
Variable lower : str -> str.

(** *** [initialize] *)

(** The body of the [try] for one file. Nothing is stored before the last
    call that can raise ([stat]) has returned. *)
Definition load_file (fs : FileSystem) (xcode_name : str) (md_file : Path)
    (self : LocalDocsManager) : result LocalDocsManager :=
  content ← fs_read_text fs md_file;
  let headers := findall_headers (slice content 0 500) in
  let key := composite_key xcode_name (pathlib.stem md_file) in
  st_size ← fs_stat_size fs md_file;
  let doc_info := {|
    info_path := pathlib.to_str md_file;
    info_name := pathlib.stem md_file;
    info_size := st_size;
    info_xcode_source := xcode_name;
    info_topics := slice headers 0 5 |} in
  let self := {|
    content_cache := content_cache self;
    docs_cache := dict_set key doc_info (docs_cache self);
    doc_paths := doc_paths self |} in
  Ok {|
    content_cache := dict_set key content (content_cache self);
    docs_cache := docs_cache self;
    doc_paths := doc_paths self |}.

(** [try: ... except Exception: logger.error(...)] *)
Definition try_load_file (fs : FileSystem) (xcode_name : str)
    (self : LocalDocsManager) (md_file : Path) : LocalDocsManager :=
  match load_file fs xcode_name md_file self with
  | Ok self' => self'
  | Raise _ => self
  end.

(** The body of the outer loop, for one documentation folder. The listing
    of the folder is outside the [try] of the files: when it raises, so does
    the loop. *)
Definition index_doc_path (fs : FileSystem) (self : LocalDocsManager)
    (doc_path : Path) : result LocalDocsManager :=
  let xcode_name := Config.get_xcode_name_from_path doc_path in
  md_files ← fs_glob fs doc_path (lit "*.md");
  Ok (foldl (try_load_file fs xcode_name) self md_files).

(** The outer loop. *)
Fixpoint index_doc_paths (fs : FileSystem) (self : LocalDocsManager)
    (paths : list Path) : result LocalDocsManager :=
  match paths with
  | [] => Ok self
  | doc_path :: paths' =>
      self ← index_doc_path fs self doc_path;
      index_doc_paths fs self paths'
  end.

(** [initialize]. Only a [ValueError] of the root resolution is caught. *)
Definition initialize (fs : FileSystem) (environ : option str)
    (self : LocalDocsManager) : result LocalDocsManager :=
  match Config.get_documentation_paths fs environ with
  | Raise (ValueError _) =>
      Ok {| content_cache := content_cache self;
            docs_cache := docs_cache self;
            doc_paths := [] |}
  | Raise e => Raise e
  | Ok paths =>
      let self := {| content_cache := content_cache self;
                     docs_cache := docs_cache self;
                     doc_paths := paths |} in
      index_doc_paths fs self paths
  end.

(** [__init__] *)
Definition new_manager (fs : FileSystem) (environ : option str)
    : result LocalDocsManager :=
  initialize fs environ
    {| content_cache := []; docs_cache := []; doc_paths := [] |}.

(** *** [search] *)

(** The context of one match: the window of 50 characters on each side,
    clipped to the document, stripped, white space collapsed. *)
Definition match_context (content : str) (m_start m_end : Z) : str :=
  let start := Z.max 0 (m_start - 50) in
  let end_ := Z.min (len content) (m_end + 50) in
  sub_whitespace (strip (slice content start end_)).

(** The loop over [pattern.finditer(content)], with its [break]. *)
Fixpoint content_loop (content : str) (spans : list (Z * Z))
    (matches : list Match) : list Match :=
  match spans with
  | [] => matches
  | (m_start, m_end) :: spans' =>
      if 5 <=? len matches then matches
      else content_loop content spans'
             (matches ++ [{| m_type := type_content;
                             m_context := match_context content m_start m_end;
                             m_position := Some m_start |}])
  end.

(** The matches of one document. *)
Definition doc_matches (query : str) (case_sensitive : bool)
    (doc_name content : str) : list Match :=
  let eqc := chr_eq ieq case_sensitive in
  let matches :=
    if re_search eqc query doc_name
    then [{| m_type := type_filename; m_context := doc_name; m_position := None |}]
    else [] in
  match content with
  | [] => matches
  | _ => content_loop content (finditer eqc query content) matches
  end.

(** The body of the loop over [docs_cache.items()]. *)
Definition doc_result (self : LocalDocsManager) (query : str)
    (case_sensitive : bool) (item : str * DocInfo) : option DocResult :=
  let '(composite_key, doc_info) := item in
  let doc_name := doc_name_of_key composite_key in
  let content := default [] (dict_get composite_key (content_cache self)) in
  let matches := doc_matches query case_sensitive doc_name content in
  match matches with
  | [] => None
  | _ => Some {| document := doc_name;
                 xcode_version := info_xcode_source doc_info;
                 matches := matches;
                 total_matches := len matches |}
  end.

(** The list [results] before it is sorted: one element per document with
    a match, in the order of the index. *)
Definition unsorted_results (self : LocalDocsManager)
    (query : str) (case_sensitive : bool) : list DocResult :=
  omap (doc_result self query case_sensitive) (docs_cache self).

(** [search] *)
Definition search (self : LocalDocsManager) (query : str)
    (case_sensitive : bool) : Response :=
  let results := unsorted_results self query case_sensitive in
  let results := sort_by relevance_key relevance_leb results in
  {| query := query;
     total_results := len results;
     results := slice results 0 20 |}.

(** *** [get_document] *)

(** The truth value of an optional string argument. *)
Definition truthy (s : option str) : bool :=
  match s with
  | Some (_ :: _) => true
  | _ => false
  end.

(** The loop of [get_document]; [None] when it ends without [return], and
    [Some (Raise e)] when a call in it raises. *)
Fixpoint get_document_loop (fs : FileSystem) (self : LocalDocsManager)
    (items : list (str * DocInfo)) (name : str) (version : option str)
    : option (result str) :=
  match items with
  | [] => None
  | (composite_key, doc_info) :: items' =>
      let doc_name := doc_name_of_key composite_key in
      let xcode_source := info_xcode_source doc_info in
      if bool_decide (doc_name = name) || bool_decide (info_name doc_info = name)
      then
        if truthy version && negb (bool_decide (version = Some xcode_source))
        then get_document_loop fs self items' name version
        else
          match default [] (dict_get composite_key (content_cache self)) with
          | (_ :: _) as content => Some (Ok content)
          | [] =>
              let doc_path := pathlib.Path_of_str (info_path doc_info) in
              match fs_exists fs doc_path with
              | Raise e => Some (Raise e)
              | Ok true => Some (fs_read_text fs doc_path)
              | Ok false => get_document_loop fs self items' name version
              end
          end
      else get_document_loop fs self items' name version
  end.

Definition not_found_message (name : str) (version : option str) : str :=
  lit "Document '" ++ name ++ lit "' not found"
  ++ match version with
     | Some ((_ :: _) as v) => lit " in " ++ v
     | _ => []
     end.

Definition get_document (fs : FileSystem) (self : LocalDocsManager)
    (name : str) (version : option str) : result str :=
  match get_document_loop fs self (docs_cache self) name version with
  | Some r => r
  | None => Ok (not_found_message name version)
  end.

(** *** [list_documents] *)

(** [sorted(set(versions))] *)
Definition sorted_set (versions : list str) : list str :=
  sort_by id str_leb (elements (list_to_set versions : gset str)).

(** The list [versions] that the loop of [_get_versions_for_doc]
    collects. *)
Definition collect_versions (self : LocalDocsManager) (doc_name : str)
    : list str :=
  omap (fun item : str * DocInfo =>
          if bool_decide (info_name item.2 = doc_name)
          then Some (info_xcode_source item.2) else None)
       (docs_cache self).

Definition _get_versions_for_doc (self : LocalDocsManager) (doc_name : str)
    : list str :=
  sorted_set (collect_versions self doc_name).

(** [filter_str and filter_str.lower() not in doc_name.lower()] *)
Definition filtered_out (filter_str : option str) (doc_name : str) : bool :=
  match filter_str with
  | Some ((_ :: _) as f) => negb (contains (lower f) (lower doc_name))
  | _ => false
  end.

(** The loop of [list_documents], threading [documents] and
    [seen_names]. *)
Fixpoint list_documents_loop (self : LocalDocsManager)
    (filter_str : option str) (items : list (str * DocInfo))
    (documents : list Summary) (seen_names : gset str) : list Summary :=
  match items with
  | [] => documents
  | (composite_key, doc_info) :: items' =>
      let doc_name := info_name doc_info in
      if bool_decide (doc_name ∈ seen_names)
      then list_documents_loop self filter_str items' documents seen_names
      else if filtered_out filter_str doc_name
      then list_documents_loop self filter_str items' documents seen_names
      else list_documents_loop self filter_str items'
             (documents ++ [{| sum_name := doc_name;
                               sum_topics := info_topics doc_info;
                               sum_size := info_size doc_info;
                               xcode_versions := _get_versions_for_doc self doc_name |}])
             ({[doc_name]} ∪ seen_names)
  end.

Definition list_documents (self : LocalDocsManager)
    (filter_str : option str) : list Summary :=
  sort_by sum_name str_leb
    (list_documents_loop self filter_str (docs_cache self) [] ∅).
End Manager.

(** ** UTF-8, for the relation between character and byte offsets *)

(** The bytes of one code point. *)
Definition utf8_encode_char (c : char) : list N :=
  (if c <? 128 then [c]
   else if c <? 2048 then
     [N.lor 192 (N.shiftr c 6); N.lor 128 (N.land c 63)]
   else if c <? 65536 then
     [N.lor 224 (N.shiftr c 12); N.lor 128 (N.land (N.shiftr c 6) 63);
      N.lor 128 (N.land c 63)]
   else
     [N.lor 240 (N.shiftr c 18); N.lor 128 (N.land (N.shiftr c 12) 63);
      N.lor 128 (N.land (N.shiftr c 6) 63); N.lor 128 (N.land c 63)])%N.

(** [s.encode('utf-8')] *)
Definition utf8_encode (s : str) : list N := flat_map utf8_encode_char s.


(** ** File systems given by a table, for concrete runs *)

(** The applications under [/Applications] (their names are taken to match
    [Xcode*.app]), each with the files of its documentation folder: a file
    name and what reading it gives. *)
Abbreviation Apps := (list (str * list (str * result str))).

Definition app_doc_path (app : str) : Path :=
  pathlib.joinpath (Config.APPLICATIONS_DIR ++ [app]) Config.DOC_SUBPATH.

Definition app_files (app : str * list (str * result str))
    : list (Path * result str) :=
  map (fun f : str * result str => (app_doc_path app.1 ++ [f.1], f.2)) app.2.

Definition apps_fs (apps : Apps) : FileSystem :=
  let files : list (Path * result str) := flat_map app_files apps in
  let dirs : list Path :=
    Config.APPLICATIONS_DIR :: map (fun a : str * _ => app_doc_path a.1) apps in
  {| fs_exists p :=
       Ok (bool_decide (p ∈ dirs) || bool_decide (p ∈ files.*1));
     fs_is_dir p := Ok (bool_decide (p ∈ dirs));
     fs_glob p pattern :=
       Ok (if bool_decide (p = Config.APPLICATIONS_DIR) then
             if bool_decide (pattern = lit "Xcode*.app")
             then map (fun a : str * _ => Config.APPLICATIONS_DIR ++ [a.1]) apps
             else if bool_decide (pattern = lit "Xcode.app")
             then map (fun a : str * _ => Config.APPLICATIONS_DIR ++ [a.1])
                    (filter (fun a : str * _ => a.1 = lit "Xcode.app") apps)
             else []
           else
             flat_map (fun a : str * _ =>
               if bool_decide (p = app_doc_path a.1)
                  && bool_decide (pattern = lit "*.md")
               then (app_files a).*1 else []) apps);
     fs_read_text p :=
       match list_find (fun f : Path * _ => f.1 = p) files with
       | Some (_, f) => f.2
       | None => Raise (OSError (lit "No such file"))
       end;
     fs_stat_size p :=
       match list_find (fun f : Path * _ => f.1 = p) files with
       | Some (_, (_, Ok text)) => Ok (len (utf8_encode text))
       | Some (_, (_, Raise e)) => Ok 0
       | None => Raise (OSError (lit "No such file"))
       end |}.

(** The same file system under the limit of 255 bytes on a file name: the
    system call on a path with a longer component fails, and the call of
    [pathlib] raises the [OSError] "File name too long". *)
Definition name_too_long (p : Path) : bool :=
  existsb (fun part => 255 <? len (utf8_encode part)) p.

Definition file_name_too_long : exn := OSError (lit "File name too long").

Definition with_name_max (fs : FileSystem) : FileSystem :=
  {| fs_exists p :=
       if name_too_long p then Raise file_name_too_long else fs_exists fs p;
     fs_is_dir p :=
       if name_too_long p then Raise file_name_too_long else fs_is_dir fs p;
     fs_glob p pattern :=
       if name_too_long p then Raise file_name_too_long
       else fs_glob fs p pattern;
     fs_read_text p :=
       if name_too_long p then Raise file_name_too_long
       else fs_read_text fs p;
     fs_stat_size p :=
       if name_too_long p then Raise file_name_too_long
       else fs_stat_size fs p |}.

(** [str.lower()] for concrete runs: ASCII case folding. *)
Definition ascii_lower_str (s : str) : str := map ascii_lower s.

(** ** Concrete corpora *)

Definition empty_manager : LocalDocsManager :=
  {| content_cache := []; docs_cache := []; doc_paths := [] |}.

(** The manager that start-up builds over the applications [apps]. *)
Definition manager_of (apps : Apps) : LocalDocsManager :=
  match new_manager markdown_headers (apps_fs apps) None with
  | Ok m => m
  | Raise _ => empty_manager
  end.

(** Two installations sharing the stem [Doc]; one file cannot be decoded. *)
Definition apps_two : Apps :=
  [(lit "Xcode-A.app",
    [(lit "Doc.md", Ok (lit "alpha doc"));
     (lit "Bad.md", Raise (UnicodeDecodeError (lit "invalid start byte")))]);
   (lit "Xcode-B.app",
    [(lit "Doc.md", Ok (lit "beta"));
     (lit "SwiftUI.md", Ok (lit "a doc about doc and doc"))])].

(** Two installations sharing the stem [W], with names that blur the
    separator: [Xcode.app] holds [Y.app::Z.md], and [Xcode.app::Y.app]
    holds [Z.md]. *)
Definition apps_collide : Apps :=
  [(lit "Xcode.app",
    [(lit "Y.app::Z.md", Ok (lit "first")); (lit "W.md", Ok (lit "w one"))]);
   (lit "Xcode.app::Y.app",
    [(lit "Z.md", Ok (lit "second")); (lit "W.md", Ok (lit "w two"))])].


(** At start-up the [Doc.md] of the first installation is an empty file;
    later that file is removed. *)
Definition apps_empty_first : Apps :=
  [(lit "Xcode-A.app", [(lit "Doc.md", Ok [])]);
   (lit "Xcode-B.app", [(lit "Doc.md", Ok (lit "text of B"))])].

Definition apps_first_removed : Apps :=
  [(lit "Xcode-A.app", []);
   (lit "Xcode-B.app", [(lit "Doc.md", Ok (lit "text of B"))])].

(** An index holding one document whose text is ["abcXYZdef"]. *)
Definition manager_abc : LocalDocsManager :=
  manager_of [(lit "Xcode.app", [(lit "Doc.md", Ok (lit "abcXYZdef"))])].

(** Twenty documents [n01] ... [n20] that mention ["glass"], twice when the
    number is even and once when it is odd, followed by a document named
    [glass] that does not mention it. *)
Definition apps_many : Apps :=
  [(lit "Xcode.app",
    map (fun i : nat =>
           (lit "n" ++ [N.of_nat (48 + i / 10); N.of_nat (48 + i mod 10)]
              ++ lit ".md",
            Ok (if Nat.even i then lit "glass on glass" else lit "glass")))
        (seq 1 20)
    ++ [(lit "glass.md", Ok (lit "nothing"))])].

(** A document with headings of several shapes: a first-level heading; a
    ['#'] inside a line; a heading after a tab, with spaces and a carriage
    return at its end; four ['#']; and three ['#'] on a line of their own,
    followed by an empty line. *)
Definition apps_headed : Apps :=
  [(lit "Xcode.app",
    [(lit "Guide.md",
      Ok (lit "# Liquid Glass" ++ [10%N]
          ++ lit "Intro #not a heading" ++ [10%N]
          ++ lit "##" ++ [9%N] ++ lit "Adopting  " ++ [13%N; 10%N]
          ++ lit "#### too deep" ++ [10%N]
          ++ lit "###" ++ [10%N; 10%N]
          ++ lit "next line"))])].

(** An override whose only component has 300 characters. *)
Definition long_override : str := 47%N :: replicate 300 97%N.

(** ** Notions used to state the properties *)

(** The override of the environment, as [if custom_path:] reads it: a
    value that is set and not empty. *)
Definition override (environ : option str) : option str :=
  match environ with
  | Some ((_ :: _) as p) => Some p
  | _ => None
  end.

(** No candidate under [/Applications] qualifies: the listing of every
    pattern returns, and every application listed is examined and does not
    qualify. *)
Definition no_candidate (fs : FileSystem) : Prop :=
  forall pattern, pattern ∈ Config.XCODE_PATTERNS ->
    exists apps,
      fs_glob fs Config.APPLICATIONS_DIR pattern = Ok apps /\
      forall xcode_app, xcode_app ∈ apps ->
        Config.qualifies fs (pathlib.joinpath xcode_app Config.DOC_SUBPATH)
        = Ok false.

(** A query that discovery makes raises [e]: the listing of
    [/Applications] for a pattern, or the examination of an application that
    was listed. *)
Definition discovery_raises (fs : FileSystem) (e : exn) : Prop :=
  exists pattern, pattern ∈ Config.XCODE_PATTERNS /\
    (fs_glob fs Config.APPLICATIONS_DIR pattern = Raise e \/
     exists apps xcode_app,
       fs_glob fs Config.APPLICATIONS_DIR pattern = Ok apps /\
       xcode_app ∈ apps /\
       Config.qualifies fs (pathlib.joinpath xcode_app Config.DOC_SUBPATH)
       = Raise e).

(** A query that root resolution makes raises [e]: [exists] on the
    override, or a query of discovery when there is no override. *)
Definition query_raises (fs : FileSystem) (environ : option str) (e : exn)
    : Prop :=
  match override environ with
  | Some p => fs_exists fs (pathlib.Path_of_str p) = Raise e
  | None => discovery_raises fs e
  end.

(** The documentation folders of the applications of a list that qualify,
    in order. *)
Definition qualifying (fs : FileSystem) (apps : list Path) : list Path :=
  flat_map (fun xcode_app =>
              let doc_path := pathlib.joinpath xcode_app Config.DOC_SUBPATH in
              match Config.qualifies fs doc_path with
              | Ok true => [doc_path]
              | _ => []
              end) apps.

(** The markdown files of a folder as [glob] lists them; none when the
    listing raises. *)
Definition md_files (fs : FileSystem) (doc_path : Path) : list Path :=
  match fs_glob fs doc_path (lit "*.md") with
  | Ok files => files
  | Raise _ => []
  end.

(** The markdown files of every folder of a list can be listed. *)
Definition listable (fs : FileSystem) (paths : list Path) : Prop :=
  Forall (fun p => exists files, fs_glob fs p (lit "*.md") = Ok files) paths.

(** A file is indexed when both its text and its size can be read. *)
Definition loadable (fs : FileSystem) (md_file : Path) : bool :=
  match fs_read_text fs md_file, fs_stat_size fs md_file with
  | Ok _, Ok _ => true
  | _, _ => false
  end.

(** The (installation tag, stem) pairs of the documents of one folder and of
    a list of folders, in the order of the build. *)
Definition folder_pairs (fs : FileSystem) (doc_path : Path)
    : list (str * str) :=
  omap (fun md_file =>
          if loadable fs md_file
          then Some (Config.get_xcode_name_from_path doc_path,
                     pathlib.stem md_file)
          else None)
       (md_files fs doc_path).

Definition loaded_pairs (fs : FileSystem) (paths : list Path)
    : list (str * str) :=
  flat_map (folder_pairs fs) paths.

(** "Exactly one entry per distinct pair": the keys of the index do not
    repeat, there are as many entries as distinct pairs, and the entry under
    the key of a pair carries the stem and the tag of that pair. *)
Definition one_entry_per_pair (docs : list (str * DocInfo))
    (pairs : list (str * str)) : Prop :=
  NoDup (dict_keys docs) /\
  length docs = length (remove_dups pairs) /\
  forall tag stem, (tag, stem) ∈ pairs ->
    exists info, dict_get (composite_key tag stem) docs = Some info /\
      info_name info = stem /\ info_xcode_source info = tag.

(** A tag that cannot blur the separator: it holds no ["::"] and does not
    end with [':']. *)
Definition tag_ok (tag : str) : Prop :=
  after_sep 58%N tag = None /\ last tag <> Some 58%N.

(** The invariant of the build, relative to the pairs indexed so far. *)
Definition index_inv (docs : list (str * DocInfo))
    (pairs : list (str * str)) : Prop :=
  NoDup (dict_keys docs) /\
  (forall k info, (k, info) ∈ docs ->
     exists t s, (t, s) ∈ pairs /\ k = composite_key t s /\
       info_name info = s /\ info_xcode_source info = t) /\
  (forall t s, (t, s) ∈ pairs -> composite_key t s ∈ dict_keys docs).

(** The invariant of the loop of [list_documents]. *)
Definition listing_inv (self : LocalDocsManager) (documents : list Summary)
    (seen_names : gset str) : Prop :=
  (forall n, n ∈ seen_names <-> n ∈ map sum_name documents) /\
  NoDup (map sum_name documents) /\
  (forall e, e ∈ documents ->
     xcode_versions e = _get_versions_for_doc self (sum_name e)).

(** The test [doc_name == name or doc_info["name"] == name] of the loop. *)
Definition matches_name (name : str) (item : str * DocInfo) : bool :=
  bool_decide (doc_name_of_key item.1 = name)
  || bool_decide (info_name item.2 = name).

(** ** [local_docs.py]: [get_xcode_versions] *)

(** [sorted(versions)] for the set of the [xcode_source] of all entries. *)
Definition get_xcode_versions (self : LocalDocsManager) : list str :=
  sorted_set (map (fun item : str * DocInfo => info_xcode_source item.2)
                  (docs_cache self)).

(** ** [suggestions.py]: class [SuggestionEngine] *)

(** A suggestion dictionary: ["tool"] and ["reason"]. *)
Record Suggestion := {
  sg_tool : str;
  sg_reason : str;
}.

(** The dictionary [context] that [get_suggestions] receives. *)
Record SuggestionContext := {
  current_tool : str;
  ctx_query : str;
  results_count : Z;
}.

(** [s.split(c)] for a separator of one character. *)
Fixpoint split_char (c : char) (cur : str) (s : str) : list str :=
  match s with
  | [] => [cur]
  | a :: s' =>
      if (a =? c)%N then cur :: split_char c [] s'
      else split_char c (cur ++ [a]) s'
  end.

(** [re.search(pattern, text)] as a truth value, for the patterns of the
    table [keywords]: literal words separated by ['|']. Such a pattern is
    found exactly when one of its words occurs in the text. *)
Definition re_search_words (pattern text : str) : bool :=
  existsb (fun word => contains word text) (split_char 124%N [] pattern).

Module SuggestionEngine.
Definition fallbacks : list (str * list str) :=
  [(lit "search_docs", [lit "search_apple_online"; lit "search_wwdc_notes"]);
   (lit "search_apple_online", [lit "search_wwdc_notes"; lit "search_swift_repos"]);
   (lit "search_swift_evolution", [lit "search_swift_repos"; lit "fetch_github_file"]);
   (lit "search_swift_repos", [lit "fetch_github_file"]);
   (lit "search_wwdc_notes", [lit "search_swift_repos"]);
   (lit "search_human_interface_guidelines",
    [lit "search_docs"; lit "search_apple_online"])].

Definition keywords : list (str * list str) :=
  [(lit "performance|optimize|fast",
    [lit "search_wwdc_notes"; lit "search_swift_repos"]);
   (lit "how|implement|build",
    [lit "search_swift_repos"; lit "search_wwdc_notes"]);
   (lit "why|design|rationale", [lit "search_swift_evolution"]);
   (lit "class|struct|protocol",
    [lit "fetch_apple_documentation"; lit "search_apple_online"]);
   (lit "design|ui|ux|interface|button|navigation|layout|color|typography",
    [lit "search_human_interface_guidelines"])].

Definition reasons : list (str * str) :=
  [(lit "search_apple_online", lit "Search Apple's online documentation");
   (lit "search_wwdc_notes",
    lit "Check WWDC sessions for detailed explanations");
   (lit "search_swift_repos", lit "Find implementation examples");
   (lit "fetch_github_file", lit "Fetch specific source files");
   (lit "search_swift_evolution", lit "Understand feature design rationale");
   (lit "fetch_apple_documentation", lit "Get detailed API documentation");
   (lit "search_human_interface_guidelines",
    lit "Find design patterns and UI best practices")].

(** [reasons.get(tool, f"Try {tool}")] *)
Definition _get_reason (tool : str) : str :=
  default (lit "Try " ++ tool) (dict_get tool reasons).

Definition suggest (tool : str) : Suggestion :=
  {| sg_tool := tool; sg_reason := _get_reason tool |}.

(** [any(s["tool"] == tool for s in suggestions)] *)
Definition already_suggested (tool : str) (suggestions : list Suggestion)
    : bool :=
  existsb (fun s => bool_decide (sg_tool s = tool)) suggestions.

(** The loop over the tools of one keyword. The flag tells that the loop
    left the function through [return suggestions[:3]]. *)
Fixpoint tools_loop (current : str) (tools : list str)
    (suggestions : list Suggestion) : list Suggestion * bool :=
  match tools with
  | [] => (suggestions, false)
  | tool :: tools' =>
      if negb (bool_decide (tool = current))
         && negb (already_suggested tool suggestions)
      then
        let suggestions := suggestions ++ [suggest tool] in
        if 3 <=? len suggestions then (slice suggestions 0 3, true)
        else tools_loop current tools' suggestions
      else tools_loop current tools' suggestions
  end.

(** The loop over [self.keywords.items()], and the final
    [return suggestions[:3]]. *)
Fixpoint keywords_loop (current query : str) (table : list (str * list str))
    (suggestions : list Suggestion) : list Suggestion :=
  match table with
  | [] => slice suggestions 0 3
  | (pattern, tools) :: table' =>
      if re_search_words pattern query
      then
        let '(suggestions, returned) := tools_loop current tools suggestions in
        if returned then suggestions
        else keywords_loop current query table' suggestions
      else keywords_loop current query table' suggestions
  end.

(** The suggestions for no results: the first two fallback tools. *)
Definition fallback_suggestions (context : SuggestionContext)
    : list Suggestion :=
  if bool_decide (results_count context = 0) then
    match dict_get (current_tool context) fallbacks with
    | Some tools => map suggest (slice tools 0 2)
    | None => []
    end
  else [].

(** [get_suggestions]; [lower] is [str.lower()]. *)
Definition get_suggestions (lower : str -> str) (context : SuggestionContext)
    : list Suggestion :=
  keywords_loop (current_tool context) (lower (ctx_query context)) keywords
    (fallback_suggestions context).
End SuggestionEngine.

(** ** [tools.py]: the tools over the local documentation *)

(** What a search tool returns: an error dictionary, or the response of the
    search, to which [add_suggestions] adds the key ["suggestions"] when
    there are some. *)
Inductive SearchToolResult :=
  | tool_error (error message : str)
  | tool_response (response : Response) (suggestions : option (list Suggestion)).

Module tools.
(** [add_suggestions] for the response of [search]: the count is
    [results.get("total_results", ...)], which the response has. *)
Definition add_suggestions (lower : str -> str) (results : Response)
    (tool_name query : str) : SearchToolResult :=
  let suggestions :=
    SuggestionEngine.get_suggestions lower
      {| current_tool := tool_name;
         ctx_query := query;
         results_count := total_results results |} in
  match suggestions with
  | [] => tool_response results None
  | _ => tool_response results (Some suggestions)
  end.

(** [search_docs]; [local_docs] is the manager of the module. *)
Definition search_docs (ieq : char -> char -> bool) (lower : str -> str)
    (local_docs : LocalDocsManager) (query : str) (case_sensitive : bool)
    : SearchToolResult :=
  if bool_decide (query = []) || bool_decide (strip query = []) then
    tool_error (lit "Empty query")
      (lit "Please provide a non-empty search term")
  else if 500 <? len query then
    tool_error (lit "Query too long")
      (lit "Maximum query length is 500 characters")
  else
    let results := search ieq local_docs (strip query) case_sensitive in
    add_suggestions lower results (lit "search_docs") query.

Definition invalid_name_message : str :=
  lit "Error: Invalid document name. Use document name only, without path separators.".
Definition name_too_long_message : str :=
  lit "Error: Document name too long (max 255 characters).".

(** [get_document] *)
Definition get_document (fs : FileSystem) (local_docs : LocalDocsManager)
    (name : str) (version : option str) : result str :=
  if bool_decide (name = []) || contains (lit "..") name
     || contains (lit "/") name || contains [92%N] name
  then Ok invalid_name_message
  else if 255 <? len name then Ok name_too_long_message
  else get_document fs local_docs name version.
End tools.

(** ** Notions used to state further properties *)

(** The two kinds of match dictionaries that [search] builds. *)
Definition filename_match (doc_name : str) : Match :=
  {| m_type := type_filename; m_context := doc_name; m_position := None |}.

Definition content_match (text : str) (span : Z * Z) : Match :=
  {| m_type := type_content;
     m_context := match_context text span.1 span.2;
     m_position := Some span.1 |}.

(** The query occurs in the name of an index entry or in its cached text,
    when that text is not empty. *)
Definition query_occurs (ieq : char -> char -> bool)
    (self : LocalDocsManager) (q : str) (cs : bool) (item : str * DocInfo)
    : bool :=
  let text := default [] (dict_get item.1 (content_cache self)) in
  re_search (chr_eq ieq cs) q (doc_name_of_key item.1)
  || (negb (bool_decide (text = [])) && re_search (chr_eq ieq cs) q text).

(** A context is normalised: it neither starts nor ends with white space,
    holds no two adjacent white-space characters, and its only white-space
    character is the space. *)
Fixpoint no_adjacent_space (s : str) : Prop :=
  match s with
  | a :: ((b :: _) as s') =>
      ~ (isspace a = true /\ isspace b = true) /\ no_adjacent_space s'
  | _ => True
  end.

Definition starts_with_space (s : str) : bool :=
  match s with
  | c :: _ => isspace c
  | [] => false
  end.

Definition ws_normalized (s : str) : Prop :=
  starts_with_space s = false /\
  starts_with_space (reverse s) = false /\
  no_adjacent_space s /\
  Forall (fun c => isspace c = true -> c = 32%N) s.

(** An index entry answers a request for [name] and [version]: its name
    matches, and its installation is the requested one when one is
    requested. *)
Definition serves (name : str) (version : option str)
    (item : str * DocInfo) : bool :=
  matches_name name item
  && (negb (truthy version)
      || bool_decide (version = Some (info_xcode_source item.2))).

(** What indexing one file stores: the key, the metadata and the text, when
    the text and the size can both be read. *)
Definition file_load (findall_headers : str -> list str) (fs : FileSystem)
    (xcode_name : str) (md_file : Path) : option (str * DocInfo * str) :=
  match fs_read_text fs md_file, fs_stat_size fs md_file with
  | Ok text, Ok st_size =>
      Some (composite_key xcode_name (pathlib.stem md_file),
            {| info_path := pathlib.to_str md_file;
               info_name := pathlib.stem md_file;
               info_size := st_size;
               info_xcode_source := xcode_name;
               info_topics := slice (findall_headers (slice text 0 500)) 0 5 |},
            text)
  | _, _ => None
  end.

(** The stores of a whole build, in order. *)
Definition folder_loads (findall_headers : str -> list str) (fs : FileSystem)
    (doc_path : Path) : list (str * DocInfo * str) :=
  omap (file_load findall_headers fs
          (Config.get_xcode_name_from_path doc_path))
       (md_files fs doc_path).

Definition corpus_loads (findall_headers : str -> list str) (fs : FileSystem)
    (paths : list Path) : list (str * DocInfo * str) :=
  flat_map (folder_loads findall_headers fs) paths.

Definition apply_load (self : LocalDocsManager) (ld : str * DocInfo * str)
    : LocalDocsManager :=
  {| content_cache := dict_set ld.1.1 ld.2 (content_cache self);
     docs_cache := dict_set ld.1.1 ld.1.2 (docs_cache self);
     doc_paths := doc_paths self |}.

(** What the body of the outer loop of [initialize] does to the manager
    when the folder can be listed. *)
Definition index_folder (findall_headers : str -> list str)
    (fs : FileSystem) (self : LocalDocsManager) (doc_path : Path)
    : LocalDocsManager :=
  foldl (try_load_file findall_headers fs
           (Config.get_xcode_name_from_path doc_path))
    self (md_files fs doc_path).

(** When start-up returns: the root resolution returns roots that can all
    be listed, or raises a [ValueError]. *)
Definition build_completes (fs : FileSystem) (environ : option str) : Prop :=
  match Config.get_documentation_paths fs environ with
  | Ok roots => listable fs roots
  | Raise (ValueError _) => True
  | Raise _ => False
  end.

(** [t] is a heading of [text]: the rest of a line after one to three
    ['#'] at the start of the line and the white space that follows them.
    It is not empty and holds no line feed; the white space can hold line
    feeds. *)
Definition is_heading (text : str) (t : str) : Prop :=
  exists before hashes spaces rest,
    text = before ++ hashes ++ spaces ++ t ++ rest /\
    (before = [] \/ last before = Some 10%N) /\
    (1 <= length hashes <= 3)%nat /\
    Forall (fun c => c = 35%N) hashes /\
    spaces <> [] /\
    Forall (fun c => isspace c = true) spaces /\
    t <> [] /\
    Forall (fun c => c <> 10%N) t /\
    (rest = [] \/ head rest = Some 10%N).

(** The value last assigned to a key by a sequence of assignments. *)
Fixpoint last_write {V} (k : str) (writes : list (str * V)) : option V :=
  match writes with
  | [] => None
  | (k', v) :: writes' =>
      match last_write k writes' with
      | Some w => Some w
      | None => if decide (k = k') then Some v else None
      end
  end.

(** A list of suggestions is in order for the tool [current]: no tool is
    suggested twice, the current tool is not suggested, and every suggestion
    carries the reason of its tool. *)
Definition suggestions_ok (current : str) (suggestions : list Suggestion)
    : Prop :=
  NoDup (map sg_tool suggestions) /\
  Forall (fun s => sg_tool s <> current /\
                   sg_reason s = SuggestionEngine._get_reason (sg_tool s))
    suggestions.

(** A name that the tool [get_document] lets through. *)
Definition valid_name (name : str) : Prop :=
  name <> [] /\ contains (lit "..") name = false /\
  contains (lit "/") name = false /\ contains [92%N] name = false /\
  len name <= 255.

(** A document with line breaks, a tab and runs of spaces around the word
    [glass]. *)
Definition apps_spaces : Apps :=
  [(lit "Xcode.app",
    [(lit "Notes.md",
      Ok (lit "Liquid" ++ [10%N; 10%N; 9%N] ++ lit "glass   design"
          ++ [13%N; 10%N] ++ lit "  notes "))])].

(** * Properties *)

(** ** The stable sort *)
Section SortFacts.
Context {A K : Type} (key : A -> K) (leb : K -> K -> bool).
Hypothesis leb_total : forall a b, leb a b = false -> leb b a = true.
Hypothesis leb_trans :
  forall a b c, leb a b = true -> leb b c = true -> leb a c = true.

Local Abbreviation le_key := (fun x y => leb (key x) (key y) = true).

Lemma insert_by_perm x l : insert_by key leb x l ≡ₚ x :: l.
Proof.
  induction l as [|y l IH]; simpl; [done|].
  destruct (leb (key x) (key y)); [done|].
  rewrite IH. apply Permutation_swap.
Qed.

Lemma sort_by_perm l : sort_by key leb l ≡ₚ l.
Proof.
  induction l as [|x l IH]; simpl; [done|].
  rewrite insert_by_perm. by rewrite IH.
Qed.

Lemma insert_by_sorted x l :
  StronglySorted le_key l -> StronglySorted le_key (insert_by key leb x l).
Proof.
  induction 1 as [|y l Hs IH Hy]; simpl.
  - repeat constructor.
  - destruct (leb (key x) (key y)) eqn:E.
    + constructor; [by constructor|].
      constructor; [done|].
      eapply Forall_impl; [exact Hy|]. simpl. eauto.
    + constructor; [done|].
      rewrite insert_by_perm. constructor; [|done].
      by apply leb_total.
Qed.

Lemma sort_by_sorted l : StronglySorted le_key (sort_by key leb l).
Proof.
  induction l as [|x l IH]; simpl; [constructor|].
  by apply insert_by_sorted.
Qed.

(** Stability: the elements of one class of mutually comparable keys keep
    their order. *)
Lemma insert_by_filter (P : A -> Prop) `{!forall x, Decision (P x)} x l :
  (forall y, P x -> P y -> leb (key x) (key y) = true) ->
  filter P (insert_by key leb x l) = filter P (x :: l).
Proof.
  intros HP. induction l as [|y l IH]; simpl; [done|].
  destruct (leb (key x) (key y)) eqn:E; [done|].
  rewrite filter_cons, IH, !filter_cons.
  destruct (decide (P x)) as [Hx|Hx]; [|done].
  destruct (decide (P y)) as [Hy|Hy]; [|done].
  rewrite (HP y Hx Hy) in E. done.
Qed.

Lemma sort_by_stable (P : A -> Prop) `{!forall x, Decision (P x)} l :
  (forall x y, P x -> P y -> leb (key x) (key y) = true) ->
  filter P (sort_by key leb l) = filter P l.
Proof.
  intros HP. induction l as [|x l IH]; simpl; [done|].
  rewrite insert_by_filter by eauto.
  by rewrite !filter_cons, IH.
Qed.

Lemma sort_by_lookup_le l i j a b :
  (i < j)%nat ->
  sort_by key leb l !! i = Some a -> sort_by key leb l !! j = Some b ->
  leb (key a) (key b) = true.
Proof.
  intros Hij Ha Hb. pose proof (sort_by_sorted l) as Hs.
  revert i j Hij Ha Hb. induction Hs as [|x s Hs IH Hx]; intros i j Hij Ha Hb.
  - by rewrite lookup_nil in Ha.
  - destruct j as [|j]; [lia|]. simpl in Hb. destruct i as [|i].
    + simpl in Ha. injection Ha as ->.
      rewrite Forall_forall in Hx. apply Hx.
      by eapply list_elem_of_lookup_2.
    + simpl in Ha. eapply (IH i j); [lia|done..].
Qed.
End SortFacts.

Lemma filter_take_prefix {A} (P : A -> Prop) `{!forall x, Decision (P x)}
    (n : nat) (l : list A) :
  filter P (take n l) `prefix_of` filter P l.
Proof.
  exists (filter P (drop n l)).
  by rewrite <- filter_app, take_drop.
Qed.

Lemma slice_0 {A} (l : list A) (n : Z) :
  0 <= n -> slice l 0 n = take (Z.to_nat n) l.
Proof. intros Hn. unfold slice. simpl. by rewrite Z.sub_0_r. Qed.

Lemma len_take_le {A} (l : list A) (n : nat) : len (take n l) <= Z.of_nat n.
Proof. unfold len. rewrite length_take. lia. Qed.

(** ** Ranking and caps of [search] *)

Lemma relevance_leb_total k1 k2 :
  relevance_leb k1 k2 = false -> relevance_leb k2 k1 = true.
Proof.
  destruct k1 as [[] x], k2 as [[] y]; unfold relevance_leb, bool_lt; simpl;
    try done; rewrite ?bool_decide_eq_true_2 by done; simpl; lia.
Qed.

Lemma relevance_leb_trans k1 k2 k3 :
  relevance_leb k1 k2 = true -> relevance_leb k2 k3 = true ->
  relevance_leb k1 k3 = true.
Proof.
  destruct k1 as [[] x], k2 as [[] y], k3 as [[] z];
    unfold relevance_leb, bool_lt; simpl; try done;
    rewrite ?bool_decide_eq_true_2 by done; simpl; lia.
Qed.

Lemma relevance_leb_spec (a b : DocResult) :
  relevance_leb (relevance_key a) (relevance_key b) = true ->
  (has_filename b = true -> has_filename a = true) /\
  (has_filename a = has_filename b -> total_matches b <= total_matches a).
Proof.
  unfold relevance_leb, relevance_key, bool_lt. simpl.
  destruct (has_filename a), (has_filename b); simpl; try done;
    rewrite ?bool_decide_eq_true_2 by done; simpl; intros; split; try done; lia.
Qed.

Section SearchFacts.
Variable ieq : char -> char -> bool.

Lemma content_loop_len content spans matches :
  len matches <= 5 ->
  len (content_loop content spans matches) <= 5.
Proof.
  revert matches. induction spans as [|[s e] spans IH]; intros ms Hms; simpl.
  - done.
  - destruct (5 <=? len ms) eqn:E; [done|].
    apply IH. apply Z.leb_gt in E. unfold len in *.
    rewrite length_app. simpl. lia.
Qed.

Lemma doc_matches_len q cs doc_name content :
  len (doc_matches ieq q cs doc_name content) <= 5.
Proof.
  unfold doc_matches.
  set (ms := if re_search _ _ _ then _ else _).
  assert (len ms <= 5) by (subst ms; destruct (re_search _ _ _); unfold len; simpl; lia).
  destruct content; [done|]. by apply content_loop_len.
Qed.

(** What [doc_result] stores. *)
Lemma doc_result_Some self q cs key info r :
  doc_result ieq self q cs (key, info) = Some r ->
  document r = doc_name_of_key key /\
  xcode_version r = info_xcode_source info /\
  matches r = doc_matches ieq q cs (doc_name_of_key key)
                (default [] (dict_get key (content_cache self))) /\
  total_matches r = len (matches r) /\
  matches r <> [].
Proof.
  unfold doc_result.
  destruct (doc_matches _ _ _ _ _) eqn:E; [done|].
  intros [= <-]. simpl. done.
Qed.

Lemma unsorted_results_elem self q cs r :
  r ∈ unsorted_results ieq self q cs ->
  exists key info, (key, info) ∈ docs_cache self /\
    doc_result ieq self q cs (key, info) = Some r.
Proof.
  unfold unsorted_results. rewrite list_elem_of_omap.
  intros [[key info] [Hin Hr]]. eauto.
Qed.

Lemma search_results_elem self q cs r :
  r ∈ results (search ieq self q cs) ->
  r ∈ unsorted_results ieq self q cs.
Proof.
  unfold search. simpl. rewrite slice_0 by lia.
  intros Hr. apply subseteq_take in Hr.
  by rewrite sort_by_perm in Hr.
Qed.

(** C1. The list of results that [search] returns is the first 20 elements
    of a ranking of all the documents that have a match. The ranking holds
    the same documents as the index enumerates them; in it a document without
    a filename match never precedes a document with one, whatever their
    numbers of matches; of two documents of the same group the earlier has
    at least as many matches; and the documents tied on both criteria are in
    the order in which the index enumerates them. *)
Theorem search_ranking (self : LocalDocsManager) (q : str) (cs : bool) :
  exists ranked,
    results (search ieq self q cs) = take 20 ranked /\
    ranked ≡ₚ unsorted_results ieq self q cs /\
    (forall i j a b,
       (i < j)%nat -> ranked !! i = Some a -> ranked !! j = Some b ->
       (has_filename b = true -> has_filename a = true) /\
       (has_filename a = has_filename b ->
        total_matches b <= total_matches a)) /\
    (forall (fn : bool) (n : Z),
       filter (fun r => has_filename r = fn /\ total_matches r = n) ranked =
       filter (fun r => has_filename r = fn /\ total_matches r = n)
         (unsorted_results ieq self q cs)).
Proof.
  exists (sort_by relevance_key relevance_leb (unsorted_results ieq self q cs)).
  split_and!.
  - unfold search. simpl. by rewrite slice_0 by lia.
  - apply sort_by_perm.
  - intros i j a b Hij Ha Hb.
    apply relevance_leb_spec.
    eapply sort_by_lookup_le;
      eauto using relevance_leb_total, relevance_leb_trans.
  - intros fn n.
    rewrite sort_by_stable; [done|].
    intros x y [Hx1 Hx2] [Hy1 Hy2].
    unfold relevance_leb, relevance_key. simpl.
    rewrite Hx1, Hy1, Hx2, Hy2, bool_decide_eq_true_2 by done.
    rewrite Z.leb_refl. apply orb_true_r.
Qed.

(** C2. No document of a search result carries more than 5 matches,
    filename and content matches together, and a response lists at most 20
    documents. *)
Theorem search_caps (self : LocalDocsManager) (q : str) (cs : bool) :
  Forall (fun r => len (matches r) <= 5 /\ total_matches r <= 5)
    (results (search ieq self q cs)) /\
  len (results (search ieq self q cs)) <= 20.
Proof.
  split.
  - apply Forall_forall. intros r Hr.
    apply search_results_elem, unsorted_results_elem in Hr
      as (key & info & _ & Hr).
    apply doc_result_Some in Hr as (_ & _ & Hm & Ht & _).
    rewrite Ht, Hm. split; apply doc_matches_len.
  - unfold search. simpl. rewrite slice_0 by lia.
    apply (len_take_le _ 20).
Qed.
End SearchFacts.


(** ** Root resolution *)

Lemma qualifies_true fs p :
  Config.qualifies fs p = Ok true <->
  fs_exists fs p = Ok true /\ fs_is_dir fs p = Ok true /\
  exists files, fs_glob fs p (lit "*.md") = Ok files /\ files <> [].
Proof.
  unfold Config.qualifies.
  destruct (fs_exists fs p) as [[|]|e]; simpl;
    [|split; [done|by intros [? _]]..].
  destruct (fs_is_dir fs p) as [[|]|e]; simpl;
    [|split; [done|by intros (_ & ? & _)]..].
  destruct (fs_glob fs p (lit "*.md")) as [files|e]; simpl;
    [|split; [done|by intros (_ & _ & ? & ? & _)]].
  split.
  - intros [= H]. apply bool_decide_eq_true in H. eauto.
  - intros (_ & _ & files' & [= <-] & Hne). by rewrite bool_decide_eq_true_2.
Qed.

Lemma elem_of_qualifying fs apps p :
  p ∈ qualifying fs apps <->
  exists xcode_app, xcode_app ∈ apps /\
    p = pathlib.joinpath xcode_app Config.DOC_SUBPATH /\
    Config.qualifies fs p = Ok true.
Proof.
  unfold qualifying. rewrite list_elem_of_In, in_flat_map. split.
  - intros (app & Ha & Hin). exists app. rewrite list_elem_of_In.
    destruct (Config.qualifies fs _) as [[|]|e] eqn:Hq; try done.
    destruct Hin as [<-|[]]. done.
  - intros (app & Ha & -> & Hq). exists app.
    split; [by apply list_elem_of_In|]. rewrite Hq. by left.
Qed.

(** The loop over the applications returns when every examination does,
    and raises what the first failing examination raises. *)
Lemma apps_loop_Ok fs apps acc l :
  Config.apps_loop fs apps acc = Ok l ->
  (forall xcode_app, xcode_app ∈ apps ->
     exists q, Config.qualifies fs
                 (pathlib.joinpath xcode_app Config.DOC_SUBPATH) = Ok q) /\
  l = acc ++ qualifying fs apps.
Proof.
  revert acc. induction apps as [|app apps IH]; intros acc; simpl.
  - intros [= <-]. split; [by intros ? ?%elem_of_nil|by rewrite app_nil_r].
  - destruct (Config.qualifies fs _) as [q|e] eqn:Hq; simpl; [|done].
    intros Hl. apply IH in Hl as [Hall ->]. split.
    + intros a [->|Ha]%elem_of_cons; eauto.
    + destruct q; [by rewrite <- app_assoc|done].
Qed.

Lemma apps_loop_Raise fs apps acc e :
  Config.apps_loop fs apps acc = Raise e ->
  exists xcode_app, xcode_app ∈ apps /\
    Config.qualifies fs (pathlib.joinpath xcode_app Config.DOC_SUBPATH)
    = Raise e.
Proof.
  revert acc. induction apps as [|app apps IH]; intros acc; simpl; [done|].
  destruct (Config.qualifies fs _) as [q|e'] eqn:Hq; simpl.
  - intros Hl. apply IH in Hl as (a & Ha & He). exists a.
    split; [by right|done].
  - intros [= ->]. exists app. split; [by left|done].
Qed.

Lemma apps_loop_returns fs apps acc :
  (forall xcode_app, xcode_app ∈ apps ->
     exists q, Config.qualifies fs
                 (pathlib.joinpath xcode_app Config.DOC_SUBPATH) = Ok q) ->
  exists l, Config.apps_loop fs apps acc = Ok l.
Proof.
  revert acc. induction apps as [|app apps IH]; intros acc Hall; simpl; [eauto|].
  destruct (Hall app) as [q ->]; [by left|]. simpl.
  apply IH. intros a Ha. apply Hall. by right.
Qed.

(** Every query of the patterns of a list returns. *)
Local Abbreviation queries_return fs patterns :=
  (forall pattern, pattern ∈ patterns ->
     exists apps,
       fs_glob fs Config.APPLICATIONS_DIR pattern = Ok apps /\
       forall xcode_app, xcode_app ∈ apps ->
         exists q, Config.qualifies fs
                     (pathlib.joinpath xcode_app Config.DOC_SUBPATH) = Ok q).

Lemma patterns_loop_Ok fs patterns acc l :
  Config.patterns_loop fs patterns acc = Ok l ->
  queries_return fs patterns /\
  forall p, p ∈ l <->
    p ∈ acc \/
    exists pattern apps, pattern ∈ patterns /\
      fs_glob fs Config.APPLICATIONS_DIR pattern = Ok apps /\
      p ∈ qualifying fs apps.
Proof.
  revert acc. induction patterns as [|pattern patterns IH]; intros acc; simpl.
  - intros [= <-]. split; [by intros ? ?%elem_of_nil|].
    intros p. split; [by left|]. intros [?|(? & ? & ?%elem_of_nil & _)]; done.
  - destruct (fs_glob fs Config.APPLICATIONS_DIR pattern) as [apps|e] eqn:Hg;
      simpl; [|done].
    destruct (Config.apps_loop fs apps acc) as [acc'|e] eqn:Ha; simpl; [|done].
    apply apps_loop_Ok in Ha as [Hq ->].
    intros Hl. apply IH in Hl as [Hall Hmem]. split.
    + intros pat [->|Hp]%elem_of_cons; eauto.
    + intros p. rewrite Hmem, elem_of_app. split.
      * intros [[?|?]|(pat & apps' & Hp & Hg' & Hin)]; [by left| |].
        -- right. exists pattern, apps. split; [by left|done].
        -- right. exists pat, apps'. split; [by right|done].
      * intros [?|(pat & apps' & [->|Hp]%elem_of_cons & Hg' & Hin)].
        -- left. by left.
        -- left. right. congruence.
        -- right. eauto.
Qed.

Lemma patterns_loop_Raise fs patterns acc e :
  Config.patterns_loop fs patterns acc = Raise e ->
  exists pattern, pattern ∈ patterns /\
    (fs_glob fs Config.APPLICATIONS_DIR pattern = Raise e \/
     exists apps xcode_app,
       fs_glob fs Config.APPLICATIONS_DIR pattern = Ok apps /\
       xcode_app ∈ apps /\
       Config.qualifies fs (pathlib.joinpath xcode_app Config.DOC_SUBPATH)
       = Raise e).
Proof.
  revert acc. induction patterns as [|pattern patterns IH]; intros acc; simpl;
    [done|].
  destruct (fs_glob fs Config.APPLICATIONS_DIR pattern) as [apps|e'] eqn:Hg;
    simpl.
  - destruct (Config.apps_loop fs apps acc) as [acc'|e'] eqn:Ha; simpl.
    + intros Hl. apply IH in Hl as (pat & Hp & H). exists pat.
      split; [by right|done].
    + intros [= ->]. apply apps_loop_Raise in Ha as (app & Happ & Hq).
      exists pattern. split; [by left|]. right. eauto.
  - intros [= ->]. exists pattern. split; [by left|]. by left.
Qed.

Lemma patterns_loop_returns fs patterns acc :
  queries_return fs patterns ->
  exists l, Config.patterns_loop fs patterns acc = Ok l.
Proof.
  revert acc. induction patterns as [|pattern patterns IH]; intros acc Hall;
    simpl; [eauto|].
  destruct (Hall pattern) as (apps & -> & Hq); [by left|]. simpl.
  destruct (apps_loop_returns fs apps acc Hq) as [acc' ->]. simpl.
  apply IH. intros pat Hp. apply Hall. by right.
Qed.

(** What discovery returns: the qualifying documentation folders of the
    applications that the patterns find. *)
Lemma elem_of_find_xcode_documentation_paths fs roots p :
  Config.find_xcode_documentation_paths fs = Ok roots ->
  p ∈ roots <->
  exists pattern apps xcode_app,
    pattern ∈ Config.XCODE_PATTERNS /\
    fs_glob fs Config.APPLICATIONS_DIR pattern = Ok apps /\
    xcode_app ∈ apps /\
    p = pathlib.joinpath xcode_app Config.DOC_SUBPATH /\
    Config.qualifies fs p = Ok true.
Proof.
  intros Hf. apply patterns_loop_Ok in Hf as [_ Hmem]. rewrite Hmem. split.
  - intros [?%elem_of_nil|(pattern & apps & Hp & Hg & Hin)]; [done|].
    apply elem_of_qualifying in Hin as (app & Ha & -> & Hq).
    exists pattern, apps, app. done.
  - intros (pattern & apps & app & Hp & Hg & Ha & -> & Hq). right.
    exists pattern, apps. split_and!; try done.
    apply elem_of_qualifying. eauto.
Qed.

Lemma find_xcode_documentation_paths_nil fs :
  Config.find_xcode_documentation_paths fs = Ok [] <-> no_candidate fs.
Proof.
  split.
  - intros Hf pattern Hp.
    destruct (patterns_loop_Ok _ _ _ _ Hf) as [Hall _].
    destruct (Hall pattern Hp) as (apps & Hg & Hq).
    exists apps. split; [done|]. intros app Ha.
    destruct (Hq app Ha) as [[|] Hqa]; [|done].
    exfalso. eapply not_elem_of_nil.
    apply (elem_of_find_xcode_documentation_paths fs [] _ Hf).
    exists pattern, apps, app. done.
  - intros Hno.
    destruct (patterns_loop_returns fs Config.XCODE_PATTERNS []) as [l Hl].
    { intros pattern Hp. destruct (Hno pattern Hp) as (apps & Hg & Hq).
      exists apps. split; [done|]. intros app Ha. eauto. }
    unfold Config.find_xcode_documentation_paths. rewrite Hl. f_equal.
    destruct l as [|p l]; [done|]. exfalso.
    assert (p ∈ p :: l) as Hin by by left.
    apply (elem_of_find_xcode_documentation_paths fs _ _ Hl) in Hin
      as (pattern & apps & app & Hp & Hg & Ha & -> & Hq).
    destruct (Hno pattern Hp) as (apps' & Hg' & Hq').
    rewrite Hg in Hg'. injection Hg' as <-.
    rewrite (Hq' app Ha) in Hq. done.
Qed.

Lemma find_xcode_documentation_paths_Raise fs e :
  Config.find_xcode_documentation_paths fs = Raise e -> discovery_raises fs e.
Proof. apply patterns_loop_Raise. Qed.

Lemma find_xcode_documentation_paths_quiet fs roots e :
  Config.find_xcode_documentation_paths fs = Ok roots ->
  ~ discovery_raises fs e.
Proof.
  intros Hf (pattern & Hp & Hraise).
  destruct (patterns_loop_Ok _ _ _ _ Hf) as [Hall _].
  destruct (Hall pattern Hp) as (apps & Hg & Hq).
  destruct Hraise as [Hg'|(apps' & app & Hg' & Ha & Hq')]; [congruence|].
  rewrite Hg in Hg'. injection Hg' as <-.
  destruct (Hq app Ha) as [q Hqa]. congruence.
Qed.

Lemma no_xcode_message_states :
  contains (lit "/Applications") Config.no_xcode_message = true /\
  contains (lit "Xcode*.app") Config.no_xcode_message = true /\
  contains (lit "XCODE_DOC_PATH environment variable")
    Config.no_xcode_message = true.
Proof. by vm_compute. Qed.

(** Root resolution, by the cases of the override. *)
Lemma get_documentation_paths_override fs environ p :
  override environ = Some p ->
  Config.get_documentation_paths fs environ =
    match fs_exists fs (pathlib.Path_of_str p) with
    | Ok true => Ok [pathlib.Path_of_str p]
    | Ok false =>
        Raise (ValueError (lit "Custom documentation path does not exist: "
                           ++ pathlib.to_str (pathlib.Path_of_str p)))
    | Raise e => Raise e
    end.
Proof.
  intros Hov. unfold Config.get_documentation_paths.
  destruct environ as [[|c q]|]; try done.
  simpl in Hov. injection Hov as <-.
  by destruct (fs_exists fs _) as [[|]|e].
Qed.

Lemma get_documentation_paths_discovery fs environ :
  override environ = None ->
  Config.get_documentation_paths fs environ =
    match Config.find_xcode_documentation_paths fs with
    | Ok [] => Raise (ValueError Config.no_xcode_message)
    | Ok roots => Ok roots
    | Raise e => Raise e
    end.
Proof.
  intros Hov. unfold Config.get_documentation_paths.
  destruct environ as [[|c q]|]; try done;
    by destruct (Config.find_xcode_documentation_paths fs) as [[|d ds]|e].
Qed.

(** C7, as amended. Root resolution raises a [ValueError], the
    configuration error of the program, when an override is given and
    [exists] reports that its path does not exist, and when no override is
    given and no candidate qualifies; in the second case the message names
    the place searched and the environment variable of the override. When
    none of the queries that it makes of the file system raises, these are
    the only cases in which it raises, and in every other case it returns
    the roots. When a query raises, root resolution raises too, what a
    query has raised: that error is passed on as it is. *)
Theorem get_documentation_paths_spec (fs : FileSystem) (environ : option str) :
  let r := Config.get_documentation_paths fs environ in
  let missing_override :=
    exists p, override environ = Some p /\
              fs_exists fs (pathlib.Path_of_str p) = Ok false in
  let nothing_found := override environ = None /\ no_candidate fs in
  let quiet := forall e, ~ query_raises fs environ e in
  (missing_override -> exists msg, r = Raise (ValueError msg)) /\
  (nothing_found ->
     exists msg, r = Raise (ValueError msg) /\
       contains (lit "/Applications") msg = true /\
       contains (lit "Xcode*.app") msg = true /\
       contains (lit "XCODE_DOC_PATH environment variable") msg = true) /\
  (quiet -> ((exists e, r = Raise e) <-> missing_override \/ nothing_found)) /\
  (quiet -> ~ (missing_override \/ nothing_found) ->
     exists roots, r = Ok roots /\ roots <> [] /\
       match override environ with
       | Some p => roots = [pathlib.Path_of_str p]
       | None => Config.find_xcode_documentation_paths fs = Ok roots
       end) /\
  (forall e, r = Raise e ->
     missing_override \/ nothing_found \/ query_raises fs environ e) /\
  ((exists e, query_raises fs environ e) ->
     exists e, r = Raise e /\ query_raises fs environ e).
Proof.
  pose proof (find_xcode_documentation_paths_nil fs) as Hnil.
  pose proof no_xcode_message_states as Hmsg.
  intros r missing_override nothing_found quiet.
  subst quiet. unfold query_raises.
  destruct (override environ) as [p|] eqn:Hov.
  - (* an override is given *)
    assert (~ nothing_found) as Hnf by (by intros [? _]).
    pose proof (get_documentation_paths_override fs environ p Hov) as Hr.
    fold r in Hr.
    destruct (fs_exists fs (pathlib.Path_of_str p)) as [[|]|e0] eqn:Hex.
    + assert (~ missing_override) as Hnm.
      { intros (p' & [= <-] & Hp'). congruence. }
      split_and!.
      * tauto.
      * tauto.
      * intros _. split; [|tauto]. intros [e He]. congruence.
      * intros _ _. exists [pathlib.Path_of_str p]. done.
      * intros e He. congruence.
      * intros [e He]. discriminate He.
    + assert missing_override as Hm by (hnf; eauto).
      split_and!.
      * eauto.
      * tauto.
      * intros _. split; [tauto|eauto].
      * tauto.
      * tauto.
      * intros [e He]. discriminate He.
    + assert (~ missing_override) as Hnm.
      { intros (p' & [= <-] & Hp'). congruence. }
      split_and!.
      * tauto.
      * tauto.
      * intros Hq. by destruct (Hq e0).
      * intros Hq. by destruct (Hq e0).
      * intros e He. right. right. congruence.
      * intros _. eauto.
  - (* no override *)
    assert (~ missing_override) as Hnm by (by intros (p' & ? & _)).
    pose proof (get_documentation_paths_discovery fs environ Hov) as Hr.
    fold r in Hr.
    destruct (Config.find_xcode_documentation_paths fs) as [[|d ds]|e0] eqn:Hf.
    + assert nothing_found as Hn by (split; [done|by apply Hnil]).
      split_and!.
      * tauto.
      * intros _. exists Config.no_xcode_message. done.
      * intros _. split; [tauto|eauto].
      * tauto.
      * tauto.
      * intros [e He].
        by apply find_xcode_documentation_paths_quiet with (e := e) in Hf.
    + assert (~ nothing_found) as Hnf.
      { intros [_ Hno]. apply Hnil in Hno. done. }
      split_and!.
      * tauto.
      * tauto.
      * intros _. split; [|tauto]. intros [e He]. congruence.
      * intros _ _. exists (d :: ds). done.
      * intros e He. congruence.
      * intros [e He].
        by apply find_xcode_documentation_paths_quiet with (e := e) in Hf.
    + assert (~ nothing_found) as Hnf.
      { intros [_ Hno]. apply Hnil in Hno. done. }
      pose proof (find_xcode_documentation_paths_Raise fs e0 Hf) as Hraise.
      split_and!.
      * tauto.
      * tauto.
      * intros Hq. by destruct (Hq e0).
      * intros Hq. by destruct (Hq e0).
      * intros e He. right. right. congruence.
      * intros _. eauto.
Qed.

(** ** Dictionaries *)
Section DictFacts.
Context {V : Type}.
Implicit Types (d : list (str * V)) (k : str) (v : V).

Lemma dict_keys_set_eq {W} k v (w : W) d (d' : list (str * W)) :
  dict_keys d = dict_keys d' ->
  dict_keys (dict_set k v d) = dict_keys (dict_set k w d').
Proof.
  revert d'. induction d as [|[k1 v1] d IH]; intros [|[k2 w2] d'] Hk;
    simpl in *; try done.
  injection Hk as -> Hk.
  destruct (decide (k = k2)); simpl; f_equal; [done|]. by apply IH.
Qed.

Lemma elem_of_dict_keys_set k k' v d :
  k' ∈ dict_keys (dict_set k v d) <-> k' = k \/ k' ∈ dict_keys d.
Proof.
  unfold dict_keys. induction d as [|[k1 v1] d IH]; simpl.
  - rewrite list_elem_of_singleton, elem_of_nil. tauto.
  - destruct (decide (k = k1)) as [->|Hne]; simpl.
    + rewrite elem_of_cons. tauto.
    + rewrite !elem_of_cons, IH. tauto.
Qed.

Lemma elem_of_dict_set k v k' v' d :
  (k', v') ∈ dict_set k v d -> (k' = k /\ v' = v) \/ (k', v') ∈ d.
Proof.
  induction d as [|[k1 v1] d IH]; simpl.
  - rewrite list_elem_of_singleton. intros [= -> ->]. by left.
  - destruct (decide (k = k1)) as [->|Hne].
    + rewrite !elem_of_cons. intros [[= -> ->]|Hin]; [by left|].
      right. by right.
    + rewrite !elem_of_cons. intros [[= -> ->]|Hin].
      * right. by left.
      * destruct (IH Hin) as [?|?]; [by left|]. right. by right.
Qed.

Lemma dict_set_NoDup k v d :
  NoDup (dict_keys d) -> NoDup (dict_keys (dict_set k v d)).
Proof.
  unfold dict_keys. induction d as [|[k1 v1] d IH]; simpl.
  - intros _. apply NoDup_singleton.
  - rewrite NoDup_cons. intros [Hk1 Hd].
    destruct (decide (k = k1)) as [->|Hne]; simpl.
    + by apply NoDup_cons.
    + apply NoDup_cons. split; [|by apply IH].
      intros Hin. apply (elem_of_dict_keys_set k k1 v d) in Hin.
      destruct Hin as [->|Hin]; done.
Qed.

Lemma dict_get_Some_elem k v d : dict_get k d = Some v -> (k, v) ∈ d.
Proof.
  induction d as [|[k1 v1] d IH]; simpl; [done|].
  destruct (decide (k = k1)) as [->|Hne].
  - intros [= ->]. by left.
  - intros Hg. right. by apply IH.
Qed.

Lemma dict_get_is_Some k d : is_Some (dict_get k d) <-> k ∈ dict_keys d.
Proof.
  unfold dict_keys. induction d as [|[k1 v1] d IH]; simpl.
  - rewrite elem_of_nil. split; [by intros [? ?]|done].
  - destruct (decide (k = k1)) as [->|Hne].
    + split; [intros _; by left|eauto].
    + rewrite IH, elem_of_cons. tauto.
Qed.

Lemma dict_keys_length d : length (dict_keys d) = length d.
Proof. unfold dict_keys. apply length_fmap. Qed.
End DictFacts.

(** ** Index construction *)





Section BuildFacts.
Variable findall_headers : str -> list str.
Variable fs : FileSystem.

Lemma try_load_file_cases xcode_name self md_file :
  (loadable fs md_file = true /\
   exists text info,
     info_name info = pathlib.stem md_file /\
     info_xcode_source info = xcode_name /\
     try_load_file findall_headers fs xcode_name self md_file =
       {| content_cache :=
            dict_set (composite_key xcode_name (pathlib.stem md_file)) text
              (content_cache self);
          docs_cache :=
            dict_set (composite_key xcode_name (pathlib.stem md_file)) info
              (docs_cache self);
          doc_paths := doc_paths self |}) \/
  (loadable fs md_file = false /\
   try_load_file findall_headers fs xcode_name self md_file = self).
Proof.
  unfold try_load_file, load_file, loadable.
  destruct (fs_read_text fs md_file) as [text|e]; simpl; [|by right].
  destruct (fs_stat_size fs md_file) as [sz|e]; simpl; [|by right].
  left. split; [done|]. eexists text, _. split_and!; [| |done]; done.
Qed.

(** The two caches receive the same keys in the same order. *)
Lemma try_load_file_keys xcode_name self md_file :
  dict_keys (docs_cache self) = dict_keys (content_cache self) ->
  let self' := try_load_file findall_headers fs xcode_name self md_file in
  dict_keys (docs_cache self') = dict_keys (content_cache self').
Proof.
  intros Hk.
  destruct (try_load_file_cases xcode_name self md_file)
    as [(_ & text & info & _ & _ & ->)|[_ ->]]; simpl; [|done].
  by apply dict_keys_set_eq.
Qed.

Lemma index_folder_keys self doc_path :
  dict_keys (docs_cache self) = dict_keys (content_cache self) ->
  let self' := index_folder findall_headers fs self doc_path in
  dict_keys (docs_cache self') = dict_keys (content_cache self').
Proof.
  unfold index_folder.
  generalize (md_files fs doc_path) as files.
  intros files. revert self.
  induction files as [|f files IH]; intros self Hk; simpl; [done|].
  apply IH. by apply try_load_file_keys.
Qed.

Lemma index_folders_keys self paths :
  dict_keys (docs_cache self) = dict_keys (content_cache self) ->
  let self' := foldl (index_folder findall_headers fs) self paths in
  dict_keys (docs_cache self') = dict_keys (content_cache self').
Proof.
  revert self. induction paths as [|p paths IH]; intros self Hk; simpl;
    [done|].
  apply IH. by apply index_folder_keys.
Qed.

(** The outer loop returns exactly when every folder can be listed. *)
Lemma index_doc_path_Ok self doc_path self' :
  index_doc_path findall_headers fs self doc_path = Ok self' <->
  (exists files, fs_glob fs doc_path (lit "*.md") = Ok files) /\
  self' = index_folder findall_headers fs self doc_path.
Proof.
  unfold index_doc_path, index_folder, md_files.
  destruct (fs_glob fs doc_path (lit "*.md")) as [files|e]; simpl.
  - split; [intros [= <-]; eauto|by intros [_ ->]].
  - split; [done|by intros [[? ?] _]].
Qed.

Lemma index_doc_paths_Ok self paths m :
  index_doc_paths findall_headers fs self paths = Ok m <->
  listable fs paths /\
  m = foldl (index_folder findall_headers fs) self paths.
Proof.
  unfold listable. revert self.
  induction paths as [|p paths IH]; intros self; simpl.
  - split; [intros [= <-]; by split|by intros [_ ->]].
  - rewrite Forall_cons.
    destruct (index_doc_path findall_headers fs self p) as [self'|e] eqn:Hp;
      simpl.
    + apply index_doc_path_Ok in Hp as [Hl ->]. rewrite IH. tauto.
    + split; [done|]. intros [[Hl _] _].
      assert (index_doc_path findall_headers fs self p
              = Ok (index_folder findall_headers fs self p)) as Hok
        by by apply index_doc_path_Ok.
      congruence.
Qed.

(** When [initialize] returns, and what. *)
Lemma initialize_Ok environ self m :
  initialize findall_headers fs environ self = Ok m <->
  match Config.get_documentation_paths fs environ with
  | Ok paths =>
      listable fs paths /\
      m = foldl (index_folder findall_headers fs)
            {| content_cache := content_cache self;
               docs_cache := docs_cache self;
               doc_paths := paths |} paths
  | Raise (ValueError _) =>
      m = {| content_cache := content_cache self;
             docs_cache := docs_cache self;
             doc_paths := [] |}
  | Raise _ => False
  end.
Proof.
  unfold initialize.
  destruct (Config.get_documentation_paths fs environ) as [paths|[msg|msg|msg]].
  - apply index_doc_paths_Ok.
  - split; [by intros [= <-]|by intros ->].
  - done.
  - done.
Qed.

Lemma initialize_returns environ self :
  build_completes fs environ ->
  exists m, initialize findall_headers fs environ self = Ok m.
Proof.
  unfold build_completes. intros Hc.
  pose proof (fun m => initialize_Ok environ self m) as Hok.
  destruct (Config.get_documentation_paths fs environ) as [paths|[msg|msg|msg]];
    try done.
  - eexists. apply Hok. split; [done|reflexivity].
  - eexists. by apply Hok.
Qed.

(** C4. A run of the index build returns when the root resolution returns
    roots that can all be listed, or raises its configuration error. If the
    metadata map and the content map had the same keys before the run (both
    are empty when the manager is created), then after every run that
    returns they have the same keys, in the same order: a key is present in
    one exactly when it is present in the other, whatever files could not
    be read. *)
Theorem initialize_same_keys (environ : option str)
    (self : LocalDocsManager) :
  dict_keys (docs_cache self) = dict_keys (content_cache self) ->
  (build_completes fs environ ->
   exists m, initialize findall_headers fs environ self = Ok m) /\
  forall m,
    initialize findall_headers fs environ self = Ok m ->
    dict_keys (docs_cache m) = dict_keys (content_cache m) /\
    forall key, is_Some (dict_get key (docs_cache m)) <->
                is_Some (dict_get key (content_cache m)).
Proof.
  intros Hk. split; [apply initialize_returns|].
  intros m Hm. apply initialize_Ok in Hm.
  assert (dict_keys (docs_cache m) = dict_keys (content_cache m)) as Hkeys.
  { destruct (Config.get_documentation_paths fs environ)
      as [paths|[msg|msg|msg]]; try done.
    - destruct Hm as [_ ->]. by apply index_folders_keys.
    - by subst m. }
  split; [done|]. intros key. by rewrite !dict_get_is_Some, Hkeys.
Qed.
End BuildFacts.

(** *** Composite keys *)

Lemma composite_key_same_stem t1 t2 s :
  composite_key t1 s = composite_key t2 s -> t1 = t2.
Proof. unfold composite_key. intros H. by apply app_inv_tail in H. Qed.

Lemma tag_ok_tail a t : tag_ok (a :: t) -> tag_ok t.
Proof.
  unfold tag_ok. destruct t as [|b t]; [done|].
  simpl. destruct ((a =? 58)%N && (b =? 58)%N); [by intros [? _]|].
  intros [H1 H2]. split; [done|]. exact H2.
Qed.

Lemma composite_key_nil_l t s1 s2 :
  tag_ok t -> composite_key [] s1 = composite_key t s2 -> t = [] /\ s1 = s2.
Proof.
  unfold composite_key, key_sep. intros [Hsep Hlast].
  destruct t as [|a [|b t]]; simpl.
  - intros [= ->]. done.
  - intros [= <- _]. done.
  - intros [= <- <- _]. done.
Qed.

(** Tags that cannot blur the separator make the composite key injective. *)
Lemma composite_key_inj t1 t2 s1 s2 :
  tag_ok t1 -> tag_ok t2 ->
  composite_key t1 s1 = composite_key t2 s2 -> t1 = t2 /\ s1 = s2.
Proof.
  revert t2. induction t1 as [|a t1 IH]; intros t2 H1 H2 Hk.
  - apply composite_key_nil_l in Hk as [-> ->]; done.
  - destruct t2 as [|b t2].
    + symmetry in Hk. apply composite_key_nil_l in Hk as [? _]; done.
    + injection Hk as -> Hk.
      apply IH in Hk as [-> ->]; eauto using tag_ok_tail.
Qed.

Section IndexFacts.
Variable findall_headers : str -> list str.
Variable fs : FileSystem.


Lemma index_inv_file xcode_name self md_file pairs :
  index_inv (docs_cache self) pairs ->
  index_inv
    (docs_cache (try_load_file findall_headers fs xcode_name self md_file))
    (pairs ++ (if loadable fs md_file
               then [(xcode_name, pathlib.stem md_file)] else [])).
Proof.
  intros (Hnd & Hinfo & Hkeys).
  destruct (try_load_file_cases findall_headers fs xcode_name self md_file)
    as [(-> & text & info & Hn & Hx & ->)|[-> ->]]; simpl.
  - split_and!.
    + by apply dict_set_NoDup.
    + intros k i Hin. apply elem_of_dict_set in Hin as [[-> ->]|Hin].
      * exists xcode_name, (pathlib.stem md_file).
        rewrite elem_of_app, list_elem_of_singleton. eauto.
      * destruct (Hinfo _ _ Hin) as (t & s & Hts & ?).
        exists t, s. rewrite elem_of_app. eauto.
    + intros t s. rewrite elem_of_app, list_elem_of_singleton.
      rewrite elem_of_dict_keys_set. intros [Hts|[= -> ->]]; eauto.
  - by rewrite app_nil_r.
Qed.

Lemma index_inv_folder self doc_path pairs :
  index_inv (docs_cache self) pairs ->
  index_inv (docs_cache (index_folder findall_headers fs self doc_path))
    (pairs ++ folder_pairs fs doc_path).
Proof.
  unfold index_folder, folder_pairs.
  generalize (Config.get_xcode_name_from_path doc_path) as xcode_name.
  generalize (md_files fs doc_path) as files.
  intros files xcode_name. revert self pairs.
  induction files as [|f files IH]; intros self pairs Hinv; simpl.
  - by rewrite app_nil_r.
  - apply (index_inv_file xcode_name self f) in Hinv.
    apply IH in Hinv. revert Hinv.
    destruct (loadable fs f); simpl.
    + by rewrite <- app_assoc.
    + by rewrite app_nil_r.
Qed.

Lemma index_inv_paths self paths pairs :
  index_inv (docs_cache self) pairs ->
  index_inv
    (docs_cache (foldl (index_folder findall_headers fs) self paths))
    (pairs ++ loaded_pairs fs paths).
Proof.
  revert self pairs. induction paths as [|p paths IH];
    intros self pairs Hinv; simpl.
  - by rewrite app_nil_r.
  - apply (index_inv_folder self p) in Hinv. apply IH in Hinv.
    by rewrite <- app_assoc in Hinv.
Qed.

Lemma loaded_pairs_tag paths t s :
  (t, s) ∈ loaded_pairs fs paths ->
  exists p, p ∈ paths /\ t = Config.get_xcode_name_from_path p.
Proof.
  unfold loaded_pairs. rewrite list_elem_of_In, in_flat_map.
  intros (p & Hp & Hin). exists p. split; [by apply list_elem_of_In|].
  apply list_elem_of_In in Hin. unfold folder_pairs in Hin.
  apply list_elem_of_omap in Hin as (f & _ & Hf).
  destruct (loadable fs f); by simplify_eq.
Qed.

Lemma index_inv_one_entry docs pairs :
  (forall t s, (t, s) ∈ pairs -> tag_ok t) ->
  index_inv docs pairs -> one_entry_per_pair docs pairs.
Proof.
  intros Hok (Hnd & Hinfo & Hkeys). split_and!; [done| |].
  - rewrite <- dict_keys_length.
    rewrite <- (length_fmap (fun ts => composite_key ts.1 ts.2)
                  (remove_dups pairs)).
    apply Permutation_length, NoDup_Permutation; [done| |].
    + apply NoDup_fmap_2_strong; [|apply NoDup_remove_dups].
      intros [t1 s1] [t2 s2] H1 H2 Hk. simpl in Hk.
      rewrite elem_of_remove_dups in H1, H2.
      apply composite_key_inj in Hk as [-> ->]; eauto.
    + intros k. rewrite list_elem_of_fmap. split.
      * intros Hk. apply list_elem_of_fmap in Hk as ([k' info] & -> & Hin).
        destruct (Hinfo _ _ Hin) as (t & s & Hts & -> & _).
        exists (t, s). by rewrite elem_of_remove_dups.
      * intros ([t s] & -> & Hts). rewrite elem_of_remove_dups in Hts.
        by apply Hkeys.
  - intros t s Hts.
    destruct (proj2 (dict_get_is_Some (composite_key t s) docs)
                (Hkeys _ _ Hts)) as [info Hget].
    exists info. split; [done|].
    apply dict_get_Some_elem in Hget.
    destruct (Hinfo _ _ Hget) as (t' & s' & Hts' & Hk & <- & <-).
    apply composite_key_inj in Hk as [-> ->]; eauto.
Qed.

(** C3, as amended. Documents of the same stem under distinct tags always
    get distinct composite keys. When the roots can be listed and no
    installation tag holds ["::"] or ends with [':'], the index built at
    start-up holds exactly one entry per distinct (tag, stem) pair of the
    documents that could be read, and the entry of a pair carries that stem
    and that tag. *)
Theorem index_one_entry_per_pair :
  (forall t1 t2 s, t1 <> t2 -> composite_key t1 s <> composite_key t2 s) /\
  (forall (environ : option str) (roots : list Path),
     Config.get_documentation_paths fs environ = Ok roots ->
     listable fs roots ->
     (forall p, p ∈ roots -> tag_ok (Config.get_xcode_name_from_path p)) ->
     exists m, new_manager findall_headers fs environ = Ok m /\
       one_entry_per_pair (docs_cache m) (loaded_pairs fs roots)).
Proof.
  split.
  - intros t1 t2 s Hne Hk. by apply composite_key_same_stem in Hk.
  - intros environ roots Hroots Hlist Hok.
    eexists. split.
    { apply initialize_Ok. rewrite Hroots. split; [done|reflexivity]. }
    apply index_inv_one_entry.
    + intros t s Hts. apply loaded_pairs_tag in Hts as (p & Hp & ->). eauto.
    + apply (index_inv_paths _ roots []). simpl.
      split_and!; [constructor|intros ? ? Hin|intros ? ? Hin];
        by apply elem_of_nil in Hin.
Qed.

(** C6. With no override and no qualifying candidate, the construction of
    the manager returns with an empty index, and every search on it
    returns zero results. *)
Theorem empty_corpus_search (ieq : char -> char -> bool)
    (environ : option str) :
  override environ = None -> no_candidate fs ->
  exists m, new_manager findall_headers fs environ = Ok m /\
    docs_cache m = [] /\ content_cache m = [] /\ doc_paths m = [] /\
    forall (q : str) (cs : bool),
      search ieq m q cs =
        {| query := q; total_results := 0; results := [] |}.
Proof.
  intros Hov Hno. apply find_xcode_documentation_paths_nil in Hno.
  eexists. split.
  - unfold new_manager, initialize.
    by rewrite (get_documentation_paths_discovery fs environ Hov), Hno.
  - done.
Qed.
End IndexFacts.

(** ** Positions and contexts of content matches *)

Section MatchFacts.
Variable eqc : char -> char -> bool.

Lemma finditer_from_spec pat text pos skip s e :
  (s, e) ∈ finditer_from eqc pat text pos skip ->
  pos <= s <= pos + len text /\ e = s + len pat /\
  match_here eqc pat (drop (Z.to_nat (s - pos)) text) = true.
Proof.
  revert pos skip. induction text as [|c text IH]; intros pos skip; simpl.
  - destruct skip; [|by rewrite elem_of_nil].
    destruct (match_here eqc pat []) eqn:E; [|by rewrite elem_of_nil].
    rewrite list_elem_of_singleton. intros [= -> ->].
    unfold len at 1. simpl.
    replace (pos - pos) with 0 by lia. simpl.
    split; [lia|]. split; [|done].
    destruct pat; [unfold len; simpl; lia|done].
  - assert (forall k, (s, e) ∈ finditer_from eqc pat text (pos + 1) k ->
              pos <= s <= pos + len (c :: text) /\ e = s + len pat /\
              match_here eqc pat
                (drop (Z.to_nat (s - pos)) (c :: text)) = true) as Hrec.
    { intros k Hin. apply IH in Hin as (Hs & He & Hm).
      unfold len in *. simpl length.
      split; [lia|]. split; [done|].
      replace (Z.to_nat (s - pos)) with (S (Z.to_nat (s - (pos + 1))))
        by lia. done. }
    destruct skip as [|k]; [|by apply Hrec].
    destruct (match_here eqc pat (c :: text)) eqn:E; [|by apply Hrec].
    rewrite elem_of_cons. intros [[= -> ->]|Hin]; [|by eapply Hrec].
    replace (pos - pos) with 0 by lia. unfold len. simpl length.
    split; [lia|]. done.
Qed.

Lemma finditer_spec pat text s e :
  (s, e) ∈ finditer eqc pat text ->
  0 <= s <= len text /\ e = s + len pat /\
  match_here eqc pat (drop (Z.to_nat s) text) = true.
Proof.
  intros Hin. apply finditer_from_spec in Hin as (H1 & H2 & H3).
  rewrite Z.sub_0_r in H3. split; [lia|done].
Qed.

Lemma match_here_ext (eqc' : char -> char -> bool) pat text :
  (forall p c, p ∈ pat -> c ∈ text -> eqc p c = eqc' p c) ->
  match_here eqc pat text = match_here eqc' pat text.
Proof.
  revert text. induction pat as [|p pat IH]; intros [|c text] Hext; simpl;
    try done.
  rewrite Hext by (by left). f_equal. apply IH.
  intros p' c' Hp Hc. apply Hext; by right.
Qed.

Lemma finditer_from_ext (eqc' : char -> char -> bool) pat text pos skip :
  (forall p c, p ∈ pat -> c ∈ text -> eqc p c = eqc' p c) ->
  finditer_from eqc pat text pos skip = finditer_from eqc' pat text pos skip.
Proof.
  revert pos skip. induction text as [|c text IH]; intros pos skip Hext;
    simpl.
  - by rewrite (match_here_ext eqc').
  - assert (forall p c', p ∈ pat -> c' ∈ text -> eqc p c' = eqc' p c')
      as Hext' by (intros; apply Hext; [done|by right]).
    rewrite (match_here_ext eqc' pat (c :: text)) by done.
    destruct skip; [|by apply IH].
    by rewrite !IH.
Qed.
End MatchFacts.

Section ContentFacts.
Variable ieq : char -> char -> bool.

Lemma content_loop_elem text spans ms m :
  m ∈ content_loop text spans ms ->
  m ∈ ms \/
  exists s e, (s, e) ∈ spans /\
    m = {| m_type := type_content;
           m_context := match_context text s e;
           m_position := Some s |}.
Proof.
  revert ms. induction spans as [|[s e] spans IH]; intros ms; simpl.
  - by left.
  - destruct (5 <=? len ms); [by left|].
    intros Hin. apply IH in Hin as [Hin|(s' & e' & Hin & ->)].
    + apply elem_of_app in Hin as [Hin|Hin]; [by left|].
      apply list_elem_of_singleton in Hin as ->.
      right. exists s, e. split; [by left|done].
    + right. exists s', e'. split; [by right|done].
Qed.

Lemma doc_matches_content q cs doc_name text m :
  m ∈ doc_matches ieq q cs doc_name text ->
  m_type m = type_content ->
  exists s e, (s, e) ∈ finditer (chr_eq ieq cs) q text /\
    m = {| m_type := type_content;
           m_context := match_context text s e;
           m_position := Some s |}.
Proof.
  unfold doc_matches. intros Hin Hty.
  assert (m ∉ (if re_search (chr_eq ieq cs) q doc_name
               then [{| m_type := type_filename; m_context := doc_name;
                        m_position := None |}]
               else [])) as Hnot.
  { destruct (re_search _ _ _); [|apply not_elem_of_nil].
    rewrite list_elem_of_singleton. intros ->. done. }
  destruct text as [|c text]; [done|].
  apply content_loop_elem in Hin as [Hin|Hin]; done.
Qed.

End ContentFacts.

(** ** [list_documents] *)

Lemma str_leb_total (a b : str) : str_leb a b = false -> str_leb b a = true.
Proof.
  revert b. induction a as [|x a IH]; intros [|y b]; simpl; try done.
  destruct (N.ltb_spec x y), (N.ltb_spec y x), (N.eqb_spec x y),
    (N.eqb_spec y x); simpl; try done; try lia. apply IH.
Qed.

Lemma str_leb_trans (a b c : str) :
  str_leb a b = true -> str_leb b c = true -> str_leb a c = true.
Proof.
  revert b c. induction a as [|x a IH]; intros [|y b] [|z c]; simpl;
    try done.
  destruct (N.ltb_spec x y), (N.ltb_spec y z), (N.ltb_spec x z),
    (N.eqb_spec x y), (N.eqb_spec y z), (N.eqb_spec x z);
    simpl; try done; try lia. apply IH.
Qed.

Lemma sorted_set_spec (versions : list str) :
  StronglySorted (fun a b => str_leb a b = true) (sorted_set versions) /\
  NoDup (sorted_set versions) /\
  (forall t, t ∈ sorted_set versions <-> t ∈ versions) /\
  sorted_set versions ≡ₚ remove_dups versions.
Proof.
  unfold sorted_set.
  set (s := list_to_set versions : gset str).
  assert (sort_by id str_leb (elements s) ≡ₚ elements s) as Hperm
    by apply sort_by_perm.
  assert (forall t, t ∈ sort_by id str_leb (elements s) <-> t ∈ versions)
    as Helem.
  { intros t. rewrite Hperm. subst s.
    by rewrite elem_of_elements, elem_of_list_to_set. }
  assert (NoDup (sort_by id str_leb (elements s))) as Hnd.
  { rewrite Hperm. apply NoDup_elements. }
  split_and!; try done.
  - apply (sort_by_sorted id str_leb str_leb_total str_leb_trans).
  - apply NoDup_Permutation; [done|apply NoDup_remove_dups|].
    intros t. by rewrite Helem, elem_of_remove_dups.
Qed.

Lemma filter_none {A} (P : A -> Prop) `{!forall x, Decision (P x)}
    (l : list A) :
  (forall x, x ∈ l -> ~ P x) -> filter P l = [].
Proof.
  induction l as [|y l IH]; intros Hl; [done|].
  rewrite filter_cons, decide_False by (apply Hl; by left).
  apply IH. intros x Hx. apply Hl. by right.
Qed.

Lemma filter_singleton_NoDup {A B} `{EqDecision B} (f : A -> B)
    (l : list A) (x : A) :
  NoDup (map f l) -> x ∈ l -> filter (fun y => f y = f x) l = [x].
Proof.
  induction l as [|y l IH]; simpl; [by rewrite elem_of_nil|].
  rewrite NoDup_cons, elem_of_cons, filter_cons.
  intros [Hy Hnd] [->|Hin].
  - rewrite decide_True by done. f_equal.
    apply filter_none. intros z Hz Hfz.
    apply Hy. rewrite <- Hfz. by apply list_elem_of_fmap_2.
  - rewrite decide_False; [by apply IH|].
    intros Hfy. apply Hy. rewrite Hfy. by apply list_elem_of_fmap_2.
Qed.

Section ListFacts.
Variable lower : str -> str.

Lemma elem_of_collect_versions self doc_name t :
  t ∈ collect_versions self doc_name <->
  exists key info, (key, info) ∈ docs_cache self /\
    info_name info = doc_name /\ info_xcode_source info = t.
Proof.
  unfold collect_versions. rewrite list_elem_of_omap. split.
  - intros ([key info] & Hin & Ht). simpl in Ht.
    case_bool_decide; [|done]. injection Ht as <-. eauto.
  - intros (key & info & Hin & Hn & Ht). exists (key, info).
    split; [done|]. simpl. rewrite bool_decide_eq_true_2 by done.
    by rewrite Ht.
Qed.


Lemma list_documents_loop_spec self filter_str items documents seen_names :
  listing_inv self documents seen_names ->
  let res :=
    list_documents_loop lower self filter_str items documents seen_names in
  NoDup (map sum_name res) /\
  (forall e, e ∈ res ->
     xcode_versions e = _get_versions_for_doc self (sum_name e)) /\
  (forall key info, (key, info) ∈ items ->
     filtered_out lower filter_str (info_name info) = false ->
     info_name info ∈ map sum_name res) /\
  (forall n, n ∈ map sum_name documents -> n ∈ map sum_name res).
Proof.
  revert documents seen_names.
  induction items as [|[key info] items IH];
    intros documents seen_names (Hseen & Hnd & Hver); simpl.
  - split_and!; try done. intros ? ? Hin. by apply elem_of_nil in Hin.
  - assert (listing_inv self documents seen_names) as Hinv by done.
    case_bool_decide as Hs.
    { destruct (IH _ _ Hinv) as (H1 & H2 & H3 & H4).
      split_and!; try done.
      intros k i Hin Hf. apply elem_of_cons in Hin as [[= -> ->]|Hin];
        [|by eapply H3].
      apply H4. by apply Hseen. }
    destruct (filtered_out lower filter_str (info_name info)) eqn:Hf.
    { destruct (IH _ _ Hinv) as (H1 & H2 & H3 & H4).
      split_and!; try done.
      intros k i Hin Hf'. apply elem_of_cons in Hin as [[= -> ->]|Hin];
        [congruence|by eapply H3]. }
    match goal with
    | |- context [list_documents_loop _ _ _ _ ?docs ?seen] =>
        destruct (IH docs seen) as (H1 & H2 & H3 & H4)
    end.
    { split_and!.
      - intros n. rewrite map_app, elem_of_app, elem_of_union,
          elem_of_singleton. simpl. rewrite list_elem_of_singleton.
        rewrite Hseen. tauto.
      - rewrite map_app. simpl. apply NoDup_app. split_and!; [done| |].
        + intros n Hn. rewrite list_elem_of_singleton. intros ->.
          apply Hs. by apply Hseen.
        + apply NoDup_singleton.
      - intros e. rewrite elem_of_app, list_elem_of_singleton.
        intros [He| ->]; [by apply Hver|done]. }
    split_and!; try done.
    + intros k i Hin Hf'. apply elem_of_cons in Hin as [[= -> ->]|Hin];
        [|by eapply H3].
      apply H4. rewrite map_app, elem_of_app. right. simpl. by left.
    + intros n Hn. apply H4. rewrite map_app, elem_of_app. by left.
Qed.

(** C8. A stem that occurs in the index has exactly one entry in the
    output of [list_documents] (when a filter is given, provided it does
    not exclude the stem; without a filter nothing is excluded), and the
    tags of that entry are the tags of the index entries with that stem,
    each once, in ascending order: as many as there are distinct
    installations holding the stem. *)
Theorem list_documents_dedup (self : LocalDocsManager)
    (filter_str : option str) (stem : str) :
  (exists key info, (key, info) ∈ docs_cache self /\ info_name info = stem) ->
  filtered_out lower filter_str stem = false ->
  exists e,
    filter (fun s => sum_name s = stem)
      (list_documents lower self filter_str) = [e] /\
    sum_name e = stem /\
    StronglySorted (fun a b => str_leb a b = true) (xcode_versions e) /\
    NoDup (xcode_versions e) /\
    (forall t, t ∈ xcode_versions e <->
       exists key info, (key, info) ∈ docs_cache self /\
         info_name info = stem /\ info_xcode_source info = t) /\
    length (xcode_versions e) =
      length (remove_dups (collect_versions self stem)).
Proof.
  intros (key & info & Hin & Hname) Hfilter.
  unfold list_documents.
  set (docs :=
         list_documents_loop lower self filter_str (docs_cache self) [] ∅).
  destruct (list_documents_loop_spec self filter_str (docs_cache self) [] ∅)
    as (Hnd & Hver & Hall & _).
  { split_and!; [|constructor|].
    - intros n. simpl. rewrite elem_of_nil. set_solver.
    - intros e He. by apply elem_of_nil in He. }
  fold docs in Hnd, Hver, Hall.
  assert (stem ∈ map sum_name docs) as Hstem.
  { rewrite <- Hname. eapply Hall; [done|]. by rewrite Hname. }
  apply list_elem_of_fmap in Hstem as (e & He & Hein).
  exists e.
  assert (filter (fun s => sum_name s = stem)
            (sort_by sum_name str_leb docs) = [e]) as Hsingle.
  { apply Permutation_singleton_r.
    rewrite sort_by_perm, He.
    by rewrite (filter_singleton_NoDup sum_name docs e). }
  destruct (sorted_set_spec (collect_versions self stem))
    as (Hsorted & Hnodup & Helem & Hperm).
  rewrite (Hver e Hein). unfold _get_versions_for_doc. rewrite <- He.
  split_and!; try done.
  - intros t. by rewrite Helem, elem_of_collect_versions.
  - by rewrite Hperm.
Qed.
End ListFacts.

(** ** [get_document] *)


Section GetFacts.
Variable fs : FileSystem.

Lemma get_document_loop_skip self pre items name version :
  Forall (fun item => matches_name name item = false) pre ->
  get_document_loop fs self (pre ++ items) name version =
  get_document_loop fs self items name version.
Proof.
  induction 1 as [|[key info] pre Hm _ IH]; simpl; [done|].
  unfold matches_name in Hm. simpl in Hm. by rewrite Hm.
Qed.

(** C10, as amended. Called without an installation tag, [get_document]
    returns the cached text of the first entry, in insertion order, whose
    name matches, when that text is not empty; when it is empty it returns
    what reading that entry's file gives, if the file exists; and only
    when the text is empty and the file is gone does the scan go on to the
    entries inserted later. An error that [exists] raises on the path of
    that entry is passed on. *)
Theorem get_document_first_match (self : LocalDocsManager) (name : str)
    (version : option str) (pre post : list (str * DocInfo)) (key : str)
    (info : DocInfo) :
  truthy version = false ->
  docs_cache self = pre ++ (key, info) :: post ->
  Forall (fun item => matches_name name item = false) pre ->
  matches_name name (key, info) = true ->
  let text := default [] (dict_get key (content_cache self)) in
  let doc_path := pathlib.Path_of_str (info_path info) in
  (text <> [] -> get_document fs self name version = Ok text) /\
  (text = [] -> fs_exists fs doc_path = Ok true ->
     get_document fs self name version = fs_read_text fs doc_path) /\
  (text = [] -> fs_exists fs doc_path = Ok false ->
     get_document_loop fs self (docs_cache self) name version =
     get_document_loop fs self post name version) /\
  (forall e, text = [] -> fs_exists fs doc_path = Raise e ->
     get_document fs self name version = Raise e).
Proof.
  intros Hv Hdocs Hpre Hm text doc_path.
  unfold get_document. rewrite Hdocs, get_document_loop_skip by done.
  simpl. unfold matches_name in Hm. simpl in Hm. rewrite Hm, Hv. simpl.
  fold text. fold doc_path. split_and!.
  - intros Ht. by destruct text.
  - intros -> ->. done.
  - intros -> ->. done.
  - intros e -> ->. done.
Qed.
End GetFacts.

(** ** Concrete runs *)

Example finditer_nonoverlapping :
  finditer N.eqb (lit "aa") (lit "aaaXaa") = [(0, 2); (4, 6)].
Proof. reflexivity. Qed.

Example finditer_empty_pattern :
  finditer N.eqb [] (lit "ab") = [(0, 0); (1, 1); (2, 2)].
Proof. reflexivity. Qed.

Example strip_then_collapse :
  sub_whitespace (strip (lit "  a  b   c ")) = lit "a b c".
Proof. reflexivity. Qed.

(** Headings: the white space after the ['#'] can run over line feeds, and
    the heading runs to the next line feed, a carriage return included. *)
Example markdown_headers_shapes :
  markdown_headers
    (lit "# Liquid Glass" ++ [10%N]
     ++ lit "Intro #not a heading" ++ [10%N]
     ++ lit "##" ++ [9%N] ++ lit "Adopting  " ++ [13%N; 10%N]
     ++ lit "#### too deep" ++ [10%N]
     ++ lit "###" ++ [10%N; 10%N]
     ++ lit "next line")
  = [lit "Liquid Glass"; lit "Adopting  " ++ [13%N]; lit "next line"].
Proof. by vm_compute. Qed.

Example markdown_headers_blank :
  markdown_headers (lit "#  ") = [lit " "] /\
  markdown_headers (lit "# " ++ [10%N]) = [] /\
  markdown_headers (lit "#" ++ [10%N; 10%N] ++ lit "# a") = [lit "# a"].
Proof. by vm_compute. Qed.

Example path_of_str_slashes :
  map pathlib.Path_of_str [lit "//a/b"; lit "///a"; lit "a//b/./c"]
  = [[lit "//"; lit "a"; lit "b"]; [lit "/"; lit "a"];
     [lit "a"; lit "b"; lit "c"]] /\
  pathlib.to_str (pathlib.Path_of_str (lit "//a/b")) = lit "//a/b".
Proof. by vm_compute. Qed.

Example xcode_name_of_doc_path :
  Config.get_xcode_name_from_path (app_doc_path (lit "Xcode-26.0.0.app"))
  = lit "Xcode-26.0.0.app".
Proof. by vm_compute. Qed.

(** The index of [apps_two]: the undecodable file is skipped, the two
    documents named [Doc] have their own entries. *)
Example index_of_apps_two :
  dict_keys (docs_cache (manager_of apps_two))
  = [lit "Xcode-A.app::Doc"; lit "Xcode-B.app::Doc";
     lit "Xcode-B.app::SwiftUI"].
Proof. by vm_compute. Qed.

(** The deduplication example of the specification: a stem held by the
    installations [A] and [B] has one entry, with the tags [["A"; "B"]]. *)
Example list_documents_A_B :
  let info tag :=
    {| info_path := []; info_name := lit "Doc"; info_size := 0;
       info_xcode_source := lit tag; info_topics := [] |} in
  let self :=
    {| content_cache := [];
       docs_cache := [(lit "B::Doc", info "B"); (lit "A::Doc", info "A")];
       doc_paths := [] |} in
  map (fun s => (sum_name s, xcode_versions s))
    (list_documents ascii_lower_str self None)
  = [(lit "Doc", [lit "A"; lit "B"])].
Proof. by vm_compute. Qed.

(** The document ["abcXYZdef"] of the specification: the window of
    [search] is 50 characters on each side, so the context of the match of
    ["XYZ"] is the whole text. *)
Example context_of_abcXYZdef :
  map (fun r => map (fun m => (m_context m, m_position m)) (matches r))
    (results (search ascii_ieq manager_abc (lit "XYZ") false))
  = [[(lit "abcXYZdef", Some 3)]].
Proof. by vm_compute. Qed.

(** *** Instances of the theorems *)

(** Folders of a table file system can be listed. *)
Local Ltac solve_listable :=
  repeat (apply Forall_cons; split; [eexists; vm_compute; reflexivity|]);
  constructor.

Local Ltac solve_tags_ok :=
  repeat (apply Forall_cons; split;
          [split; [vm_compute; reflexivity|vm_compute; discriminate]|]);
  constructor.

(** Over [apps_many] the index enumerates the document [glass] last, after
    twenty documents that mention the word; the ranking puts it first, then
    the documents with two matches, then those with one, of which the last
    is cut off. *)
Lemma search_ranking_witness :
  let self := manager_of apps_many in
  let rs := results (search ascii_ieq self (lit "glass") false) in
  map document (unsorted_results ascii_ieq self (lit "glass") false)
  = map (fun n => lit n)
      ["n01"; "n02"; "n03"; "n04"; "n05"; "n06"; "n07"; "n08"; "n09"; "n10";
       "n11"; "n12"; "n13"; "n14"; "n15"; "n16"; "n17"; "n18"; "n19"; "n20";
       "glass"]%string /\
  map document rs
  = map (fun n => lit n)
      ["glass"; "n02"; "n04"; "n06"; "n08"; "n10"; "n12"; "n14"; "n16"; "n18";
       "n20"; "n01"; "n03"; "n05"; "n07"; "n09"; "n11"; "n13"; "n15";
       "n17"]%string /\
  exists ranked,
    rs = take 20 ranked /\
    ranked ≡ₚ unsorted_results ascii_ieq self (lit "glass") false /\
    (forall i j a b,
       (i < j)%nat -> ranked !! i = Some a -> ranked !! j = Some b ->
       (has_filename b = true -> has_filename a = true) /\
       (has_filename a = has_filename b ->
        total_matches b <= total_matches a)) /\
    (forall (fn : bool) (n : Z),
       filter (fun r => has_filename r = fn /\ total_matches r = n) ranked =
       filter (fun r => has_filename r = fn /\ total_matches r = n)
         (unsorted_results ascii_ieq self (lit "glass") false)).
Proof.
  intros self rs.
  split; [vm_compute; reflexivity|]. split; [vm_compute; reflexivity|].
  apply (search_ranking ascii_ieq self (lit "glass") false).
Defined.

Lemma index_one_entry_per_pair_witness :
  exists m,
    new_manager markdown_headers (apps_fs apps_two) None = Ok m /\
    one_entry_per_pair (docs_cache m)
      (loaded_pairs (apps_fs apps_two) (doc_paths (manager_of apps_two))).
Proof.
  apply (proj2 (index_one_entry_per_pair markdown_headers (apps_fs apps_two))
           None).
  - vm_compute; reflexivity.
  - let l := eval vm_compute in (doc_paths (manager_of apps_two)) in
    change (doc_paths (manager_of apps_two)) with l.
    solve_listable.
  - apply Forall_forall.
    let l := eval vm_compute in (doc_paths (manager_of apps_two)) in
    change (doc_paths (manager_of apps_two)) with l.
    solve_tags_ok.
Defined.

Lemma initialize_same_keys_witness :
  exists m,
    initialize markdown_headers (apps_fs apps_two) None empty_manager = Ok m /\
    dict_keys (docs_cache m) = dict_keys (content_cache m) /\
    forall key, is_Some (dict_get key (docs_cache m)) <->
                is_Some (dict_get key (content_cache m)).
Proof.
  destruct (initialize_same_keys markdown_headers (apps_fs apps_two) None
              empty_manager eq_refl) as [_ Hkeys].
  exists (manager_of apps_two).
  assert (initialize markdown_headers (apps_fs apps_two) None empty_manager
          = Ok (manager_of apps_two)) as Hm by (vm_compute; reflexivity).
  split; [exact Hm|]. exact (Hkeys _ Hm).
Defined.

Lemma empty_corpus_search_witness :
  exists m,
    new_manager markdown_headers (apps_fs []) None = Ok m /\
    docs_cache m = [] /\ content_cache m = [] /\ doc_paths m = [] /\
    forall (q : str) (cs : bool),
      search ascii_ieq m q cs =
        {| query := q; total_results := 0; results := [] |}.
Proof.
  apply (empty_corpus_search markdown_headers (apps_fs []) ascii_ieq None).
  - reflexivity.
  - intros pattern _. eexists. split; [reflexivity|].
    intros xcode_app Hin. exfalso. simpl in Hin.
    repeat case_bool_decide; by apply elem_of_nil in Hin.
Defined.

(** Without applications, an empty value of the variable counts as no
    override and the resolution raises its configuration error. Over
    [apps_two] no query raises, and the resolution returns the two roots
    that discovery finds. *)
Lemma get_documentation_paths_spec_witness :
  (exists msg,
     Config.get_documentation_paths (apps_fs []) (Some [])
     = Raise (ValueError msg) /\
     contains (lit "/Applications") msg = true /\
     contains (lit "Xcode*.app") msg = true /\
     contains (lit "XCODE_DOC_PATH environment variable") msg = true) /\
  (exists roots,
     Config.get_documentation_paths (apps_fs apps_two) None = Ok roots /\
     roots <> [] /\
     Config.find_xcode_documentation_paths (apps_fs apps_two) = Ok roots).
Proof.
  split.
  - apply (proj1 (proj2 (get_documentation_paths_spec (apps_fs []) (Some [])))).
    split; [reflexivity|].
    intros pattern _. eexists. split; [reflexivity|].
    intros xcode_app Hin. exfalso. simpl in Hin.
    repeat case_bool_decide; by apply elem_of_nil in Hin.
  - assert (Config.find_xcode_documentation_paths (apps_fs apps_two)
            = Ok (doc_paths (manager_of apps_two))) as Hf
      by (vm_compute; reflexivity).
    apply (proj1 (proj2 (proj2 (proj2
             (get_documentation_paths_spec (apps_fs apps_two) None))))).
    + intros e. exact (find_xcode_documentation_paths_quiet _ _ e Hf).
    + intros [(p & Hp & _)|[_ Hno]]; [discriminate Hp|].
      apply find_xcode_documentation_paths_nil in Hno.
      rewrite Hf in Hno. vm_compute in Hno. discriminate Hno.
Defined.

Lemma list_documents_dedup_witness :
  exists e,
    filter (fun s => sum_name s = lit "Doc")
      (list_documents ascii_lower_str (manager_of apps_two) None) = [e] /\
    sum_name e = lit "Doc" /\
    StronglySorted (fun a b => str_leb a b = true) (xcode_versions e) /\
    NoDup (xcode_versions e) /\
    (forall t, t ∈ xcode_versions e <->
       exists key info, (key, info) ∈ docs_cache (manager_of apps_two) /\
         info_name info = lit "Doc" /\ info_xcode_source info = t) /\
    length (xcode_versions e) = 2%nat.
Proof.
  apply (list_documents_dedup ascii_lower_str (manager_of apps_two) None
           (lit "Doc")).
  - eexists _, _.
    split; [vm_compute; apply list_elem_of_here|vm_compute; reflexivity].
  - reflexivity.
Defined.


Lemma get_document_first_match_witness :
  exists key info post,
    docs_cache (manager_of apps_two) = (key, info) :: post /\
    info_xcode_source info = lit "Xcode-A.app" /\
    get_document (apps_fs apps_two) (manager_of apps_two) (lit "Doc") None
      = Ok (lit "alpha doc").
Proof.
  eexists _, _, _.
  split; [vm_compute; reflexivity|]. split; [vm_compute; reflexivity|].
  etrans.
  - refine (proj1 (get_document_first_match (apps_fs apps_two)
                     (manager_of apps_two) (lit "Doc") None [] _ _ _ _ _ _ _) _).
    + reflexivity.
    + vm_compute; reflexivity.
    + constructor.
    + vm_compute; reflexivity.
    + vm_compute. discriminate.
  - vm_compute; reflexivity.
Defined.

(** *** Runs on which the statements of the specification fail *)

(** C3 as stated fails. [Xcode.app] and [Xcode.app::Y.app] both hold a
    document of stem [W]; the corpus has four distinct (tag, stem) pairs but
    the index has three entries, because the pairs
    [(Xcode.app, Y.app::Z)] and [(Xcode.app::Y.app, Z)] have the same
    composite key: the entry under that key carries the stem [Y.app::Z]. *)
Lemma index_collision_counterexample :
  let fs := apps_fs apps_collide in
  let m := manager_of apps_collide in
  let pairs := loaded_pairs fs (doc_paths m) in
  new_manager markdown_headers fs None = Ok m /\
  Config.get_documentation_paths fs None = Ok (doc_paths m) /\
  (lit "Xcode.app", lit "W") ∈ pairs /\
  (lit "Xcode.app::Y.app", lit "W") ∈ pairs /\
  (lit "Xcode.app::Y.app", lit "Z") ∈ pairs /\
  length (remove_dups pairs) = 4%nat /\
  length (docs_cache m) = 3%nat /\
  info_name <$> dict_get (composite_key (lit "Xcode.app::Y.app") (lit "Z"))
                  (docs_cache m) = Some (lit "Y.app::Z") /\
  ~ one_entry_per_pair (docs_cache m) pairs.
Proof.
  intros fs m pairs. split_and!; try (vm_compute; reflexivity).
  - apply (bool_decide_unpack _). by vm_compute.
  - apply (bool_decide_unpack _). by vm_compute.
  - apply (bool_decide_unpack _). by vm_compute.
  - intros (_ & Hlen & _). vm_compute in Hlen. discriminate.
Qed.

(** C7 as stated fails. The override names a path of one component of 300
    characters, which is no file or folder of the table; [exists] on it
    raises the [OSError] "File name too long". Root resolution raises that
    error: it neither raises the configuration error nor returns roots, and
    [initialize], which catches the configuration error only, raises it
    too. *)
Lemma override_too_long_counterexample :
  let fs := with_name_max (apps_fs apps_two) in
  let environ := Some long_override in
  override environ = Some long_override /\
  len long_override = 301 /\
  fs_exists (apps_fs apps_two) (pathlib.Path_of_str long_override) = Ok false /\
  fs_exists fs (pathlib.Path_of_str long_override) = Raise file_name_too_long /\
  Config.get_documentation_paths fs environ = Raise file_name_too_long /\
  (forall msg,
     Config.get_documentation_paths fs environ <> Raise (ValueError msg)) /\
  (forall roots, Config.get_documentation_paths fs environ <> Ok roots) /\
  new_manager markdown_headers fs environ = Raise file_name_too_long.
Proof.
  intros fs environ.
  assert (Config.get_documentation_paths fs environ = Raise file_name_too_long)
    as Hr by (vm_compute; reflexivity).
  split_and!; try (vm_compute; reflexivity).
  - intros msg. rewrite Hr. discriminate.
  - intros roots. rewrite Hr. discriminate.
Qed.


(** C10 as stated fails. The [Doc.md] of the first installation is empty
    when the index is built and is removed afterwards: both entries match
    the name [Doc], the first inserted is that of [Xcode-A.app], and
    [get_document] returns the text of the copy of [Xcode-B.app]. *)
Lemma get_document_later_copy_counterexample :
  let m := manager_of apps_empty_first in
  new_manager markdown_headers (apps_fs apps_empty_first) None = Ok m /\
  content_cache m = [(lit "Xcode-A.app::Doc", []);
                     (lit "Xcode-B.app::Doc", lit "text of B")] /\
  dict_keys (docs_cache m) = [lit "Xcode-A.app::Doc"; lit "Xcode-B.app::Doc"] /\
  map (matches_name (lit "Doc")) (docs_cache m) = [true; true] /\
  get_document (apps_fs apps_first_removed) m (lit "Doc") None
    = Ok (lit "text of B") /\
  get_document (apps_fs apps_first_removed) m (lit "Doc") None <> Ok [].
Proof.
  intros m. split_and!; try (vm_compute; reflexivity).
  vm_compute. discriminate.
Qed.

(** * Further properties *)

(** ** Occurrences: [finditer] *)
Section SpanFacts.
Variable eqc : char -> char -> bool.

Lemma finditer_from_lower pat text pos skip s e :
  (s, e) ∈ finditer_from eqc pat text pos skip -> pos + Z.of_nat skip <= s.
Proof.
  revert pos skip. induction text as [|c text IH]; intros pos skip; simpl.
  - destruct skip; [|by rewrite elem_of_nil].
    destruct (match_here eqc pat []); [|by rewrite elem_of_nil].
    rewrite list_elem_of_singleton. intros [= -> ->]. lia.
  - destruct skip as [|k].
    + destruct (match_here eqc pat (c :: text)).
      * rewrite elem_of_cons. intros [[= -> ->]|Hin]; [lia|].
        apply IH in Hin. lia.
      * intros Hin. apply IH in Hin. lia.
    + intros Hin. apply IH in Hin. lia.
Qed.

(** Successive occurrences are apart by the length of the pattern, and by
    one character at least. *)
Lemma finditer_from_sorted pat text pos skip :
  StronglySorted (fun a b : Z * Z => a.1 + Z.max 1 (len pat) <= b.1)
    (finditer_from eqc pat text pos skip).
Proof.
  revert pos skip. induction text as [|c text IH]; intros pos skip; simpl.
  - destruct skip; [|constructor].
    destruct (match_here eqc pat []); repeat constructor.
  - destruct skip as [|k]; [|apply IH].
    destruct (match_here eqc pat (c :: text)); [|apply IH].
    constructor; [apply IH|].
    apply Forall_forall. intros [s e] Hin. simpl.
    apply finditer_from_lower in Hin. unfold len. lia.
Qed.


(** There is an occurrence exactly when [search] finds the pattern. *)
Lemma finditer_from_nil pat text pos :
  finditer_from eqc pat text pos 0 = [] <-> re_search eqc pat text = false.
Proof.
  revert pos. induction text as [|c text IH]; intros pos; simpl.
  - destruct (match_here eqc pat []); simpl; split; done.
  - destruct (match_here eqc pat (c :: text)); simpl; [split; done|].
    apply IH.
Qed.
End SpanFacts.

(** ** The match list of a document *)
Section MatchListFacts.
Variable ieq : char -> char -> bool.

Lemma content_loop_shape text spans ms :
  content_loop text spans ms =
  ms ++ map (content_match text) (take (Z.to_nat (5 - len ms)) spans).
Proof.
  revert ms. induction spans as [|[s e] spans IH]; intros ms; simpl.
  - by rewrite take_nil, app_nil_r.
  - destruct (5 <=? len ms) eqn:E.
    + apply Z.leb_le in E.
      replace (Z.to_nat (5 - len ms)) with 0%nat by lia.
      by rewrite app_nil_r.
    + apply Z.leb_gt in E. rewrite IH.
      replace (Z.to_nat (5 - len ms))
        with (S (Z.to_nat (5 - len (ms ++ [content_match text (s, e)]))))
        by (unfold len in *; rewrite length_app; simpl; lia).
      simpl. by rewrite <- app_assoc.
Qed.

(** The spans that the loop of [search] runs over: none for an empty
    text. *)
Lemma doc_matches_shape q cs doc_name text :
  let eqc := chr_eq ieq cs in
  let fn := if re_search eqc q doc_name then [filename_match doc_name]
            else [] in
  let spans := match text with
               | [] => []
               | _ => finditer eqc q text
               end in
  doc_matches ieq q cs doc_name text =
  fn ++ map (content_match text) (take (Z.to_nat (5 - len fn)) spans).
Proof.
  intros eqc fn spans. unfold doc_matches. fold eqc. fold (filename_match doc_name).
  fold fn. destruct text as [|c text].
  - subst spans. by rewrite take_nil, app_nil_r.
  - apply content_loop_shape.
Qed.

Lemma finditer_nil (eqc : char -> char -> bool) pat text :
  finditer eqc pat text = [] <-> re_search eqc pat text = false.
Proof. apply finditer_from_nil. Qed.

Lemma doc_result_is_Some self q cs item :
  is_Some (doc_result ieq self q cs item) <->
  query_occurs ieq self q cs item = true.
Proof.
  destruct item as [key info]. unfold doc_result, query_occurs.
  cbv beta iota zeta. unfold fst.
  generalize (default [] (dict_get key (content_cache self))). intros text.
  rewrite (doc_matches_shape q cs (doc_name_of_key key) text).
  cbv zeta.
  destruct (re_search (chr_eq ieq cs) q (doc_name_of_key key)) eqn:Hn.
  { split; [done|]. intros _. simpl. eauto. }
  rewrite app_nil_l, orb_false_l.
  replace (Z.to_nat (5 - len (@nil Match))) with 5%nat by done.
  destruct text as [|c text].
  { split; [by intros [? ?]|done]. }
  rewrite bool_decide_eq_false_2 by done. cbv iota. rewrite andb_true_l.
  destruct (finditer (chr_eq ieq cs) q (c :: text)) as [|sp sps] eqn:E.
  - apply finditer_nil in E. rewrite E. split; [by intros [? ?]|done].
  - destruct (re_search (chr_eq ieq cs) q (c :: text)) eqn:Hs.
    + split; [done|]. intros _. simpl. eauto.
    + apply finditer_nil in Hs. congruence.
Qed.

Lemma omap_length_filter {A B} (f : A -> option B) (P : A -> Prop)
    `{!forall x, Decision (P x)} (l : list A) :
  (forall x, is_Some (f x) <-> P x) ->
  length (omap f l) = length (filter P l).
Proof.
  intros Hf. induction l as [|x l IH]; [done|].
  rewrite filter_cons.
  change (omap f (x :: l))
    with (match f x with Some y => y :: omap f l | None => omap f l end).
  destruct (f x) eqn:E.
  - rewrite decide_True by (apply Hf; eauto). simpl length. by rewrite IH.
  - rewrite decide_False; [done|]. intros HP. apply Hf in HP as [? ?].
    congruence.
Qed.

(** X1. [total_results] counts the index entries in whose name, or in whose
    non-empty cached text, the query occurs: all of them, not only those
    listed. The list of results holds the first 20 of them at most, so its
    length is the smaller of [total_results] and 20. *)
Theorem search_total_results (self : LocalDocsManager) (q : str) (cs : bool) :
  let resp := search ieq self q cs in
  total_results resp =
    len (filter (fun item => query_occurs ieq self q cs item = true)
           (docs_cache self)) /\
  len (results resp) = Z.min (total_results resp) 20 /\
  total_results resp <= len (docs_cache self) /\
  query resp = q.
Proof.
  unfold search. simpl. rewrite slice_0 by lia.
  set (sorted := sort_by _ _ _).
  assert (len sorted =
          len (filter (fun item => query_occurs ieq self q cs item = true)
                 (docs_cache self))) as Hlen.
  { unfold len. f_equal. subst sorted. rewrite sort_by_perm.
    unfold unsorted_results. apply omap_length_filter.
    intros item. apply doc_result_is_Some. }
  split_and!; [done| | |done].
  - unfold len. rewrite length_take. lia.
  - rewrite Hlen. unfold len. pose proof (length_filter
      (fun item => query_occurs ieq self q cs item = true) (docs_cache self)).
    lia.
Qed.
End MatchListFacts.

(** ** Stripping and collapsing white space *)

Lemma lstrip_length (s : str) : (length (lstrip s) <= length s)%nat.
Proof.
  induction s as [|c s IH]; simpl; [done|].
  destruct (isspace c); simpl; lia.
Qed.

Lemma lstrip_starts (s : str) : starts_with_space (lstrip s) = false.
Proof.
  induction s as [|c s IH]; simpl; [done|].
  destruct (isspace c) eqn:E; [done|]. simpl. done.
Qed.

Lemma lstrip_snoc (s : str) (c : char) :
  isspace c = false -> lstrip (s ++ [c]) = lstrip s ++ [c].
Proof.
  intros Hc. induction s as [|a s IH]; simpl.
  - by rewrite Hc.
  - destruct (isspace a); done.
Qed.

Lemma rstrip_cons (c : char) (s : str) :
  isspace c = false -> rstrip (c :: s) = c :: rstrip s.
Proof.
  intros Hc. unfold rstrip.
  by rewrite reverse_cons, lstrip_snoc, reverse_snoc.
Qed.

Lemma rstrip_length (s : str) : (length (rstrip s) <= length s)%nat.
Proof.
  unfold rstrip. rewrite length_reverse.
  etrans; [apply lstrip_length|]. by rewrite length_reverse.
Qed.

Lemma strip_length (s : str) : (length (strip s) <= length s)%nat.
Proof.
  unfold strip. etrans; [apply rstrip_length|]. apply lstrip_length.
Qed.

Lemma strip_starts (s : str) : starts_with_space (strip s) = false.
Proof.
  unfold strip. pose proof (lstrip_starts s) as H.
  destruct (lstrip s) as [|c t]; [done|].
  simpl in H. by rewrite rstrip_cons.
Qed.

Lemma strip_ends (s : str) : starts_with_space (reverse (strip s)) = false.
Proof.
  unfold strip, rstrip. rewrite reverse_involutive. apply lstrip_starts.
Qed.

Lemma starts_with_space_reverse (s : str) :
  starts_with_space (reverse s) = from_option isspace false (last s).
Proof.
  rewrite <- head_reverse. by destruct (reverse s).
Qed.

Lemma collapse_ws_length (b : bool) (s : str) :
  (length (collapse_ws b s) <= length s)%nat.
Proof.
  revert b. induction s as [|c s IH]; intros b; simpl; [done|].
  pose proof (IH true). pose proof (IH false).
  destruct (isspace c), b; simpl; lia.
Qed.

Lemma collapse_ws_only_space (b : bool) (s : str) :
  Forall (fun c => isspace c = true -> c = 32%N) (collapse_ws b s).
Proof.
  revert b. induction s as [|c s IH]; intros b; simpl; [constructor|].
  destruct (isspace c) eqn:E.
  - destruct b; [apply IH|]. constructor; [done|apply IH].
  - constructor; [congruence|apply IH].
Qed.

Lemma collapse_ws_no_adjacent (b : bool) (s : str) :
  no_adjacent_space (collapse_ws b s) /\
  (b = true -> starts_with_space (collapse_ws b s) = false).
Proof.
  revert b. induction s as [|c s IH]; intros b; simpl; [done|].
  destruct (isspace c) eqn:E.
  - destruct (IH true) as [Hadj Hstart]. destruct b; [done|].
    split; [|done]. specialize (Hstart eq_refl).
    destruct (collapse_ws true s) as [|a t] eqn:Eout; [done|].
    simpl in Hstart. split; [|done]. intros [_ Ha]. congruence.
  - destruct (IH false) as [Hadj _]. split; [|done].
    destruct (collapse_ws false s) as [|a t] eqn:Eout; [done|].
    split; [|done]. intros [Hc _]. congruence.
Qed.

Lemma collapse_ws_starts (s : str) :
  starts_with_space s = false ->
  starts_with_space (collapse_ws false s) = false.
Proof.
  destruct s as [|c s]; simpl; [done|]. intros Hc. rewrite Hc. exact Hc.
Qed.

Lemma collapse_ws_last (b : bool) (s : str) (c : char) :
  last s = Some c -> isspace c = false -> last (collapse_ws b s) = Some c.
Proof.
  intros Hlast Hc. revert b. induction s as [|a s IH]; intros b; [done|].
  destruct s as [|a' s'].
  - simpl in Hlast. injection Hlast as ->. simpl. by rewrite Hc.
  - assert (last (a' :: s') = Some c) as Hl by done.
    assert (forall x l, last l = Some c -> last (x :: l) = Some c) as Hcons.
    { intros x [|y l]; [done|]. done. }
    change (collapse_ws b (a :: a' :: s')) with
      (if isspace a
       then (if b then collapse_ws true (a' :: s')
             else 32%N :: collapse_ws true (a' :: s'))
       else a :: collapse_ws false (a' :: s')).
    destruct (isspace a); [destruct b|]; auto.
Qed.

(** Stripping and then collapsing gives a normalised string. *)
Lemma strip_collapse_normalized (s : str) :
  ws_normalized (sub_whitespace (strip s)).
Proof.
  unfold ws_normalized, sub_whitespace. split_and!.
  - apply collapse_ws_starts, strip_starts.
  - rewrite starts_with_space_reverse.
    pose proof (strip_ends s) as Hend.
    rewrite starts_with_space_reverse in Hend.
    destruct (last (strip s)) as [c|] eqn:El.
    + simpl in Hend. by rewrite (collapse_ws_last false _ c El Hend).
    + apply last_None in El. by rewrite El.
  - apply collapse_ws_no_adjacent.
  - apply collapse_ws_only_space.
Qed.

Lemma match_context_length (text : str) (s e : Z) :
  s <= e -> len (match_context text s e) <= (e - s) + 100.
Proof.
  intros Hse. unfold match_context, sub_whitespace, slice, len.
  pose proof (collapse_ws_length false
    (strip (take (Z.to_nat (Z.min (Z.of_nat (length text)) (e + 50)
                            - Z.max 0 (s - 50)))
              (drop (Z.to_nat (Z.max 0 (s - 50))) text)))) as H1.
  pose proof (strip_length
    (take (Z.to_nat (Z.min (Z.of_nat (length text)) (e + 50)
                     - Z.max 0 (s - 50)))
       (drop (Z.to_nat (Z.max 0 (s - 50))) text))) as H2.
  rewrite length_take in H2. lia.
Qed.

(** ** The results of [search] *)
Section ResultFacts.
Variable ieq : char -> char -> bool.

(** A result of [search] comes from an index entry, and its match list is
    the filename match, if the query occurs in the name, followed by the
    content matches of the first occurrences. *)
Lemma search_result_shape self q cs r :
  r ∈ results (search ieq self q cs) ->
  exists key info,
    (key, info) ∈ docs_cache self /\
    document r = doc_name_of_key key /\
    xcode_version r = info_xcode_source info /\
    total_matches r = len (matches r) /\
    matches r <> [] /\
    let eqc := chr_eq ieq cs in
    let text := default [] (dict_get key (content_cache self)) in
    let fn := if re_search eqc q (document r)
              then [filename_match (document r)] else [] in
    let spans := match text with
                 | [] => []
                 | _ => finditer eqc q text
                 end in
    matches r =
      fn ++ map (content_match text) (take (Z.to_nat (5 - len fn)) spans).
Proof.
  intros Hr. unfold search in Hr.
  apply search_results_elem, unsorted_results_elem in Hr
    as (key & info & Hin & Hr).
  apply doc_result_Some in Hr as (Hdoc & Hx & Hms & Ht & Hne).
  exists key, info. split_and!; try done.
  rewrite Hms, Hdoc. apply doc_matches_shape.
Qed.

Lemma existsb_content_match text spans :
  existsb (fun m => bool_decide (m_type m = type_filename))
    (map (content_match text) spans) = false.
Proof. induction spans as [|sp spans IH]; simpl; done. Qed.

(** X2. In every result the match list is not empty and [total_matches] is
    its length. A filename match is present exactly when the query occurs in
    the document name; it is then the first match and the only filename
    match, its context is the document name and it has no position. All
    other matches are content matches and carry a position. *)
Theorem search_match_list_structure (self : LocalDocsManager) (q : str)
    (cs : bool) (r : DocResult) :
  r ∈ results (search ieq self q cs) ->
  total_matches r = len (matches r) /\
  1 <= total_matches r /\
  (has_filename r = true <->
   re_search (chr_eq ieq cs) q (document r) = true) /\
  exists contents,
    matches r =
      (if has_filename r then [filename_match (document r)] else [])
      ++ contents /\
    Forall (fun m => m_type m = type_content /\ is_Some (m_position m))
      contents.
Proof.
  intros Hr.
  destruct (search_result_shape self q cs r Hr)
    as (key & info & _ & _ & _ & Ht & Hne & Hshape).
  cbv zeta in Hshape.
  set (contents := map _ _) in Hshape.
  assert (Forall (fun m => m_type m = type_content /\ is_Some (m_position m))
            contents) as Hcontents.
  { subst contents. apply Forall_forall. intros m Hm.
    apply list_elem_of_fmap in Hm as (sp & -> & _). simpl. eauto. }
  assert (has_filename r = re_search (chr_eq ieq cs) q (document r)) as Hfn.
  { unfold has_filename. rewrite Hshape.
    destruct (re_search (chr_eq ieq cs) q (document r)); simpl;
      [done|apply existsb_content_match]. }
  split_and!; [done| |by rewrite Hfn|].
  - rewrite Ht. unfold len. destruct (matches r); [done|]. simpl. lia.
  - exists contents. by rewrite Hfn.
Qed.

Lemma omap_position_content text spans :
  omap m_position (map (content_match text) spans) = spans.*1.
Proof. induction spans as [|sp spans IH]; csimpl; [done|]. by rewrite IH. Qed.

Lemma StronglySorted_take {A} (R : A -> A -> Prop) (n : nat) (l : list A) :
  StronglySorted R l -> StronglySorted R (take n l).
Proof.
  intros Hs. rewrite <- (take_drop n l) in Hs.
  by apply StronglySorted_app_1_l in Hs.
Qed.

Lemma result_positions self q cs r :
  r ∈ results (search ieq self q cs) ->
  exists key info,
    (key, info) ∈ docs_cache self /\
    document r = doc_name_of_key key /\
    let text := default [] (dict_get key (content_cache self)) in
    exists n,
      omap m_position (matches r) =
        (take n (match text with
                 | [] => []
                 | _ => finditer (chr_eq ieq cs) q text
                 end)).*1.
Proof.
  intros Hr.
  destruct (search_result_shape self q cs r Hr)
    as (key & info & Hin & Hdoc & _ & _ & _ & Hshape).
  exists key, info. split_and!; try done. cbv zeta in *.
  rewrite Hshape, omap_app, omap_position_content.
  destruct (re_search _ _ _); eexists; reflexivity.
Qed.

(** X3. The positions of the content matches of a result increase from one
    match to the next by at least the length of the query, and by at least
    one: the reported occurrences do not overlap. *)
Theorem search_positions_increase (self : LocalDocsManager) (q : str)
    (cs : bool) (r : DocResult) :
  r ∈ results (search ieq self q cs) ->
  StronglySorted (fun p p' => p + Z.max 1 (len q) <= p')
    (omap m_position (matches r)).
Proof.
  intros Hr.
  destruct (result_positions self q cs r Hr) as (key & info & _ & _ & n & ->).
  apply (StronglySorted_fmap fst
           (fun a b : Z * Z => a.1 + Z.max 1 (len q) <= b.1)); [done|].
  apply StronglySorted_take.
  destruct (default [] (dict_get key (content_cache self))); [constructor|].
  apply finditer_from_sorted.
Qed.



Lemma result_content_match self q cs r m :
  r ∈ results (search ieq self q cs) ->
  m ∈ matches r ->
  m_type m = type_content ->
  exists key info s,
    (key, info) ∈ docs_cache self /\
    document r = doc_name_of_key key /\
    let text := default [] (dict_get key (content_cache self)) in
    0 <= s <= len text /\
    match_here (chr_eq ieq cs) q (drop (Z.to_nat s) text) = true /\
    m = content_match text (s, s + len q).
Proof.
  intros Hr Hm Hty.
  apply search_results_elem, unsorted_results_elem in Hr
    as (key & info & Hin & Hr).
  apply doc_result_Some in Hr as (Hdoc & _ & Hms & _ & _).
  rewrite Hms in Hm.
  apply doc_matches_content in Hm as (s & e & Hspan & ->); [|done].
  apply finditer_spec in Hspan as (Hs & -> & Hmatch).
  exists key, info, s. done.
Qed.


(** X6. The context of a content match is at most 100 characters longer
    than the query. *)
Theorem search_context_length (self : LocalDocsManager) (q : str) (cs : bool)
    (r : DocResult) (m : Match) :
  r ∈ results (search ieq self q cs) ->
  m ∈ matches r ->
  m_type m = type_content ->
  len (m_context m) <= len q + 100.
Proof.
  intros Hr Hm Hty.
  destruct (result_content_match self q cs r m Hr Hm Hty)
    as (key & info & s & _ & _ & _ & _ & ->).
  simpl. etrans; [apply match_context_length|]; unfold len; lia.
Qed.

(** X7. The context of a content match is normalised: it neither starts nor
    ends with white space, no two white-space characters are adjacent, and
    every white-space character in it is a plain space, whatever white space
    (line breaks, tabs, runs of spaces) the document has around the match. *)
Theorem search_context_normalized (self : LocalDocsManager) (q : str)
    (cs : bool) (r : DocResult) (m : Match) :
  r ∈ results (search ieq self q cs) ->
  m ∈ matches r ->
  m_type m = type_content ->
  ws_normalized (m_context m).
Proof.
  intros Hr Hm Hty.
  destruct (result_content_match self q cs r m Hr Hm Hty)
    as (key & info & s & _ & _ & _ & _ & ->).
  apply strip_collapse_normalized.
Qed.
End ResultFacts.

(** ** The listing and the installation tags *)

Lemma StronglySorted_NoDup_strict {A} (R : A -> A -> Prop) (l : list A) :
  StronglySorted R l -> NoDup l ->
  StronglySorted (fun a b => R a b /\ a <> b) l.
Proof.
  induction 1 as [|x l Hs IH Hx]; intros Hnd; [constructor|].
  apply NoDup_cons in Hnd as [Hnotin Hnd].
  constructor; [by apply IH|].
  apply Forall_forall. intros y Hy. split.
  - rewrite Forall_forall in Hx. by apply Hx.
  - intros ->. done.
Qed.

Section ListingFacts.
Variable lower : str -> str.

Lemma filtered_out_None doc_name : filtered_out lower None doc_name = false.
Proof. done. Qed.

(** Where an entry of the listing comes from: the first index entry of its
    name, which the filter lets through. *)
Lemma list_documents_loop_origin self filter_str items documents seen_names e :
  e ∈ list_documents_loop lower self filter_str items documents seen_names ->
  e ∈ documents \/
  exists pre key info post,
    items = pre ++ (key, info) :: post /\
    Forall (fun item : str * DocInfo => info_name item.2 <> info_name info) pre /\
    (info_name info ∉ seen_names) /\
    filtered_out lower filter_str (info_name info) = false /\
    e = {| sum_name := info_name info;
           sum_topics := info_topics info;
           sum_size := info_size info;
           xcode_versions := _get_versions_for_doc self (info_name info) |}.
Proof.
  revert documents seen_names.
  induction items as [|[key info] items IH]; intros documents seen_names;
    simpl; [by left|].
  case_bool_decide as Hs.
  { intros He. destruct (IH _ _ He)
      as [?|(pre & k & i & post & -> & Hpre & Hnot & Hf & ->)]; [by left|].
    right. exists ((key, info) :: pre), k, i, post. split_and!; try done.
    constructor; [|done]. simpl. intros Heq. rewrite Heq in Hs. done. }
  destruct (filtered_out lower filter_str (info_name info)) eqn:Hf.
  { intros He. destruct (IH _ _ He)
      as [?|(pre & k & i & post & -> & Hpre & Hnot & Hf' & ->)]; [by left|].
    right. exists ((key, info) :: pre), k, i, post. split_and!; try done.
    constructor; [|done]. simpl. intros Heq. rewrite Heq in Hf. congruence. }
  intros He. destruct (IH _ _ He)
    as [Hin|(pre & k & i & post & -> & Hpre & Hnot & Hf' & ->)].
  - apply elem_of_app in Hin as [?|Hin]; [by left|].
    apply list_elem_of_singleton in Hin as ->.
    right. exists [], key, info, items. split_and!; try done.
  - right. exists ((key, info) :: pre), k, i, post.
    apply not_elem_of_union in Hnot as [Hne Hnot].
    split_and!; try done.
    constructor; [|done]. simpl. intros Heq. apply Hne.
    rewrite Heq. by apply elem_of_singleton.
Qed.

Lemma list_documents_elem self filter_str e :
  e ∈ list_documents lower self filter_str <->
  e ∈ list_documents_loop lower self filter_str (docs_cache self) [] ∅.
Proof. unfold list_documents. by rewrite sort_by_perm. Qed.

Lemma listing_inv_empty self : listing_inv self [] ∅.
Proof.
  split_and!; [|constructor|].
  - intros n. simpl. rewrite elem_of_nil. split; [|done].
    by intros ?%not_elem_of_empty.
  - intros e He. by apply elem_of_nil in He.
Qed.

(** X8. The output of [list_documents] is in strictly ascending order of
    name, so no name is listed twice, and the names listed are exactly the
    names of the index entries that the filter does not exclude. *)
Theorem list_documents_names (self : LocalDocsManager)
    (filter_str : option str) :
  let names := map sum_name (list_documents lower self filter_str) in
  StronglySorted (fun a b => str_leb a b = true /\ a <> b) names /\
  forall n, n ∈ names <->
    (exists key info, (key, info) ∈ docs_cache self /\ info_name info = n) /\
    filtered_out lower filter_str n = false.
Proof.
  intros names.
  destruct (list_documents_loop_spec lower self filter_str (docs_cache self)
              [] ∅ (listing_inv_empty self)) as (Hnd & _ & Hall & _).
  split.
  - apply StronglySorted_NoDup_strict.
    + subst names. unfold list_documents.
      apply (StronglySorted_fmap sum_name
               (fun a b => str_leb (sum_name a) (sum_name b) = true));
        [done|].
      apply (sort_by_sorted sum_name str_leb str_leb_total str_leb_trans).
    + subst names. unfold list_documents. by rewrite sort_by_perm.
  - intros n. subst names. split.
    + intros Hn. apply list_elem_of_fmap in Hn as (e & -> & He).
      apply list_documents_elem, list_documents_loop_origin in He
        as [He|(pre & k & i & post & Hdocs & _ & _ & Hf & ->)];
        [by apply elem_of_nil in He|].
      simpl. split; [|done]. exists k, i. split; [|done].
      rewrite Hdocs, elem_of_app. right. by left.
    + intros [(key & info & Hin & <-) Hf].
      unfold list_documents. rewrite sort_by_perm. by eapply Hall.
Qed.

(** X9. Every entry of the listing takes its topics and its size from the
    first index entry, in insertion order, that has its name; its tags are
    those of all the entries of that name. *)
Theorem list_documents_first_entry (self : LocalDocsManager)
    (filter_str : option str) (e : Summary) :
  e ∈ list_documents lower self filter_str ->
  exists pre key info post,
    docs_cache self = pre ++ (key, info) :: post /\
    Forall (fun item : str * DocInfo => info_name item.2 <> sum_name e) pre /\
    info_name info = sum_name e /\
    sum_topics e = info_topics info /\
    sum_size e = info_size info /\
    xcode_versions e = _get_versions_for_doc self (sum_name e).
Proof.
  intros He.
  apply list_documents_elem, list_documents_loop_origin in He
    as [He|(pre & k & i & post & Hdocs & Hpre & _ & _ & ->)];
    [by apply elem_of_nil in He|].
  exists pre, k, i, post. done.
Qed.

(** X10. [get_xcode_versions] returns, in strictly ascending order, the
    tags of the index entries, and these are exactly the tags attached to
    the entries of the unfiltered listing. *)
Theorem get_xcode_versions_spec (self : LocalDocsManager) :
  StronglySorted (fun a b => str_leb a b = true /\ a <> b)
    (get_xcode_versions self) /\
  (forall t, t ∈ get_xcode_versions self <->
     exists key info, (key, info) ∈ docs_cache self /\
       info_xcode_source info = t) /\
  (forall t, t ∈ get_xcode_versions self <->
     exists e, e ∈ list_documents lower self None /\ t ∈ xcode_versions e).
Proof.
  unfold get_xcode_versions.
  destruct (sorted_set_spec
              (map (fun item : str * DocInfo => info_xcode_source item.2)
                 (docs_cache self))) as (Hsorted & Hnd & Helem & _).
  assert (forall t,
            t ∈ sorted_set (map (fun item : str * DocInfo =>
                                   info_xcode_source item.2) (docs_cache self))
            <-> exists key info, (key, info) ∈ docs_cache self /\
                  info_xcode_source info = t) as Hmem.
  { intros t. rewrite Helem, list_elem_of_fmap. split.
    - intros ([key info] & -> & Hin). eauto.
    - intros (key & info & Hin & <-). by exists (key, info). }
  split_and!; [by apply StronglySorted_NoDup_strict|done|].
  intros t. rewrite Hmem. split.
  - intros (key & info & Hin & <-).
    destruct (list_documents_loop_spec lower self None (docs_cache self)
                [] ∅ (listing_inv_empty self)) as (_ & Hver & Hall & _).
    specialize (Hall key info Hin eq_refl).
    apply list_elem_of_fmap in Hall as (e & He & Hein).
    exists e. split; [by apply list_documents_elem|].
    rewrite (Hver e Hein). unfold _get_versions_for_doc.
    apply sorted_set_spec, elem_of_collect_versions. eauto.
  - intros (e & He & Ht).
    apply list_documents_elem in He.
    destruct (list_documents_loop_spec lower self None (docs_cache self)
                [] ∅ (listing_inv_empty self)) as (_ & Hver & _ & _).
    rewrite (Hver e He) in Ht. unfold _get_versions_for_doc in Ht.
    apply sorted_set_spec, elem_of_collect_versions in Ht
      as (key & info & Hin & _ & Hx). eauto.
Qed.
End ListingFacts.

(** ** Retrieval *)
Section RetrievalFacts.

Lemma get_document_loop_step fs self key info items name version :
  get_document_loop fs self ((key, info) :: items) name version =
  if serves name version (key, info) then
    match default [] (dict_get key (content_cache self)) with
    | (_ :: _) as text => Some (Ok text)
    | [] =>
        match fs_exists fs (pathlib.Path_of_str (info_path info)) with
        | Raise e => Some (Raise e)
        | Ok true =>
            Some (fs_read_text fs (pathlib.Path_of_str (info_path info)))
        | Ok false => get_document_loop fs self items name version
        end
    end
  else get_document_loop fs self items name version.
Proof.
  unfold serves, matches_name. simpl.
  destruct (bool_decide (doc_name_of_key key = name)
            || bool_decide (info_name info = name)); [|done].
  destruct (truthy version); simpl; [|done].
  by destruct (bool_decide (version = Some (info_xcode_source info))).
Qed.

Lemma get_document_loop_none fs self items name version :
  Forall (fun item => serves name version item = false) items ->
  get_document_loop fs self items name version = None.
Proof.
  induction 1 as [|[key info] items Hs _ IH]; [done|].
  by rewrite get_document_loop_step, Hs.
Qed.

Lemma get_document_loop_sound fs self items name version r :
  get_document_loop fs self items name version = Some r ->
  exists key info,
    (key, info) ∈ items /\
    serves name version (key, info) = true /\
    let text := default [] (dict_get key (content_cache self)) in
    let doc_path := pathlib.Path_of_str (info_path info) in
    (text <> [] /\ r = Ok text) \/
    (text = [] /\ fs_exists fs doc_path = Ok true /\
     r = fs_read_text fs doc_path) \/
    (text = [] /\ exists e, fs_exists fs doc_path = Raise e /\ r = Raise e).
Proof.
  induction items as [|[key info] items IH]; [done|].
  rewrite get_document_loop_step.
  destruct (serves name version (key, info)) eqn:Hs.
  - destruct (default [] (dict_get key (content_cache self)))
      as [|c text] eqn:Ht.
    + destruct (fs_exists fs (pathlib.Path_of_str (info_path info)))
        as [[|]|e] eqn:Hex.
      * intros [= <-]. exists key, info. split; [by left|]. split; [done|].
        right. left. by rewrite Ht.
      * intros Hr. destruct (IH Hr) as (k & i & Hin & ?).
        exists k, i. split; [by right|done].
      * intros [= <-]. exists key, info. split; [by left|]. split; [done|].
        right. right. rewrite Ht. eauto.
    + intros [= <-]. exists key, info. split; [by left|]. split; [done|].
      left. by rewrite Ht.
  - intros Hr. destruct (IH Hr) as (k & i & Hin & ?).
    exists k, i. split; [by right|done].
Qed.

(** X11. When no index entry answers the request (none has the name, or
    none of that name belongs to the requested installation), in particular
    on an empty index, [get_document] returns the not-found message, which
    names the document and the requested installation; it does not raise
    and does not touch the disk. *)
Theorem get_document_not_found (fs : FileSystem) (self : LocalDocsManager)
    (name : str) (version : option str) :
  Forall (fun item => serves name version item = false) (docs_cache self) ->
  get_document fs self name version =
    Ok (lit "Document '" ++ name ++ lit "' not found"
        ++ (if truthy version then lit " in " ++ default [] version else [])).
Proof.
  intros Hnone. unfold get_document.
  rewrite get_document_loop_none by done.
  unfold not_found_message. by destruct version as [[|c v]|].
Qed.

(** X12. What [get_document] returns is the not-found message or comes from
    an index entry whose name matches and, when an installation is
    requested, whose installation is the requested one: the non-empty cached
    text of that entry, or, when the cached text is empty, what reading the
    file at the stored path of that entry gives, or the error that [exists]
    raises on that path. It never returns the text of a document of another
    name or of another installation. *)
Theorem get_document_sound (fs : FileSystem) (self : LocalDocsManager)
    (name : str) (version : option str) :
  get_document fs self name version = Ok (not_found_message name version) \/
  exists key info,
    (key, info) ∈ docs_cache self /\
    matches_name name (key, info) = true /\
    (truthy version = true -> version = Some (info_xcode_source info)) /\
    let text := default [] (dict_get key (content_cache self)) in
    let doc_path := pathlib.Path_of_str (info_path info) in
    (text <> [] /\ get_document fs self name version = Ok text) \/
    (text = [] /\ fs_exists fs doc_path = Ok true /\
     get_document fs self name version = fs_read_text fs doc_path) \/
    (text = [] /\ exists e, fs_exists fs doc_path = Raise e /\
     get_document fs self name version = Raise e).
Proof.
  unfold get_document.
  destruct (get_document_loop fs self (docs_cache self) name version)
    as [r|] eqn:E; [|by left].
  right. apply get_document_loop_sound in E
    as (key & info & Hin & Hs & Hr).
  exists key, info. unfold serves in Hs.
  apply andb_true_iff in Hs as [Hm Hv].
  split_and!; try done.
  intros Ht. rewrite Ht in Hv. simpl in Hv. by apply bool_decide_eq_true in Hv.
Qed.

Lemma get_document_loop_disk (fs1 fs2 : FileSystem) self items name version :
  (forall key info,
     (key, info) ∈ items ->
     serves name version (key, info) = true ->
     default [] (dict_get key (content_cache self)) = [] ->
     let doc_path := pathlib.Path_of_str (info_path info) in
     fs_exists fs1 doc_path = fs_exists fs2 doc_path /\
     fs_read_text fs1 doc_path = fs_read_text fs2 doc_path) ->
  get_document_loop fs1 self items name version =
  get_document_loop fs2 self items name version.
Proof.
  induction items as [|[key info] items IH]; intros Hagree; [done|].
  rewrite !get_document_loop_step.
  assert (get_document_loop fs1 self items name version =
          get_document_loop fs2 self items name version) as Hrest.
  { apply IH. intros k i Hin. apply Hagree. by right. }
  destruct (serves name version (key, info)) eqn:Hs; [|done].
  destruct (default [] (dict_get key (content_cache self))) as [|c t] eqn:Ht;
    [|done].
  destruct (Hagree key info (list_elem_of_here _ _) Hs Ht) as [-> ->].
  by rewrite Hrest.
Qed.

(** X13. The result of [get_document] depends on the disk only through the
    stored paths of the entries that answer the request and have an empty
    cached text: two file systems that agree on those paths give the same
    result. When every such entry has a cached text the disk is not read. *)
Theorem get_document_disk (fs1 fs2 : FileSystem) (self : LocalDocsManager)
    (name : str) (version : option str) :
  (forall key info,
     (key, info) ∈ docs_cache self ->
     serves name version (key, info) = true ->
     default [] (dict_get key (content_cache self)) = [] ->
     let doc_path := pathlib.Path_of_str (info_path info) in
     fs_exists fs1 doc_path = fs_exists fs2 doc_path /\
     fs_read_text fs1 doc_path = fs_read_text fs2 doc_path) ->
  get_document fs1 self name version = get_document fs2 self name version.
Proof.
  intros Hagree. unfold get_document.
  by rewrite (get_document_loop_disk fs1 fs2 self (docs_cache self)).
Qed.
End RetrievalFacts.

(** ** Roots and tags *)

(** X14. Every root that the resolution returns exists. A root found by
    discovery is moreover the documentation folder of an application that
    one of the patterns finds under [/Applications], it is a directory and
    it holds at least one markdown file. An override is only checked for
    existence. *)
Theorem get_documentation_paths_roots (fs : FileSystem)
    (environ : option str) (roots : list Path) (p : Path) :
  Config.get_documentation_paths fs environ = Ok roots ->
  p ∈ roots ->
  fs_exists fs p = Ok true /\
  (override environ = None ->
   fs_is_dir fs p = Ok true /\
   (exists files, fs_glob fs p (lit "*.md") = Ok files /\ files <> []) /\
   exists pattern apps xcode_app,
     pattern ∈ Config.XCODE_PATTERNS /\
     fs_glob fs Config.APPLICATIONS_DIR pattern = Ok apps /\
     xcode_app ∈ apps /\
     p = pathlib.joinpath xcode_app Config.DOC_SUBPATH).
Proof.
  intros Hroots Hp.
  destruct (override environ) as [o|] eqn:Hov.
  - rewrite (get_documentation_paths_override fs environ o Hov) in Hroots.
    destruct (fs_exists fs (pathlib.Path_of_str o)) as [[|]|e] eqn:Hex;
      try done.
    injection Hroots as <-. apply list_elem_of_singleton in Hp as ->.
    split; [done|]. intros Hno. discriminate Hno.
  - rewrite (get_documentation_paths_discovery fs environ Hov) in Hroots.
    destruct (Config.find_xcode_documentation_paths fs) as [[|d ds]|e] eqn:Hf;
      try done.
    injection Hroots as <-.
    apply (elem_of_find_xcode_documentation_paths fs _ _ Hf) in Hp
      as (pattern & apps & app & Hpat & Hg & Happ & Heq & Hq).
    apply qualifies_true in Hq as (Hex & Hdir & Hmd).
    split; [done|]. intros _. split_and!; try done.
    exists pattern, apps, app. done.
Qed.

Lemma list_find_cons_true {A} (P : A -> Prop) `{!forall x, Decision (P x)}
    (x : A) (l : list A) :
  P x -> list_find P (x :: l) = Some (0%nat, x).
Proof. intros HP. simpl. by rewrite decide_True. Qed.

Lemma list_find_cons_false {A} (P : A -> Prop) `{!forall x, Decision (P x)}
    (x : A) (l : list A) :
  ~ P x -> list_find P (x :: l) = prod_map S id <$> list_find P l.
Proof. intros HP. simpl. by rewrite decide_False. Qed.

(** X15. The tag of the documentation folder of an application directly
    under [/Applications] is the name of the application directory,
    whatever that name is: by its [.app] suffix when it has one, by the
    third component of the path otherwise. *)
Theorem get_xcode_name_of_application (app_name : str) :
  Config.get_xcode_name_from_path
    (pathlib.joinpath (Config.APPLICATIONS_DIR ++ [app_name])
       Config.DOC_SUBPATH) = app_name.
Proof.
  unfold Config.get_xcode_name_from_path.
  set (path := pathlib.joinpath _ _).
  assert (path = [lit "/"; lit "Applications"; app_name; lit "Contents";
                  lit "PlugIns"; lit "IDEIntelligenceChat.framework";
                  lit "Versions"; lit "A"; lit "Resources";
                  lit "AdditionalDocumentation"]) as Hpath
    by (by vm_compute).
  assert (pathlib.parents path =
          map (fun k => take k path) [9; 8; 7; 6; 5; 4; 3; 2; 1]%nat)
    as -> by (rewrite Hpath; reflexivity).
  rewrite Hpath. cbn [map take].
  do 6 (rewrite list_find_cons_false
          by (intros H; vm_compute in H; discriminate H)).
  destruct (decide (pathlib.suffix [lit "/"; lit "Applications"; app_name]
                    = lit ".app")) as [Happ|Happ].
  - rewrite list_find_cons_true by done. simpl. unfold pathlib.name.
    by rewrite !reverse_cons.
  - rewrite list_find_cons_false by done.
    do 2 (rewrite list_find_cons_false
            by (intros H; vm_compute in H; discriminate H)).
    reflexivity.
Qed.

(** ** Sequences of assignments to a dictionary *)
Section WriteFacts.
Context {V : Type}.
Implicit Types (d : list (str * V)) (k : str) (v : V).

Local Abbreviation run := (foldl (fun d (kv : str * V) => dict_set kv.1 kv.2 d)).

Lemma dict_get_set k k' v d :
  dict_get k (dict_set k' v d) =
  if decide (k = k') then Some v else dict_get k d.
Proof.
  induction d as [|[k1 v1] d IH]; simpl.
  - done.
  - destruct (decide (k' = k1)) as [->|Hne]; simpl.
    + by destruct (decide (k = k1)).
    + destruct (decide (k = k1)) as [->|Hne'].
      * rewrite decide_False; [done|]. congruence.
      * done.
Qed.

Lemma dict_get_run k (writes : list (str * V)) d :
  dict_get k (run d writes) =
  match last_write k writes with
  | Some v => Some v
  | None => dict_get k d
  end.
Proof.
  revert d. induction writes as [|[k' v] writes IH]; intros d; simpl; [done|].
  rewrite IH. destruct (last_write k writes); [done|].
  rewrite dict_get_set. by destruct (decide (k = k')).
Qed.

Lemma dict_keys_set_in k v d :
  k ∈ dict_keys d -> dict_keys (dict_set k v d) = dict_keys d.
Proof.
  unfold dict_keys. induction d as [|[k1 v1] d IH]; simpl.
  - by intros ?%elem_of_nil.
  - intros Hin. destruct (decide (k = k1)) as [->|Hne]; simpl; [done|].
    f_equal. apply IH. apply elem_of_cons in Hin as [?|?]; done.
Qed.

Lemma dict_keys_run_in (writes : list (str * V)) d :
  (forall kv, kv ∈ writes -> kv.1 ∈ dict_keys d) ->
  dict_keys (run d writes) = dict_keys d.
Proof.
  revert d. induction writes as [|[k v] writes IH]; intros d Hin; simpl;
    [done|].
  assert (dict_keys (dict_set k v d) = dict_keys d) as Hk.
  { apply dict_keys_set_in. apply (Hin (k, v)). by left. }
  rewrite IH, Hk; [done|]. intros kv Hkv. rewrite Hk. apply Hin. by right.
Qed.

Lemma dict_keys_run_mono (writes : list (str * V)) d k :
  k ∈ dict_keys d -> k ∈ dict_keys (run d writes).
Proof.
  revert d. induction writes as [|[k' v] writes IH]; intros d Hin; simpl;
    [done|].
  apply IH, elem_of_dict_keys_set. by right.
Qed.

Lemma dict_keys_run_written (writes : list (str * V)) d kv :
  kv ∈ writes -> kv.1 ∈ dict_keys (run d writes).
Proof.
  revert d. induction writes as [|[k' v] writes IH]; intros d Hin; simpl.
  - by apply elem_of_nil in Hin.
  - apply elem_of_cons in Hin as [->|Hin]; [|by apply IH].
    apply dict_keys_run_mono, elem_of_dict_keys_set. by left.
Qed.

Lemma dict_keys_run_NoDup (writes : list (str * V)) d :
  NoDup (dict_keys d) -> NoDup (dict_keys (run d writes)).
Proof.
  revert d. induction writes as [|[k v] writes IH]; intros d Hnd; simpl;
    [done|].
  by apply IH, dict_set_NoDup.
Qed.

(** Dictionaries with the same keys in the same order and the same value
    under every key are equal. *)
Lemma dict_ext d1 d2 :
  NoDup (dict_keys d1) ->
  dict_keys d1 = dict_keys d2 ->
  (forall k, dict_get k d1 = dict_get k d2) ->
  d1 = d2.
Proof.
  unfold dict_keys. revert d2.
  induction d1 as [|[k1 v1] d1 IH]; intros [|[k2 v2] d2] Hnd Hk Hget;
    simpl in *; try done.
  injection Hk as -> Hk. apply NoDup_cons in Hnd as [Hnotin Hnd].
  pose proof (Hget k2) as H2. rewrite !decide_True in H2 by done.
  injection H2 as ->. f_equal. apply IH; [done..|].
  intros k. specialize (Hget k).
  destruct (decide (k = k2)) as [->|Hne]; [|done].
  assert (dict_get k2 d1 = None) as ->.
  { destruct (dict_get k2 d1) eqn:E; [|done].
    exfalso. apply Hnotin, (dict_get_is_Some k2 d1). eauto. }
  symmetry. destruct (dict_get k2 d2) eqn:E; [|done].
  exfalso. apply Hnotin. rewrite Hk. apply (dict_get_is_Some k2 d2). eauto.
Qed.

(** Running the same assignments a second time changes nothing. *)
Lemma run_idempotent (writes : list (str * V)) d :
  NoDup (dict_keys d) ->
  run (run d writes) writes = run d writes.
Proof.
  intros Hnd. apply dict_ext.
  - by apply dict_keys_run_NoDup, dict_keys_run_NoDup.
  - apply dict_keys_run_in. intros kv Hkv. by apply dict_keys_run_written.
  - intros k. rewrite (dict_get_run k writes (run d writes)).
    rewrite (dict_get_run k writes d). by destruct (last_write k writes).
Qed.

Lemma last_write_Some k v (writes : list (str * V)) :
  last_write k writes = Some v -> (k, v) ∈ writes.
Proof.
  induction writes as [|[k' v'] writes IH]; simpl; [done|].
  destruct (last_write k writes) as [w|].
  - intros [= ->]. right. by apply IH.
  - destruct (decide (k = k')) as [->|]; [|done]. intros [= ->]. by left.
Qed.
End WriteFacts.

(** ** The build as a sequence of stores *)
Section LoadFacts.
Variable findall_headers : str -> list str.
Variable fs : FileSystem.

Lemma try_load_file_apply xcode_name self md_file :
  try_load_file findall_headers fs xcode_name self md_file =
  match file_load findall_headers fs xcode_name md_file with
  | Some ld => apply_load self ld
  | None => self
  end.
Proof.
  unfold try_load_file, load_file, file_load.
  destruct (fs_read_text fs md_file) as [text|e]; simpl; [|done].
  destruct (fs_stat_size fs md_file) as [sz|e]; simpl; done.
Qed.

Lemma index_folder_loads self doc_path :
  index_folder findall_headers fs self doc_path =
  foldl apply_load self (folder_loads findall_headers fs doc_path).
Proof.
  unfold index_folder, folder_loads.
  generalize (Config.get_xcode_name_from_path doc_path) as xcode_name.
  generalize (md_files fs doc_path) as files.
  intros files xcode_name. revert self.
  induction files as [|f files IH]; intros self; [done|].
  change (foldl (try_load_file findall_headers fs xcode_name) self (f :: files))
    with (foldl (try_load_file findall_headers fs xcode_name)
            (try_load_file findall_headers fs xcode_name self f) files).
  rewrite IH, try_load_file_apply.
  change (omap (file_load findall_headers fs xcode_name) (f :: files))
    with (match file_load findall_headers fs xcode_name f with
          | Some ld => ld :: omap (file_load findall_headers fs xcode_name) files
          | None => omap (file_load findall_headers fs xcode_name) files
          end).
  by destruct (file_load findall_headers fs xcode_name f).
Qed.

Lemma index_folders_loads self paths :
  foldl (index_folder findall_headers fs) self paths =
  foldl apply_load self (corpus_loads findall_headers fs paths).
Proof.
  revert self. induction paths as [|p paths IH]; intros self; [done|].
  simpl. by rewrite IH, index_folder_loads, foldl_app.
Qed.

(** A second run of [initialize], in terms of the stores. *)
Lemma initialize_loads environ self m :
  initialize findall_headers fs environ self = Ok m ->
  match Config.get_documentation_paths fs environ with
  | Ok roots =>
      listable fs roots /\
      m = foldl apply_load
            {| content_cache := content_cache self;
               docs_cache := docs_cache self;
               doc_paths := roots |}
            (corpus_loads findall_headers fs roots)
  | Raise _ =>
      m = {| content_cache := content_cache self;
             docs_cache := docs_cache self;
             doc_paths := [] |}
  end.
Proof.
  intros Hm. apply initialize_Ok in Hm.
  destruct (Config.get_documentation_paths fs environ)
    as [roots|[msg|msg|msg]]; try done.
  by rewrite <- index_folders_loads.
Qed.

Lemma apply_loads_caches self (loads : list (str * DocInfo * str)) :
  foldl apply_load self loads =
  {| content_cache :=
       foldl (fun d (kv : str * str) => dict_set kv.1 kv.2 d)
         (content_cache self) (map (fun ld => (ld.1.1, ld.2)) loads);
     docs_cache :=
       foldl (fun d (kv : str * DocInfo) => dict_set kv.1 kv.2 d)
         (docs_cache self) (map (fun ld => (ld.1.1, ld.1.2)) loads);
     doc_paths := doc_paths self |}.
Proof.
  revert self. induction loads as [|ld loads IH]; intros self; simpl.
  - by destruct self.
  - by rewrite IH.
Qed.

(** The manager that start-up builds, in terms of the stores. *)
Lemma new_manager_loads environ m :
  new_manager findall_headers fs environ = Ok m ->
  match Config.get_documentation_paths fs environ with
  | Ok roots =>
      listable fs roots /\
      m = foldl apply_load
            {| content_cache := []; docs_cache := []; doc_paths := roots |}
            (corpus_loads findall_headers fs roots)
  | Raise _ => m = empty_manager
  end.
Proof. apply initialize_loads. Qed.

Lemma elem_of_corpus_loads roots key info text :
  (key, info, text) ∈ corpus_loads findall_headers fs roots <->
  exists doc_path md_file,
    doc_path ∈ roots /\
    md_file ∈ md_files fs doc_path /\
    file_load findall_headers fs (Config.get_xcode_name_from_path doc_path)
      md_file = Some (key, info, text).
Proof.
  unfold corpus_loads, folder_loads.
  rewrite list_elem_of_In, in_flat_map. split.
  - intros (p & Hp & Hin). apply list_elem_of_In, list_elem_of_omap in Hin
      as (f & Hf & Hload).
    exists p, f. by rewrite list_elem_of_In.
  - intros (p & f & Hp & Hf & Hload). exists p.
    split; [by apply list_elem_of_In|].
    apply list_elem_of_In, list_elem_of_omap. eauto.
Qed.

Lemma last_write_fmap_pair {A B} (k : str)
    (loads : list (str * A * B)) :
  match last_write k (map (fun ld => (ld.1.1, ld.1.2)) loads),
        last_write k (map (fun ld => (ld.1.1, ld.2)) loads) with
  | Some a, Some b => (k, a, b) ∈ loads
  | None, None => True
  | _, _ => False
  end.
Proof.
  induction loads as [|[[k' a] b] loads IH]; simpl; [done|].
  destruct (last_write k (map _ loads)) as [a'|],
           (last_write k (map _ loads)) as [b'|]; try done.
  - by right.
  - destruct (decide (k = k')) as [->|]; [by left|done].
Qed.

(** An index entry and the cached text under its key are those of one
    store of the build. *)
Lemma index_entry_load (environ : option str) (roots : list Path)
    (m : LocalDocsManager) (key : str) (info : DocInfo) :
  new_manager findall_headers fs environ = Ok m ->
  Config.get_documentation_paths fs environ = Ok roots ->
  (key, info) ∈ docs_cache m ->
  doc_paths m = roots /\
  exists text,
    (key, info, text) ∈ corpus_loads findall_headers fs roots /\
    dict_get key (content_cache m) = Some text.
Proof.
  intros Hm Hroots Hin.
  pose proof (new_manager_loads environ m Hm) as Hshape.
  rewrite Hroots in Hshape. destruct Hshape as [_ Hshape].
  rewrite apply_loads_caches in Hshape. simpl in Hshape.
  set (loads := corpus_loads findall_headers fs roots) in *.
  split; [by rewrite Hshape|].
  assert (dict_get key (docs_cache m) = Some info) as Hget.
  { assert (NoDup (dict_keys (docs_cache m))) as Hnd.
    { rewrite Hshape. cbn [docs_cache].
      apply dict_keys_run_NoDup. constructor. }
    clear Hshape. revert Hnd Hin. unfold dict_keys.
    induction (docs_cache m) as [|[k1 i1] d IH]; simpl.
    - by intros _ ?%elem_of_nil.
    - rewrite NoDup_cons. intros [Hnotin Hnd] [[= -> ->]|Hin']%elem_of_cons.
      + by rewrite decide_True.
      + rewrite decide_False; [by apply IH|]. intros ->.
        apply Hnotin, list_elem_of_fmap. by exists (k1, info). }
  assert (dict_get key (docs_cache m) =
          last_write key (map (fun ld => (ld.1.1, ld.1.2)) loads)) as Hd.
  { rewrite Hshape. cbn [docs_cache content_cache]. rewrite dict_get_run.
    generalize (last_write key
      (map (fun ld : str * DocInfo * str => (ld.1.1, ld.1.2)) loads)).
    intros [w|]; reflexivity. }
  assert (dict_get key (content_cache m) =
          last_write key (map (fun ld => (ld.1.1, ld.2)) loads)) as Hc.
  { rewrite Hshape. cbn [docs_cache content_cache]. rewrite dict_get_run.
    generalize (last_write key
      (map (fun ld : str * DocInfo * str => (ld.1.1, ld.2)) loads)).
    intros [w|]; reflexivity. }
  pose proof (last_write_fmap_pair key loads) as Hpair.
  rewrite <- Hd, <- Hc, Hget in Hpair.
  destruct (dict_get key (content_cache m)) as [text|] eqn:Htext; [|done].
  exists text. done.
Qed.

Lemma file_load_Some xcode_name md_file key info text :
  file_load findall_headers fs xcode_name md_file = Some (key, info, text) ->
  fs_read_text fs md_file = Ok text /\
  fs_stat_size fs md_file = Ok (info_size info) /\
  key = composite_key xcode_name (pathlib.stem md_file) /\
  info_name info = pathlib.stem md_file /\
  info_xcode_source info = xcode_name /\
  info_path info = pathlib.to_str md_file /\
  info_topics info = slice (findall_headers (slice text 0 500)) 0 5.
Proof.
  unfold file_load.
  destruct (fs_read_text fs md_file) as [text'|]; [|done].
  destruct (fs_stat_size fs md_file) as [sz|]; [|done].
  intros [= <- <- <-]. done.
Qed.

(** Where an index entry comes from. *)
Lemma index_entry_origin (environ : option str) (m : LocalDocsManager)
    (key : str) (info : DocInfo) :
  new_manager findall_headers fs environ = Ok m ->
  (key, info) ∈ docs_cache m ->
  exists doc_path md_file text,
    doc_path ∈ doc_paths m /\
    md_file ∈ md_files fs doc_path /\
    fs_read_text fs md_file = Ok text /\
    fs_stat_size fs md_file = Ok (info_size info) /\
    dict_get key (content_cache m) = Some text /\
    key = composite_key (Config.get_xcode_name_from_path doc_path)
            (pathlib.stem md_file) /\
    info_name info = pathlib.stem md_file /\
    info_xcode_source info = Config.get_xcode_name_from_path doc_path /\
    info_path info = pathlib.to_str md_file /\
    info_topics info = slice (findall_headers (slice text 0 500)) 0 5.
Proof.
  intros Hm Hin.
  destruct (Config.get_documentation_paths fs environ) as [roots|e] eqn:Hroots.
  - destruct (index_entry_load environ roots m key info Hm Hroots Hin)
      as (Hpaths & text & Hload & Htext).
    apply elem_of_corpus_loads in Hload
      as (doc_path & md_file & Hp & Hf & Hload).
    apply file_load_Some in Hload as (? & ? & ? & ? & ? & ? & Htopics).
    exists doc_path, md_file, text. rewrite Hpaths. split_and!; done.
  - pose proof (new_manager_loads environ m Hm) as Hshape.
    rewrite Hroots in Hshape. subst m. by apply elem_of_nil in Hin.
Qed.

(** X17. Start-up is idempotent: running [initialize] again on the manager
    that start-up has built, over the same file system and environment,
    returns the same manager, with the same entries in the same order.
    Start-up returns when the root resolution returns roots that can all be
    listed, or raises its configuration error. *)
Theorem initialize_idempotent (environ : option str) :
  (build_completes fs environ ->
   exists m, new_manager findall_headers fs environ = Ok m) /\
  forall m,
    new_manager findall_headers fs environ = Ok m ->
    initialize findall_headers fs environ m = Ok m.
Proof.
  split; [apply initialize_returns|].
  intros m Hm.
  pose proof (new_manager_loads environ m Hm) as Hshape.
  apply initialize_Ok.
  destruct (Config.get_documentation_paths fs environ)
    as [roots|[msg|msg|msg]] eqn:Hroots.
  - destruct Hshape as [Hlist Hshape]. split; [done|].
    rewrite index_folders_loads.
    rewrite apply_loads_caches in Hshape. rewrite apply_loads_caches.
    subst m. simpl. f_equal; symmetry; apply run_idempotent; constructor.
  - by subst m.
  - apply initialize_Ok in Hm. by rewrite Hroots in Hm.
  - apply initialize_Ok in Hm. by rewrite Hroots in Hm.
Qed.

Lemma after_sep_composite_key (tag stem : str) :
  tag_ok tag -> after_sep 58%N (composite_key tag stem) = Some stem.
Proof.
  unfold composite_key, key_sep.
  induction tag as [|a [|b tag] IH]; intros [Hsep Hlast].
  - done.
  - simpl. destruct (N.eqb_spec a 58) as [->|Hne]; [done|]. done.
  - simpl in Hsep. change ((a :: b :: tag) ++ lit "::" ++ stem)
      with (a :: b :: (tag ++ lit "::" ++ stem)).
    cbn [after_sep].
    destruct ((a =? 58)%N && (b =? 58)%N); [done|].
    apply IH. split; [done|]. exact Hlast.
Qed.

Lemma doc_name_of_composite_key (tag stem : str) :
  tag_ok tag -> doc_name_of_key (composite_key tag stem) = stem.
Proof.
  intros Hok. unfold doc_name_of_key. by rewrite after_sep_composite_key.
Qed.

Lemma get_document_loop_cached fs' self items name version text :
  text <> [] ->
  (exists item, item ∈ items /\ serves name version item = true) ->
  (forall key info, (key, info) ∈ items ->
     serves name version (key, info) = true ->
     default [] (dict_get key (content_cache self)) = text) ->
  get_document_loop fs' self items name version = Some (Ok text).
Proof.
  intros Htext. induction items as [|[key info] items IH];
    intros (item & Hin & Hs) Hall.
  - by apply elem_of_nil in Hin.
  - rewrite get_document_loop_step.
    destruct (serves name version (key, info)) eqn:Hs'.
    + rewrite (Hall key info (list_elem_of_here _ _) Hs').
      by destruct text.
    + apply IH.
      * apply elem_of_cons in Hin as [->|Hin]; [congruence|]. eauto.
      * intros k i Hki. apply Hall. by right.
Qed.

(** X18. Round trip of the index. Let the tags of the roots keep the
    separator unambiguous, and let a markdown file of a root be readable,
    with a non-empty text, under a non-empty tag, all readable files of the
    same tag and stem having the same text. When the roots can be listed,
    start-up returns, and after it [get_document]
    called with the stem of the file and the tag of its root returns that
    text, from the cache, whatever the state of the disk at that time; so
    does the tool [get_document] when the stem passes its validation of
    names. *)
Theorem get_document_after_build (fs' : FileSystem) (environ : option str)
    (roots : list Path) (doc_path md_file : Path) (text : str) (st_size : Z) :
  let tag := Config.get_xcode_name_from_path doc_path in
  Config.get_documentation_paths fs environ = Ok roots ->
  listable fs roots ->
  (forall p, p ∈ roots -> tag_ok (Config.get_xcode_name_from_path p)) ->
  doc_path ∈ roots ->
  md_file ∈ md_files fs doc_path ->
  fs_read_text fs md_file = Ok text ->
  fs_stat_size fs md_file = Ok st_size ->
  text <> [] ->
  tag <> [] ->
  (forall p f text',
     p ∈ roots -> f ∈ md_files fs p ->
     Config.get_xcode_name_from_path p = tag ->
     pathlib.stem f = pathlib.stem md_file ->
     fs_read_text fs f = Ok text' -> text' = text) ->
  exists m,
    new_manager findall_headers fs environ = Ok m /\
    get_document fs' m (pathlib.stem md_file) (Some tag) = Ok text /\
    (valid_name (pathlib.stem md_file) ->
     tools.get_document fs' m (pathlib.stem md_file) (Some tag) = Ok text).
Proof.
  intros tag Hroots Hlist Hok Hp Hf Hread Hstat Htext Htag Huniq.
  destruct (initialize_returns findall_headers fs environ empty_manager)
    as [m Hm].
  { unfold build_completes. by rewrite Hroots. }
  exists m. split; [done|].
  pose proof (new_manager_loads environ m Hm) as Hshape.
  rewrite Hroots in Hshape. destruct Hshape as [_ Hshape].
  assert (get_document fs' m (pathlib.stem md_file) (Some tag) = Ok text)
    as Hget_document; [|split; [done|]].
  2:{ intros (Hne & Hdots & Hslash & Hback & Hlen). unfold tools.get_document.
      rewrite (bool_decide_eq_false_2 _ Hne), Hdots, Hslash, Hback. simpl.
      destruct (Z.ltb_spec 255 (len (pathlib.stem md_file))); [lia|done]. }
  assert (forall key info,
            (key, info) ∈ docs_cache m ->
            exists p f text',
              p ∈ roots /\ f ∈ md_files fs p /\
              fs_read_text fs f = Ok text' /\
              dict_get key (content_cache m) = Some text' /\
              key = composite_key (Config.get_xcode_name_from_path p)
                      (pathlib.stem f) /\
              info_name info = pathlib.stem f /\
              info_xcode_source info = Config.get_xcode_name_from_path p)
    as Horigin.
  { intros key info Hin.
    destruct (index_entry_load environ roots m key info Hm Hroots Hin)
      as (_ & text' & Hload & Hget).
    apply elem_of_corpus_loads in Hload as (p & f & Hp' & Hf' & Hload).
    apply file_load_Some in Hload as (? & ? & ? & ? & ? & ? & ?).
    exists p, f, text'. done. }
  unfold get_document.
  rewrite (get_document_loop_cached fs' m (docs_cache m)
             (pathlib.stem md_file) (Some tag) text); [done..| |].
  - (* an entry answers the request *)
    assert (composite_key tag (pathlib.stem md_file)
              ∈ dict_keys (docs_cache m)) as Hkey.
    { rewrite Hshape, apply_loads_caches. cbn [docs_cache].
      apply (dict_keys_run_written _ _
               (composite_key tag (pathlib.stem md_file),
                {| info_path := pathlib.to_str md_file;
                   info_name := pathlib.stem md_file;
                   info_size := st_size;
                   info_xcode_source := tag;
                   info_topics :=
                     slice (findall_headers (slice text 0 500)) 0 5 |})).
      apply list_elem_of_fmap. eexists (_, _, text). split; [done|].
      apply elem_of_corpus_loads. exists doc_path, md_file.
      split_and!; try done. unfold file_load. by rewrite Hread, Hstat. }
    unfold dict_keys in Hkey.
    apply list_elem_of_fmap in Hkey as ([key info] & Hk & Hin).
    simpl in Hk. subst key. exists (composite_key tag (pathlib.stem md_file), info).
    split; [done|].
    destruct (Horigin _ _ Hin) as (p & f & text' & Hp' & _ & _ & _ & Hk & Hn & Hx).
    apply composite_key_inj in Hk as [Ht Hs]; [|by apply Hok..].
    unfold serves, matches_name. simpl.
    rewrite (bool_decide_eq_true_2 (info_name info = _)) by congruence.
    rewrite orb_true_r. simpl.
    destruct tag as [|c t] eqn:Etag; [done|]. simpl.
    apply bool_decide_eq_true. congruence.
  - (* every entry that answers it caches the text *)
    intros key info Hin Hs.
    destruct (Horigin _ _ Hin)
      as (p & f & text' & Hp' & Hf' & Hread' & Hget & Hk & Hn & Hx).
    unfold serves in Hs. apply andb_true_iff in Hs as [Hname Hver].
    assert (Config.get_xcode_name_from_path p = tag) as Hp_tag.
    { destruct tag as [|c t] eqn:Etag; [done|]. simpl in Hver.
      apply bool_decide_eq_true in Hver. congruence. }
    assert (pathlib.stem f = pathlib.stem md_file) as Hstem.
    { unfold matches_name in Hname. simpl in Hname.
      rewrite Hk, doc_name_of_composite_key in Hname by (by apply Hok).
      rewrite Hn in Hname.
      apply orb_true_iff in Hname as [H|H]; by apply bool_decide_eq_true in H. }
    rewrite Hget. simpl. by eapply Huniq.
Qed.
End LoadFacts.

(** ** Headings *)

Lemma backtrack_Some {A} (rest_matches : nat -> option A) (lo n : nat) r :
  re.backtrack rest_matches lo n = Some r ->
  exists k, (lo <= k <= n)%nat /\ rest_matches k = Some r.
Proof.
  induction n as [|n IH]; simpl.
  - destruct (Nat.ltb_spec 0 lo); [done|].
    destruct (rest_matches 0%nat) eqn:E; [|done].
    intros [= <-]. exists 0%nat. split; [lia|done].
  - destruct (Nat.ltb_spec (S n) lo); [done|].
    destruct (rest_matches (S n)) eqn:E.
    + intros [= <-]. exists (S n). split; [lia|done].
    + intros Hr. destruct (IH Hr) as (k & Hk & Hrest).
      exists k. split; [lia|done].
Qed.

Lemma run_length_take (cls : char -> bool) (s : str) (k : nat) :
  (k <= re.run_length cls s)%nat ->
  length (take k s) = k /\ Forall (fun c => cls c = true) (take k s).
Proof.
  revert k. induction s as [|c s IH]; intros k; simpl.
  - intros Hk. replace k with 0%nat by lia. by split.
  - destruct k as [|k]; [by split|].
    destruct (cls c) eqn:Hc; [|lia]. intros Hk.
    destruct (IH k) as [Hlen Hall]; [lia|]. simpl.
    split; [by rewrite Hlen|by constructor].
Qed.

(** What a match of a repetition is: a number of characters of the class,
    within the bounds, after which the rest of the pattern matches. *)
Lemma match_items_rep cls lo hi items text pos gs ge r :
  re.match_items (re.rep cls lo hi :: items) text pos gs ge = Some r ->
  exists k,
    (lo <= k)%nat /\
    from_option (fun h => k <= h)%nat True hi /\
    length (take k (drop pos text)) = k /\
    Forall (fun c => cls c = true) (take k (drop pos text)) /\
    re.match_items items text (pos + k) gs ge = Some r.
Proof.
  simpl. intros Hr. apply backtrack_Some in Hr as (k & Hk & Hr).
  exists k.
  destruct (run_length_take cls (drop pos text) k) as [Hlen Hall].
  { destruct hi; lia. }
  split_and!; try done; [lia|]. destruct hi; simpl; [lia|done].
Qed.

Lemma match_items_bol items text pos gs ge r :
  re.match_items (re.bol :: items) text pos gs ge = Some r ->
  re.at_bol text pos = true /\ re.match_items items text pos gs ge = Some r.
Proof. simpl. by destruct (re.at_bol text pos). Qed.

Lemma match_items_eol items text pos gs ge r :
  re.match_items (re.eol :: items) text pos gs ge = Some r ->
  re.at_eol text pos = true /\ re.match_items items text pos gs ge = Some r.
Proof. simpl. by destruct (re.at_eol text pos). Qed.

Lemma match_items_group_open items text pos gs ge r :
  re.match_items (re.group_open :: items) text pos gs ge = Some r ->
  re.match_items items text pos pos ge = Some r.
Proof. done. Qed.

Lemma match_items_group_close items text pos gs ge r :
  re.match_items (re.group_close :: items) text pos gs ge = Some r ->
  re.match_items items text pos gs pos = Some r.
Proof. done. Qed.

(** A match of the pattern of headings. *)
Lemma match_header_pattern text pos e gs ge :
  re.match_items header_pattern text pos 0 0 = Some (e, (gs, ge)) ->
  is_heading text (take (ge - gs) (drop gs text)).
Proof.
  unfold header_pattern. intros Hm.
  apply match_items_bol in Hm as [Hbol Hm].
  apply match_items_rep in Hm as (h & Hh1 & Hh3 & Hhlen & Hhashes & Hm).
  apply match_items_rep in Hm as (w & Hw1 & _ & Hwlen & Hspaces & Hm).
  apply match_items_group_open in Hm.
  apply match_items_rep in Hm as (n & Hn1 & _ & Hnlen & Htext & Hm).
  apply match_items_group_close, match_items_eol in Hm as [Heol Hm].
  injection Hm as <- <- <-.
  replace (pos + h + w + n - (pos + h + w))%nat with n by lia.
  exists (take pos text), (take h (drop pos text)),
    (take w (drop (pos + h) text)), (drop (pos + h + w + n) text).
  split_and!.
  - rewrite <- (take_drop pos text) at 1. f_equal.
    rewrite <- (take_drop h (drop pos text)) at 1. f_equal.
    rewrite drop_drop.
    rewrite <- (take_drop w (drop (pos + h) text)) at 1. f_equal.
    rewrite drop_drop.
    rewrite <- (take_drop n (drop (pos + h + w) text)) at 1. f_equal.
    by rewrite drop_drop.
  - unfold re.at_bol in Hbol. destruct pos as [|i]; [by left|]. right.
    apply bool_decide_eq_true in Hbol.
    rewrite last_lookup.
    assert (i < length text)%nat by (by eapply lookup_lt_Some).
    rewrite length_take, Nat.min_l by lia. simpl.
    rewrite lookup_take_lt by lia. done.
  - rewrite Hhlen. lia.
  - rewrite Hhlen. simpl in Hh3. lia.
  - eapply Forall_impl; [exact Hhashes|].
    intros c Hc. symmetry. by apply N.eqb_eq.
  - intros Hnil. rewrite Hnil in Hwlen. simpl in Hwlen. lia.
  - done.
  - intros Hnil. rewrite Hnil in Hnlen. simpl in Hnlen. lia.
  - eapply Forall_impl; [exact Htext|].
    intros c Hc ->. done.
  - unfold re.at_eol in Heol.
    destruct (text !! (pos + h + w + n)%nat) as [c|] eqn:Hc.
    + right. apply N.eqb_eq in Heol as ->.
      rewrite head_lookup, lookup_drop, Nat.add_0_r. done.
    + left. apply drop_ge. by apply lookup_ge_None.
Qed.

Lemma findall_from_elem items text rest pos skip t :
  t ∈ re.findall_from items text rest pos skip ->
  exists p e gs ge,
    re.match_items items text p 0 0 = Some (e, (gs, ge)) /\
    t = take (ge - gs) (drop gs text).
Proof.
  revert pos skip. induction rest as [|c rest IH]; intros pos skip; simpl.
  - by intros ?%elem_of_nil.
  - destruct skip as [|k]; [|apply IH].
    destruct (re.match_items items text pos 0 0) as [[e [gs ge]]|] eqn:Hm;
      [|apply IH].
    intros [->|Hin]%elem_of_cons; [eauto 6|by eapply IH].
Qed.

(** Every string that the search for headings returns is a heading of the
    text. *)
Lemma markdown_headers_sound (text : str) :
  Forall (is_heading text) (markdown_headers text).
Proof.
  apply Forall_forall. intros t Ht.
  apply findall_from_elem in Ht as (p & e & gs & ge & Hm & ->).
  by eapply match_header_pattern.
Qed.

(** X16. After start-up the metadata and the cached text under a key of the
    index come from one and the same file of the corpus: a markdown file of
    one of the roots, whose text and size could be read, with the key made
    of the tag of that root and the stem of that file, and the name, tag,
    path and size of that file. The topics are the first 5, at most, of the
    strings that the pattern of headings finds in the first 500 characters
    of the text, and each of them is a heading of these 500 characters: what
    follows, up to the end of its line, one to three ['#'] at the start of a
    line and the white space after them. *)
Theorem index_entry_provenance (fs : FileSystem) (environ : option str)
    (m : LocalDocsManager) (key : str) (info : DocInfo) :
  new_manager markdown_headers fs environ = Ok m ->
  (key, info) ∈ docs_cache m ->
  exists doc_path md_file text,
    doc_path ∈ doc_paths m /\
    md_file ∈ md_files fs doc_path /\
    fs_read_text fs md_file = Ok text /\
    fs_stat_size fs md_file = Ok (info_size info) /\
    dict_get key (content_cache m) = Some text /\
    key = composite_key (Config.get_xcode_name_from_path doc_path)
            (pathlib.stem md_file) /\
    info_name info = pathlib.stem md_file /\
    info_xcode_source info = Config.get_xcode_name_from_path doc_path /\
    info_path info = pathlib.to_str md_file /\
    info_topics info = slice (markdown_headers (slice text 0 500)) 0 5 /\
    len (info_topics info) <= 5 /\
    Forall (is_heading (slice text 0 500)) (info_topics info).
Proof.
  intros Hm Hin.
  destruct (index_entry_origin markdown_headers fs environ m key info Hm Hin)
    as (doc_path & md_file & text & H1 & H2 & H3 & H4 & H5 & H6 & H7 & H8
        & H9 & Htopics).
  exists doc_path, md_file, text. split_and!; try done.
  - rewrite Htopics, slice_0 by lia. apply (len_take_le _ 5).
  - rewrite Htopics, (slice_0 (markdown_headers _)) by lia.
    apply Forall_take, markdown_headers_sound.
Qed.

(** ** Suggestions *)

Lemma suggestions_ok_take current n suggestions :
  suggestions_ok current suggestions ->
  suggestions_ok current (take n suggestions).
Proof.
  intros [Hnd Hall]. split.
  - change (map sg_tool (take n suggestions))
      with (sg_tool <$> take n suggestions).
    rewrite fmap_take.
    change (NoDup (sg_tool <$> suggestions)) in Hnd.
    rewrite <- (take_drop n (sg_tool <$> suggestions)) in Hnd.
    by apply NoDup_app in Hnd as [? _].
  - by apply Forall_take.
Qed.

Lemma already_suggested_false tool suggestions :
  SuggestionEngine.already_suggested tool suggestions = false ->
  tool ∉ map sg_tool suggestions.
Proof.
  unfold SuggestionEngine.already_suggested.
  induction suggestions as [|s suggestions IH]; simpl.
  - intros _. apply not_elem_of_nil.
  - intros [Hs Hrest]%orb_false_iff. apply bool_decide_eq_false in Hs.
    apply not_elem_of_cons. split; [congruence|by apply IH].
Qed.

Lemma suggestions_ok_snoc current tool suggestions :
  suggestions_ok current suggestions ->
  tool <> current ->
  SuggestionEngine.already_suggested tool suggestions = false ->
  suggestions_ok current (suggestions ++ [SuggestionEngine.suggest tool]).
Proof.
  intros [Hnd Hall] Hne Hnew. apply already_suggested_false in Hnew. split.
  - rewrite map_app. simpl. apply NoDup_app. split_and!; [done| |].
    + intros x Hx. rewrite list_elem_of_singleton. intros ->. done.
    + apply NoDup_singleton.
  - apply Forall_app. split; [done|]. by repeat constructor.
Qed.

Lemma tools_loop_ok current tools suggestions :
  suggestions_ok current suggestions ->
  let out := SuggestionEngine.tools_loop current tools suggestions in
  suggestions_ok current out.1 /\ (out.2 = true -> len out.1 <= 3).
Proof.
  revert suggestions. induction tools as [|tool tools IH];
    intros suggestions Hok; simpl; [done|].
  destruct (negb (bool_decide (tool = current))
            && negb (SuggestionEngine.already_suggested tool suggestions))
    eqn:Hadd; [|by apply IH].
  apply andb_true_iff in Hadd as [Hne Hnew].
  apply negb_true_iff in Hne, Hnew. apply bool_decide_eq_false in Hne.
  pose proof (suggestions_ok_snoc _ _ _ Hok Hne Hnew) as Hok'.
  destruct (3 <=? len (suggestions ++ [SuggestionEngine.suggest tool]));
    [|by apply IH].
  simpl. rewrite slice_0 by lia. split.
  - by apply suggestions_ok_take.
  - intros _. apply (len_take_le _ 3).
Qed.

Lemma keywords_loop_ok current query table suggestions :
  suggestions_ok current suggestions ->
  let out := SuggestionEngine.keywords_loop current query table suggestions in
  suggestions_ok current out /\ len out <= 3.
Proof.
  revert suggestions. induction table as [|[pattern tools] table IH];
    intros suggestions Hok; simpl.
  - rewrite slice_0 by lia. split.
    + by apply suggestions_ok_take.
    + apply (len_take_le _ 3).
  - destruct (re_search_words pattern query); [|by apply IH].
    pose proof (tools_loop_ok current tools suggestions Hok) as Hloop.
    destruct (SuggestionEngine.tools_loop current tools suggestions)
      as [out returned].
    simpl in Hloop. destruct Hloop as [Hok' Hlen].
    destruct returned; [by split; [|apply Hlen]|by apply IH].
Qed.

Lemma fallbacks_table :
  Forall (fun entry : str * list str =>
            (entry.1 ∉ entry.2) /\ NoDup entry.2)
    SuggestionEngine.fallbacks.
Proof.
  unfold SuggestionEngine.fallbacks.
  repeat (apply Forall_cons; split;
          [split; apply (bool_decide_unpack _); by vm_compute|]).
  constructor.
Qed.

Lemma fallback_suggestions_ok context :
  suggestions_ok (current_tool context)
    (SuggestionEngine.fallback_suggestions context).
Proof.
  unfold SuggestionEngine.fallback_suggestions.
  assert (suggestions_ok (current_tool context) []) as Hnil
    by (split; constructor).
  case_bool_decide; [|done].
  destruct (dict_get (current_tool context) SuggestionEngine.fallbacks)
    as [tools|] eqn:E; [|done].
  apply dict_get_Some_elem in E.
  pose proof fallbacks_table as Htable. rewrite Forall_forall in Htable.
  destruct (Htable _ E) as [Hnotin Hnd]. simpl in *.
  rewrite slice_0 by lia. split.
  - rewrite map_map. simpl. rewrite map_id.
    rewrite <- (take_drop 2 tools) in Hnd.
    by apply NoDup_app in Hnd as [? _].
  - apply Forall_forall. intros s Hs.
    apply list_elem_of_fmap in Hs as (tool & -> & Htool). simpl.
    split; [|done]. intros ->. apply Hnotin. by eapply subseteq_take.
Qed.

(** X19. [get_suggestions] returns at most 3 suggestions, never suggests a
    tool twice, never suggests the tool that is in use, and gives every
    suggested tool the reason of the table of reasons (or ["Try <tool>"]). *)
Theorem get_suggestions_spec (lower : str -> str)
    (context : SuggestionContext) :
  let suggestions := SuggestionEngine.get_suggestions lower context in
  len suggestions <= 3 /\
  NoDup (map sg_tool suggestions) /\
  Forall (fun s => sg_tool s <> current_tool context /\
                   sg_reason s = SuggestionEngine._get_reason (sg_tool s))
    suggestions.
Proof.
  unfold SuggestionEngine.get_suggestions.
  destruct (keywords_loop_ok (current_tool context)
              (lower (ctx_query context)) SuggestionEngine.keywords
              (SuggestionEngine.fallback_suggestions context)
              (fallback_suggestions_ok context)) as [[Hnd Hall] Hlen].
  done.
Qed.

(** ** The search tool *)

(** X20. [search_docs] answers a query that is empty or blank with the
    error ["Empty query"], and any other query of more than 500 characters
    with ["Query too long"]; the index is not searched. Otherwise it returns
    the response of [search] for the stripped query, which is not empty, has
    no white space at either end and at most 500 characters, with at most 3
    suggestions, the key being absent when there are none. *)
Theorem search_docs_spec (ieq : char -> char -> bool) (lower : str -> str)
    (local_docs : LocalDocsManager) (query : str) (case_sensitive : bool) :
  match tools.search_docs ieq lower local_docs query case_sensitive with
  | tool_error error _ =>
      (strip query = [] /\ error = lit "Empty query") \/
      (strip query <> [] /\ 500 < len query /\ error = lit "Query too long")
  | tool_response response suggestions =>
      let q := strip query in
      response = search ieq local_docs q case_sensitive /\
      q <> [] /\ len q <= len query <= 500 /\
      starts_with_space q = false /\
      starts_with_space (reverse q) = false /\
      match suggestions with
      | Some l =>
          l <> [] /\ len l <= 3 /\
          l = SuggestionEngine.get_suggestions lower
                {| current_tool := lit "search_docs";
                   ctx_query := query;
                   results_count := total_results response |}
      | None =>
          SuggestionEngine.get_suggestions lower
            {| current_tool := lit "search_docs";
               ctx_query := query;
               results_count := total_results response |} = []
      end
  end.
Proof.
  unfold tools.search_docs.
  destruct (decide (strip query = [])) as [Hblank|Hblank].
  { rewrite (bool_decide_eq_true_2 (strip query = []) Hblank), orb_true_r.
    by left. }
  assert (query <> []) as Hne by (intros ->; done).
  rewrite (bool_decide_eq_false_2 _ Hne), (bool_decide_eq_false_2 _ Hblank).
  simpl orb. cbv iota.
  destruct (Z.ltb_spec 500 (len query)) as [Hlong|Hshort]; [by right|].
  unfold tools.add_suggestions.
  set (context := {| current_tool := _ |}).
  assert (len (SuggestionEngine.get_suggestions lower context) <= 3) as Hlen.
  { unfold SuggestionEngine.get_suggestions.
    apply keywords_loop_ok, fallback_suggestions_ok. }
  pose proof (strip_length query). pose proof (strip_starts query).
  pose proof (strip_ends query).
  destruct (SuggestionEngine.get_suggestions lower context) as [|s l] eqn:E;
    (split_and!; try done; unfold len in *; try lia).
Qed.

(** ** Searching the index that start-up builds *)
Section EndToEndFacts.
Variable ieq : char -> char -> bool.
Variable findall_headers : str -> list str.
Variable fs : FileSystem.

(** X21. After start-up, when the tags of the roots keep the separator
    unambiguous, every search result names a file of the corpus: its
    document is the stem and its installation the tag of a readable markdown
    file of one of the roots, and the position of each of its content
    matches is an index into the text of that file at which the query
    matches. *)
Theorem search_after_build (environ : option str) (m : LocalDocsManager)
    (q : str) (cs : bool) (r : DocResult) :
  new_manager findall_headers fs environ = Ok m ->
  (forall p, p ∈ doc_paths m -> tag_ok (Config.get_xcode_name_from_path p)) ->
  r ∈ results (search ieq m q cs) ->
  exists doc_path md_file text,
    doc_path ∈ doc_paths m /\
    md_file ∈ md_files fs doc_path /\
    fs_read_text fs md_file = Ok text /\
    document r = pathlib.stem md_file /\
    xcode_version r = Config.get_xcode_name_from_path doc_path /\
    forall mt, mt ∈ matches r -> m_type mt = type_content ->
      exists p, m_position mt = Some p /\ 0 <= p <= len text /\
        match_here (chr_eq ieq cs) q (drop (Z.to_nat p) text) = true.
Proof.
  intros Hm Hok Hr.
  assert (Hr' := Hr). unfold search in Hr'.
  apply search_results_elem, unsorted_results_elem in Hr'
    as (key & info & Hin & Hres).
  apply doc_result_Some in Hres as (Hdoc & Hx & Hms & _ & _).
  destruct (Config.get_documentation_paths fs environ) as [roots|e] eqn:Hroots.
  - destruct (index_entry_load findall_headers fs environ roots m key info
                Hm Hroots Hin) as (Hpaths & text & Hload & Htext).
    apply elem_of_corpus_loads in Hload
      as (doc_path & md_file & Hp & Hf & Hload).
    apply file_load_Some in Hload as (Hread & _ & Hk & Hn & Hsrc & _ & _).
    exists doc_path, md_file, text. rewrite Hpaths.
    split_and!; try done.
    + rewrite Hdoc, Hk. apply doc_name_of_composite_key, Hok.
      by rewrite Hpaths.
    + congruence.
    + intros mt Hmt Hty. rewrite Hms, Htext in Hmt. simpl in Hmt.
      apply doc_matches_content in Hmt as (s & e & Hspan & ->); [|done].
      apply finditer_spec in Hspan as (Hs & _ & Hmatch).
      exists s. done.
  - pose proof (new_manager_loads findall_headers fs environ m Hm) as Hshape.
    rewrite Hroots in Hshape. subst m. by apply elem_of_nil in Hin.
Qed.
End EndToEndFacts.

(** ** Case sensitivity *)

Lemma match_here_mono (eqc eqc' : char -> char -> bool) pat text :
  (forall p c, eqc p c = true -> eqc' p c = true) ->
  match_here eqc pat text = true -> match_here eqc' pat text = true.
Proof.
  intros Hmono. revert text.
  induction pat as [|p pat IH]; intros [|c text]; simpl; try done.
  intros [Hpc Hrest]%andb_true_iff.
  by rewrite (Hmono _ _ Hpc), (IH _ Hrest).
Qed.

Lemma re_search_mono (eqc eqc' : char -> char -> bool) pat text :
  (forall p c, eqc p c = true -> eqc' p c = true) ->
  re_search eqc pat text = true -> re_search eqc' pat text = true.
Proof.
  intros Hmono. induction text as [|c text IH]; simpl.
  - rewrite !orb_false_r. by apply match_here_mono.
  - intros [Hhere|Hlater]%orb_true_iff.
    + by rewrite (match_here_mono eqc eqc' _ _ Hmono Hhere).
    + rewrite (IH Hlater). apply orb_true_r.
Qed.

Lemma filter_length_mono {A} (P Q : A -> Prop) `{!forall x, Decision (P x)}
    `{!forall x, Decision (Q x)} (l : list A) :
  (forall x, P x -> Q x) ->
  (length (filter P l) <= length (filter Q l))%nat.
Proof.
  intros HPQ. induction l as [|x l IH]; [done|].
  rewrite !filter_cons.
  destruct (decide (P x)) as [HP|HP].
  - rewrite decide_True by auto. simpl. lia.
  - destruct (decide (Q x)); simpl; lia.
Qed.

(** X22. When the comparison under [re.IGNORECASE] accepts equal characters,
    as that of Python does, a case-insensitive search matches every document
    that the case-sensitive search of the same query matches: its
    [total_results] is not smaller. *)
Theorem search_case_insensitive_finds_more (ieq : char -> char -> bool)
    (self : LocalDocsManager) (q : str) :
  (forall c, ieq c c = true) ->
  (forall item, item ∈ docs_cache self ->
     query_occurs ieq self q true item = true ->
     query_occurs ieq self q false item = true) /\
  total_results (search ieq self q true)
    <= total_results (search ieq self q false).
Proof.
  intros Hrefl.
  assert (forall p c, chr_eq ieq true p c = true -> chr_eq ieq false p c = true)
    as Hmono.
  { unfold chr_eq. intros p c Hpc. apply N.eqb_eq in Hpc as ->. apply Hrefl. }
  assert (forall item, query_occurs ieq self q true item = true ->
                       query_occurs ieq self q false item = true) as Hocc.
  { intros item. unfold query_occurs.
    intros [Hname|[Hne Htext]%andb_true_iff]%orb_true_iff.
    - by rewrite (re_search_mono _ _ _ _ Hmono Hname).
    - rewrite Hne, (re_search_mono _ _ _ _ Hmono Htext). apply orb_true_r. }
  split; [by auto|].
  unfold search. simpl. unfold len.
  rewrite !sort_by_perm. unfold unsorted_results.
  rewrite !(omap_length_filter _ _ _ (doc_result_is_Some ieq self q _)).
  pose proof (filter_length_mono _ _ (docs_cache self) Hocc). lia.
Qed.

(** ** Instances of the further properties *)

Example search_docs_strips_query :
  match tools.search_docs ascii_ieq ascii_lower_str (manager_of apps_two)
          (lit "  doc ") false with
  | tool_response response None =>
      query response = lit "doc" /\ total_results response = 3
  | _ => False
  end.
Proof. by vm_compute. Qed.

Example suggestions_for_no_results :
  map sg_tool
    (SuggestionEngine.get_suggestions ascii_lower_str
       {| current_tool := lit "search_docs";
          ctx_query := lit "How to build a fast UI";
          results_count := 0 |})
  = [lit "search_apple_online"; lit "search_wwdc_notes";
     lit "search_swift_repos"].
Proof. by vm_compute. Qed.

Example context_of_spaced_text :
  map (fun r => map m_context (matches r))
    (results (search ascii_ieq (manager_of apps_spaces) (lit "glass") false))
  = [[lit "Liquid glass design notes"]].
Proof. by vm_compute. Qed.

Lemma search_match_list_structure_witness :
  exists r,
    results (search ascii_ieq (manager_of apps_two) (lit "doc") false) !! 0%nat
      = Some r /\
    total_matches r = len (matches r) /\
    1 <= total_matches r /\
    (has_filename r = true <->
     re_search (chr_eq ascii_ieq false) (lit "doc") (document r) = true) /\
    exists contents,
      matches r =
        (if has_filename r then [filename_match (document r)] else [])
        ++ contents /\
      Forall (fun m => m_type m = type_content /\ is_Some (m_position m))
        contents.
Proof.
  eexists. split; [vm_compute; reflexivity|].
  apply (search_match_list_structure ascii_ieq (manager_of apps_two)
           (lit "doc") false).
  apply (list_elem_of_lookup_2 _ 0%nat). vm_compute; reflexivity.
Defined.

Lemma search_positions_increase_witness :
  exists r,
    results (search ascii_ieq (manager_of apps_two) (lit "doc") false) !! 2%nat
      = Some r /\
    omap m_position (matches r) = [2; 12; 20] /\
    StronglySorted (fun p p' => p + Z.max 1 (len (lit "doc")) <= p')
      (omap m_position (matches r)).
Proof.
  eexists. split; [vm_compute; reflexivity|]. split; [vm_compute; reflexivity|].
  apply (search_positions_increase ascii_ieq (manager_of apps_two)
           (lit "doc") false).
  apply (list_elem_of_lookup_2 _ 2%nat). vm_compute; reflexivity.
Defined.



Lemma search_context_length_witness :
  exists r m,
    results (search ascii_ieq (manager_of apps_spaces) (lit "glass") false)
      !! 0%nat = Some r /\
    matches r !! 0%nat = Some m /\
    len (m_context m) <= len (lit "glass") + 100.
Proof.
  eexists _, _.
  split; [vm_compute; reflexivity|]. split; [vm_compute; reflexivity|].
  match goal with
  | |- len (m_context ?m) <= _ =>
      eapply (search_context_length ascii_ieq (manager_of apps_spaces)
                (lit "glass") false _ m)
  end.
  - apply (list_elem_of_lookup_2 _ 0%nat). vm_compute; reflexivity.
  - apply (list_elem_of_lookup_2 _ 0%nat). vm_compute; reflexivity.
  - vm_compute; reflexivity.
Defined.

Lemma search_context_normalized_witness :
  exists r m,
    results (search ascii_ieq (manager_of apps_spaces) (lit "glass") false)
      !! 0%nat = Some r /\
    matches r !! 0%nat = Some m /\
    m_context m = lit "Liquid glass design notes" /\
    ws_normalized (m_context m).
Proof.
  eexists _, _.
  split; [vm_compute; reflexivity|]. split; [vm_compute; reflexivity|].
  split; [vm_compute; reflexivity|].
  match goal with
  | |- ws_normalized (m_context ?m) =>
      eapply (search_context_normalized ascii_ieq (manager_of apps_spaces)
                (lit "glass") false _ m)
  end.
  - apply (list_elem_of_lookup_2 _ 0%nat). vm_compute; reflexivity.
  - apply (list_elem_of_lookup_2 _ 0%nat). vm_compute; reflexivity.
  - vm_compute; reflexivity.
Defined.

Lemma list_documents_first_entry_witness :
  exists e pre key info post,
    list_documents ascii_lower_str (manager_of apps_two) None !! 0%nat
      = Some e /\
    sum_name e = lit "Doc" /\
    docs_cache (manager_of apps_two) = pre ++ (key, info) :: post /\
    Forall (fun item : str * DocInfo => info_name item.2 <> sum_name e) pre /\
    info_name info = sum_name e /\
    sum_topics e = info_topics info /\
    sum_size e = info_size info /\
    xcode_versions e = _get_versions_for_doc (manager_of apps_two) (sum_name e).
Proof.
  eexists.
  assert (list_documents ascii_lower_str (manager_of apps_two) None !! 0%nat
          = Some (default {| sum_name := []; sum_topics := []; sum_size := 0;
                             xcode_versions := [] |}
                    (list_documents ascii_lower_str (manager_of apps_two) None
                       !! 0%nat))) as He by (vm_compute; reflexivity).
  destruct (list_documents_first_entry ascii_lower_str (manager_of apps_two)
              None _ (list_elem_of_lookup_2 _ 0%nat _ He))
    as (pre & key & info & post & H1 & H2 & H3 & H4 & H5 & H6).
  exists pre, key, info, post.
  split; [exact He|]. split; [vm_compute; reflexivity|].
  exact (conj H1 (conj H2 (conj H3 (conj H4 (conj H5 H6))))).
Defined.

Lemma get_document_not_found_witness :
  get_document (apps_fs apps_two) (manager_of apps_two) (lit "Doc")
    (Some (lit "Xcode-C.app"))
  = Ok (lit "Document 'Doc' not found in Xcode-C.app").
Proof.
  apply (get_document_not_found (apps_fs apps_two) (manager_of apps_two)
           (lit "Doc") (Some (lit "Xcode-C.app"))).
  apply (bool_decide_unpack _). by vm_compute.
Defined.

Lemma get_document_disk_witness :
  get_document (apps_fs apps_two) (manager_of apps_two) (lit "Doc") None
  = get_document (apps_fs []) (manager_of apps_two) (lit "Doc") None.
Proof.
  apply (get_document_disk (apps_fs apps_two) (apps_fs [])
           (manager_of apps_two) (lit "Doc") None).
  assert (Forall (fun item : str * DocInfo =>
                    default [] (dict_get item.1
                                  (content_cache (manager_of apps_two))) <> [])
            (docs_cache (manager_of apps_two))) as Hcached.
  { apply (bool_decide_unpack _). by vm_compute. }
  intros key info Hin _ Hempty. rewrite Forall_forall in Hcached.
  by destruct (Hcached _ Hin).
Defined.

Lemma get_documentation_paths_roots_witness :
  let fs := apps_fs apps_two in
  let p := app_doc_path (lit "Xcode-A.app") in
  fs_exists fs p = Ok true /\
  (override None = None ->
   fs_is_dir fs p = Ok true /\
   (exists files, fs_glob fs p (lit "*.md") = Ok files /\ files <> []) /\
   exists pattern apps xcode_app,
     pattern ∈ Config.XCODE_PATTERNS /\
     fs_glob fs Config.APPLICATIONS_DIR pattern = Ok apps /\
     xcode_app ∈ apps /\
     p = pathlib.joinpath xcode_app Config.DOC_SUBPATH).
Proof.
  intros fs p.
  apply (get_documentation_paths_roots fs None
           (doc_paths (manager_of apps_two)) p).
  - vm_compute; reflexivity.
  - apply (bool_decide_unpack _). by vm_compute.
Defined.

(** The entry of [Guide.md] in the index of [apps_headed]: of the five
    lines that hold a ['#'], three give a topic. *)
Lemma index_entry_provenance_witness :
  exists key info doc_path md_file text,
    docs_cache (manager_of apps_headed) !! 0%nat = Some (key, info) /\
    info_topics info
    = [lit "Liquid Glass"; lit "Adopting  " ++ [13%N]; lit "next line"] /\
    doc_path ∈ doc_paths (manager_of apps_headed) /\
    md_file ∈ md_files (apps_fs apps_headed) doc_path /\
    fs_read_text (apps_fs apps_headed) md_file = Ok text /\
    fs_stat_size (apps_fs apps_headed) md_file = Ok (info_size info) /\
    dict_get key (content_cache (manager_of apps_headed)) = Some text /\
    key = composite_key (Config.get_xcode_name_from_path doc_path)
            (pathlib.stem md_file) /\
    info_name info = pathlib.stem md_file /\
    info_xcode_source info = Config.get_xcode_name_from_path doc_path /\
    info_path info = pathlib.to_str md_file /\
    info_topics info = slice (markdown_headers (slice text 0 500)) 0 5 /\
    len (info_topics info) <= 5 /\
    Forall (is_heading (slice text 0 500)) (info_topics info).
Proof.
  eexists _, _.
  assert (docs_cache (manager_of apps_headed) !! 0%nat = Some (?[key], ?[info]))
    as Hentry by (vm_compute; reflexivity).
  destruct (index_entry_provenance (apps_fs apps_headed) None
              (manager_of apps_headed) _ _ eq_refl
              (list_elem_of_lookup_2 _ 0%nat _ Hentry))
    as (doc_path & md_file & text & H).
  exists doc_path, md_file, text.
  split; [exact Hentry|]. split; [vm_compute; reflexivity|exact H].
Defined.

Lemma initialize_idempotent_witness :
  exists m,
    new_manager markdown_headers (apps_fs apps_two) None = Ok m /\
    length (docs_cache m) = 3%nat /\
    initialize markdown_headers (apps_fs apps_two) None m = Ok m.
Proof.
  exists (manager_of apps_two).
  assert (new_manager markdown_headers (apps_fs apps_two) None
          = Ok (manager_of apps_two)) as Hm by (vm_compute; reflexivity).
  split; [exact Hm|]. split; [vm_compute; reflexivity|].
  exact (proj2 (initialize_idempotent markdown_headers (apps_fs apps_two) None)
           _ Hm).
Defined.

Lemma get_document_after_build_witness :
  exists m,
    new_manager markdown_headers (apps_fs apps_two) None = Ok m /\
    get_document (apps_fs []) m (lit "Doc") (Some (lit "Xcode-A.app"))
      = Ok (lit "alpha doc") /\
    (valid_name (lit "Doc") ->
     tools.get_document (apps_fs []) m (lit "Doc") (Some (lit "Xcode-A.app"))
       = Ok (lit "alpha doc")).
Proof.
  refine (get_document_after_build markdown_headers (apps_fs apps_two)
            (apps_fs []) None (doc_paths (manager_of apps_two))
            (app_doc_path (lit "Xcode-A.app"))
            (app_doc_path (lit "Xcode-A.app") ++ [lit "Doc.md"])
            (lit "alpha doc") 9 _ _ _ _ _ _ _ _ _ _).
  - vm_compute; reflexivity.
  - let l := eval vm_compute in (doc_paths (manager_of apps_two)) in
    change (doc_paths (manager_of apps_two)) with l.
    solve_listable.
  - apply Forall_forall.
    let l := eval vm_compute in (doc_paths (manager_of apps_two)) in
    change (doc_paths (manager_of apps_two)) with l.
    solve_tags_ok.
  - apply (bool_decide_unpack _). by vm_compute.
  - apply (bool_decide_unpack _). by vm_compute.
  - vm_compute; reflexivity.
  - vm_compute; reflexivity.
  - vm_compute; discriminate.
  - vm_compute; discriminate.
  - intros p f text' Hp Hf Htag Hstem Hread.
    apply list_elem_of_In in Hp. vm_compute in Hp.
    destruct Hp as [<-|[<-|[]]].
    + apply list_elem_of_In in Hf. vm_compute in Hf.
      destruct Hf as [<-|[<-|[]]].
      * vm_compute in Hread. injection Hread as <-. reflexivity.
      * vm_compute in Hstem. discriminate Hstem.
    + vm_compute in Htag. discriminate Htag.
Defined.

Lemma search_after_build_witness :
  exists r doc_path md_file text,
    results (search ascii_ieq (manager_of apps_two) (lit "doc") false) !! 2%nat
      = Some r /\
    doc_path ∈ doc_paths (manager_of apps_two) /\
    md_file ∈ md_files (apps_fs apps_two) doc_path /\
    fs_read_text (apps_fs apps_two) md_file = Ok text /\
    document r = pathlib.stem md_file /\
    xcode_version r = Config.get_xcode_name_from_path doc_path /\
    forall mt, mt ∈ matches r -> m_type mt = type_content ->
      exists p, m_position mt = Some p /\ 0 <= p <= len text /\
        match_here (chr_eq ascii_ieq false) (lit "doc")
          (drop (Z.to_nat p) text) = true.
Proof.
  eexists.
  assert (results (search ascii_ieq (manager_of apps_two) (lit "doc") false)
            !! 2%nat
          = Some (default {| document := []; xcode_version := [];
                             matches := []; total_matches := 0 |}
                    (results (search ascii_ieq (manager_of apps_two)
                                (lit "doc") false) !! 2%nat))) as Hr
    by (vm_compute; reflexivity).
  assert (forall p, p ∈ doc_paths (manager_of apps_two) ->
                    tag_ok (Config.get_xcode_name_from_path p)) as Hok.
  { apply Forall_forall.
    let l := eval vm_compute in (doc_paths (manager_of apps_two)) in
    change (doc_paths (manager_of apps_two)) with l.
    solve_tags_ok. }
  destruct (search_after_build ascii_ieq markdown_headers (apps_fs apps_two) None
              (manager_of apps_two) (lit "doc") false _ eq_refl Hok
              (list_elem_of_lookup_2 _ 2%nat _ Hr))
    as (doc_path & md_file & text & H).
  exists doc_path, md_file, text. split; [exact Hr|exact H].
Defined.

Lemma search_case_insensitive_finds_more_witness :
  total_results (search ascii_ieq (manager_of apps_two) (lit "Doc") true) = 2 /\
  total_results (search ascii_ieq (manager_of apps_two) (lit "Doc") false) = 3 /\
  total_results (search ascii_ieq (manager_of apps_two) (lit "Doc") true)
    <= total_results (search ascii_ieq (manager_of apps_two) (lit "Doc") false).
Proof.
  split; [vm_compute; reflexivity|]. split; [vm_compute; reflexivity|].
  apply (search_case_insensitive_finds_more ascii_ieq (manager_of apps_two)
           (lit "Doc")).
  intros c. apply N.eqb_refl.
Defined.
